(** * QDP-ETL: the JSON-to-CSV flattener and the job-status records

    A shallow embedding of [Lambda_Functions/JSONtoCSV.py] (the Glue job:
    [read_nested_json], [flatten], [update_dynamodb_status], [main]) and of
    the record creation in [Lambda_Functions/GlueJobTrigger.py]
    ([lambda_handler]), with the properties of the flattening loop and of the
    job-status protocol stated and proved over it.  The other handlers of
    the repository ([EmailSender.py], [NamedEntityRecognition.py],
    [GCPWordFrequency.py]) follow, each in a module of its
    name.

    The Spark DataFrame and the DynamoDB table are external services.  They
    are represented by the part of their documented behaviour that the
    Python code relies on: a DataFrame is a schema (ordered, named, typed
    columns) with a list of rows; a table is a finite map from the hash key
    [reference_id] to items.  Functions that can raise return a [Result];
    what a run meets outside the program (the clock, the random digits, the
    answers of Spark, Glue and DynamoDB) is an argument.  Python looks a
    column name up as it is written ([df.schema[name]]); Spark's analyzer
    reads a name at its dots and backticks and compares it without regard to
    the case of letters.  What the code prints is left out. *)

From Stdlib Require Import ZArith Ascii String List Lia Bool Arith.
From stdpp Require Import base option list gmap strings fin_maps.

Open Scope string_scope.
Set Warnings "-register-all".

(** ** Exceptions and fallible results *)

Inductive Exn : Type :=
| AnalysisException (msg : string)   (* Spark: unresolved or ambiguous column *)
| KeyError (msg : string)
| IndexError (msg : string)
| ValueError (msg : string)
| NoCredentialsError (msg : string)  (* botocore *)
| PartialCredentialsError (msg : string)
| ClientError (msg : string)         (* boto3: a request to AWS failed *)
| IOError (msg : string).            (* Spark: reading or writing a path failed *)

Inductive Result (A : Type) : Type :=
| Ok (a : A)
| Raise (e : Exn).
Arguments Ok {A} a.
Arguments Raise {A} e.

#[export] Instance result_ret : MRet Result := fun _ a => Ok a.
#[export] Instance result_bind : MBind Result := fun _ _ f m =>
  match m with
  | Ok a => f a
  | Raise e => Raise e
  end.

(** ** Spark data types, values and DataFrames *)

Inductive DataType : Type :=
| StringType
| LongType
| DoubleType
| BooleanType
| ArrayType (elementType : DataType)
| StructType (fields : list (string * DataType)).

Abbreviation StructField := (string * DataType)%type (only parsing).
Abbreviation Schema := (list (string * DataType)) (only parsing).

(** A cell of a row.  A struct value lists the values of the struct's fields
    in the order of the fields of its type. *)
Inductive Value : Type :=
| VNull
| VStr (s : string)
| VLong (z : Z)
| VDouble (mantissa exponent : Z)
| VBool (b : bool)
| VArray (elems : list Value)
| VStruct (vals : list Value).

Abbreviation Row := (list Value) (only parsing).

Record DataFrame : Type := mkDataFrame {
  schema : Schema;
  rows : list Row
}.

(** [df.schema.names] *)
Definition names (sch : Schema) : list string := map fst sch.

(** [isinstance(t, ArrayType)] and [isinstance(t, StructType)] *)
Definition is_array (t : DataType) : bool :=
  match t with ArrayType _ => true | _ => false end.
Definition is_struct (t : DataType) : bool :=
  match t with StructType _ => true | _ => false end.
Definition is_scalar (t : DataType) : bool :=
  negb (is_array t) && negb (is_struct t).

(** [df.schema[column_name]]: pyspark's [StructType.__getitem__] walks the
    fields and returns the first one with that name; [KeyError] if none. *)
Fixpoint schema_lookup (sch : Schema) (column_name : string) : Result DataType :=
  match sch with
  | [] => Raise (KeyError column_name)
  | (n, t) :: rest =>
      if String.eqb n column_name then Ok t else schema_lookup rest column_name
  end.

(** Positions of the names equal to [n] as written, counted from [i]. *)
Fixpoint positions (n : string) (ns : list string) (i : nat) : list nat :=
  match ns with
  | [] => []
  | m :: ms =>
      if String.eqb m n then i :: positions n ms (S i) else positions n ms (S i)
  end.

(** The analyzer compares names with [equalsIgnoreCase]
    ([spark.sql.caseSensitive] is false unless it is set, and the job does
    not set it): the letters [A] to [Z] count as [a] to [z]. *)
Definition fold_char (c : ascii) : ascii :=
  let n := nat_of_ascii c in
  if Nat.leb 65 n && Nat.leb n 90 then ascii_of_nat (n + 32) else c.

Fixpoint fold_case (s : string) : string :=
  match s with
  | String c s' => String (fold_char c) (fold_case s')
  | EmptyString => EmptyString
  end.

Definition same_name (m n : string) : bool :=
  String.eqb (fold_case m) (fold_case n).

(** A name that the analyzer takes as one part: in [col(name)] a dot
    separates the parts of a path into a struct and a backtick quotes, and
    the code quotes nothing. *)
Definition simple (n : string) : bool :=
  forallb (fun c => negb (Ascii.eqb c ".") && negb (Ascii.eqb c "`"))
          (list_ascii_of_string n).

(** Positions of the names that the analyzer matches with [n], counted from
    [i]. *)
Fixpoint matches (n : string) (ns : list string) (i : nat) : list nat :=
  match ns with
  | [] => []
  | m :: ms =>
      if same_name m n then i :: matches n ms (S i) else matches n ms (S i)
  end.

(** A column reference in an expression ([explode("a")], [select("a")],
    [col("a.x")]) is resolved by the analyzer against all columns of the
    DataFrame: no match or more than one match is an [AnalysisException].
    A name holding a dot or a backtick does not refer to the column of that
    name: it is read as a path into a struct or as a quoted name.  Paths are
    not followed here: such a reference raises, as it does in Spark unless
    the path or the quoted name happens to be that of another column or of
    one of its fields. *)
Definition resolve (ns : list string) (n : string) : Result nat :=
  if simple n
  then match matches n ns 0 with
       | [i] => Ok i
       | [] => Raise (AnalysisException ("cannot resolve " ++ n))
       | _ => Raise (AnalysisException ("ambiguous reference " ++ n))
       end
  else Raise (AnalysisException ("cannot resolve " ++ n)).

Definition cell (r : Row) (i : nat) : Value := default VNull (r !! i).

(** [explode]: one output per element; a null or empty array gives none. *)
Definition elements (v : Value) : list Value :=
  match v with
  | VArray l => l
  | _ => []
  end.

Definition explode_row_at (i : nat) (r : Row) : list Row :=
  map (fun e => <[i := e]> r) (elements (cell r i)).

(** [df.withColumn(column_name, explode(column_name))]: the column keeps its
    name and position, its type becomes the element type, and every row is
    replaced by one row per element of its array. *)
Definition withColumn_explode (df : DataFrame) (column_name : string)
  : Result DataFrame :=
  i ← resolve (names (schema df)) column_name;
  match schema df !! i with
  | Some (_, ArrayType e) =>
      Ok {| schema := <[i := (column_name, e)]> (schema df);
            rows := flat_map (explode_row_at i) (rows df) |}
  | _ => Raise (AnalysisException ("explode needs an array: " ++ column_name))
  end.

(** The entries of [column_list]: a column name, or
    [col(parent + "." + child).alias(alias)]. *)
Inductive ColumnExpr : Type :=
| ColName (column_name : string)
| ColAlias (parent child alias : string).

(** How a selected column reads its cell from an input row. *)
Inductive Extract : Type :=
| Cell (i : nat)
| FieldOf (i j : nat).

Definition eval_extract (x : Extract) (r : Row) : Value :=
  match x with
  | Cell i => cell r i
  | FieldOf i j =>
      match cell r i with
      | VStruct vs => default VNull (vs !! j)
      | _ => VNull   (* a field of a null struct is null *)
      end
  end.

Definition resolve_column (sch : Schema) (c : ColumnExpr)
  : Result (StructField * Extract) :=
  match c with
  | ColName n =>
      i ← resolve (names sch) n;
      match sch !! i with
      | Some (_, t) => Ok ((n, t), Cell i)
      | None => Raise (AnalysisException ("cannot resolve " ++ n))
      end
  | ColAlias p f a =>
      i ← resolve (names sch) p;
      match sch !! i with
      | Some (_, StructType fs) =>
          j ← resolve (names fs) f;
          match fs !! j with
          | Some (_, t) => Ok ((a, t), FieldOf i j)
          | None => Raise (AnalysisException ("no such struct field " ++ f))
          end
      | _ => Raise (AnalysisException ("cannot extract " ++ f ++ " from " ++ p))
      end
  end.

Fixpoint resolve_columns (sch : Schema) (cs : list ColumnExpr)
  : Result (list (StructField * Extract)) :=
  match cs with
  | [] => Ok []
  | c :: cs' =>
      o ← resolve_column sch c;
      os ← resolve_columns sch cs';
      Ok (o :: os)
  end.

(** [df.select(column_list)] *)
Definition select (df : DataFrame) (column_list : list ColumnExpr)
  : Result DataFrame :=
  outs ← resolve_columns (schema df) column_list;
  Ok {| schema := map fst outs;
        rows := map (fun r => map (fun o => eval_extract (snd o) r) outs)
                    (rows df) |}.

(** ** JSONtoCSV.py: [read_nested_json] and [flatten] *)

(** The body of the [for column_name in df.schema.names] loop of
    [read_nested_json].  The list of names is fixed when the loop starts; the
    type test reads the schema of the current [df], which the array branch
    rebinds. *)
Fixpoint read_nested_json_loop (column_names : list string) (df : DataFrame)
    (column_list : list ColumnExpr) : Result (DataFrame * list ColumnExpr) :=
  match column_names with
  | [] => Ok (df, column_list)
  | column_name :: rest =>
      t ← schema_lookup (schema df) column_name;
      match t with
      | ArrayType _ =>
          df' ← withColumn_explode df column_name;
          read_nested_json_loop rest df' (column_list ++ [ColName column_name])
      | StructType fields =>
          read_nested_json_loop rest df
            (column_list ++
             map (fun field => ColAlias column_name (fst field)
                                 (column_name ++ "_" ++ fst field)) fields)
      | _ =>
          read_nested_json_loop rest df (column_list ++ [ColName column_name])
      end
  end.

Definition read_nested_json (df : DataFrame) : Result DataFrame :=
  '(df', column_list) ← read_nested_json_loop (names (schema df)) df [];
  select df' column_list.

(** The schema inspection at the end of each round of [flatten]: the flag is
    set when the field found under some column name is an array or a struct. *)
Fixpoint inspect_schema (sch : Schema) (column_names : list string)
    (read_nested_json_flag : bool) : Result bool :=
  match column_names with
  | [] => Ok read_nested_json_flag
  | column_name :: rest =>
      t ← schema_lookup sch column_name;
      if is_array t then inspect_schema sch rest true
      else if is_struct t then inspect_schema sch rest true
      else inspect_schema sch rest read_nested_json_flag
  end.

(** The [while read_nested_json_flag] loop of [flatten], with the number of
    passes made so far.  [None]: the fuel ran out before the loop ended;
    [Some (n, Ok df)]: [flatten] returned [df] after [n] passes;
    [Some (n, Raise e)]: pass [n] raised [e]. *)
Fixpoint flatten_loop (fuel : nat) (df : DataFrame) (passes : nat)
  : option (nat * Result DataFrame) :=
  match fuel with
  | O => None
  | S fuel' =>
      match read_nested_json df with
      | Raise e => Some (S passes, Raise e)
      | Ok df' =>
          match inspect_schema (schema df') (names (schema df')) false with
          | Raise e => Some (S passes, Raise e)
          | Ok true => flatten_loop fuel' df' (S passes)
          | Ok false => Some (S passes, Ok df')
          end
      end
  end.

(** ** Nesting depth

    The depth of a type counts its nested containers: a scalar has depth 0,
    an array or a struct one more than the deepest type it holds.  A record
    batch is itself an object whose fields are the columns, so its depth is
    the depth of the struct type made of its schema. *)

Fixpoint type_depth (t : DataType) : nat :=
  match t with
  | ArrayType e => S (type_depth e)
  | StructType fs =>
      S ((fix fields_depth (l : list (string * DataType)) : nat :=
            match l with
            | [] => 0
            | (_, ft) :: l' => Nat.max (type_depth ft) (fields_depth l')
            end) fs)
  | _ => 0
  end.

Fixpoint schema_depth (sch : Schema) : nat :=
  match sch with
  | [] => 0
  | (_, t) :: rest => Nat.max (type_depth t) (schema_depth rest)
  end.

Definition depth (df : DataFrame) : nat := type_depth (StructType (schema df)).

Definition all_scalar (sch : Schema) : bool :=
  forallb (fun f => is_scalar (snd f)) sch.


(** ** Examples from the specification *)

Definition df_a_list : DataFrame :=
  {| schema := [("a", ArrayType LongType)];
     rows := [[VArray [VLong 1; VLong 2; VLong 3]]] |}.

Definition df_a_object : DataFrame :=
  {| schema := [("a", StructType [("x", LongType); ("y", LongType)])];
     rows := [[VStruct [VLong 1; VLong 2]]] |}.

Definition df_a_list_of_objects : DataFrame :=
  {| schema := [("a", ArrayType (StructType [("x", LongType)]))];
     rows := [[VArray [VStruct [VLong 1]; VStruct [VLong 2]]]] |}.


(** [{"a": [1, 2], "b": [3, 4]}] *)
Definition df_two_lists : DataFrame :=
  {| schema := [("a", ArrayType LongType); ("b", ArrayType LongType)];
     rows := [[VArray [VLong 1; VLong 2]; VArray [VLong 3; VLong 4]]] |}.

(** [{"a": {"b_c": 1}, "a_b": {"c": [2, 3]}}]: the paths [a.b_c] and
    [a_b.c] both become the column name [a_b_c]. *)
Definition df_colliding : DataFrame :=
  {| schema := [("a", StructType [("b_c", LongType)]);
                ("a_b", StructType [("c", ArrayType LongType)])];
     rows := [[VStruct [VLong 1]; VStruct [VArray [VLong 2; VLong 3]]]] |}.

(** [{"a": {"b_c": 1}, "a_b": {"c": 2}}] *)
Definition df_colliding_scalars : DataFrame :=
  {| schema := [("a", StructType [("b_c", LongType)]);
                ("a_b", StructType [("c", LongType)])];
     rows := [[VStruct [VLong 1]; VStruct [VLong 2]]] |}.

(** [{"a": {"x.y": 1}}]: the field [x.y] is referred to as [col("a.x.y")]. *)
Definition df_dotted_field : DataFrame :=
  {| schema := [("a", StructType [("x.y", LongType)])];
     rows := [[VStruct [VLong 1]]] |}.

(** [{"a": {"B": 1}, "a_b": 2}]: after one pass the columns are [a_B] and
    [a_b]. *)
Definition df_case_clash : DataFrame :=
  {| schema := [("a", StructType [("B", LongType)]); ("a_b", LongType)];
     rows := [[VStruct [VLong 1]; VLong 2]] |}.

(** [{"a": [], "b": 1}] and [{"a": null, "b": 2}] and [{"a": [7], "b": 3}] *)
Definition df_empty_lists : DataFrame :=
  {| schema := [("a", ArrayType LongType); ("b", LongType)];
     rows := [[VArray []; VLong 1]; [VNull; VLong 2]; [VArray [VLong 7]; VLong 3]] |}.

(** [{"id": 1, "a": [10, 20], "tag": "x"}] *)
Definition df_id_list_tag : DataFrame :=
  {| schema := [("id", LongType); ("a", ArrayType LongType); ("tag", StringType)];
     rows := [[VLong 1; VArray [VLong 10; VLong 20]; VStr "x"]] |}.

(** [{"id": 1, "a": {"x": 1, "y": null}, "l": [5, 6]}] *)
Definition df_id_object_list : DataFrame :=
  {| schema := [("id", LongType);
                ("a", StructType [("x", LongType); ("y", StringType)]);
                ("l", ArrayType LongType)];
     rows := [[VLong 1; VStruct [VLong 1; VNull]; VArray [VLong 5; VLong 6]]] |}.

(** ** Python string methods used by the job code

    A string is held as the bytes of its UTF-8 encoding.  White space is
    what [str.isspace] says: the characters 9 to 13 and 28 to 32, U+0085,
    U+00A0, U+1680, U+2000 to U+200A, U+2028, U+2029, U+202F, U+205F and
    U+3000, the last ones in two or three bytes. *)

Definition is_space (c : ascii) : bool :=
  let n := nat_of_ascii c in
  (Nat.leb 9 n && Nat.leb n 13) || (Nat.leb 28 n && Nat.leb n 32).

(** U+0085 and U+00A0: [C2 85], [C2 A0] *)
Definition is_space2 (a b : ascii) : bool :=
  Nat.eqb (nat_of_ascii a) 194
  && (Nat.eqb (nat_of_ascii b) 133 || Nat.eqb (nat_of_ascii b) 160).

(** U+1680: [E1 9A 80]; U+2000 to U+200A, U+2028, U+2029, U+202F:
    [E2 80 80] to [E2 80 8A], [E2 80 A8], [E2 80 A9], [E2 80 AF]; U+205F:
    [E2 81 9F]; U+3000: [E3 80 80] *)
Definition is_space3 (a b c : ascii) : bool :=
  let x := nat_of_ascii a in
  let y := nat_of_ascii b in
  let z := nat_of_ascii c in
  (Nat.eqb x 225 && Nat.eqb y 154 && Nat.eqb z 128)
  || (Nat.eqb x 226 && Nat.eqb y 128
      && ((Nat.leb 128 z && Nat.leb z 138) || Nat.eqb z 168 || Nat.eqb z 169
          || Nat.eqb z 175))
  || (Nat.eqb x 226 && Nat.eqb y 129 && Nat.eqb z 159)
  || (Nat.eqb x 227 && Nat.eqb y 128 && Nat.eqb z 128).

(** [s] is empty or white space only: [not s.strip()] *)
Fixpoint blank (s : string) : bool :=
  match s with
  | String a s1 =>
      if is_space a then blank s1
      else match s1 with
           | String b s2 =>
               if is_space2 a b then blank s2
               else match s2 with
                    | String c s3 => is_space3 a b c && blank s3
                    | EmptyString => false
                    end
           | EmptyString => false
           end
  | EmptyString => true
  end.

(** [s.lstrip()] and [s.rstrip()] *)
Fixpoint lstrip_space (s : string) : string :=
  match s with
  | String a s1 =>
      if is_space a then lstrip_space s1
      else match s1 with
           | String b s2 =>
               if is_space2 a b then lstrip_space s2
               else match s2 with
                    | String c s3 =>
                        if is_space3 a b c then lstrip_space s3 else s
                    | EmptyString => s
                    end
           | EmptyString => s
           end
  | EmptyString => EmptyString
  end.

Fixpoint rstrip_space (s : string) : string :=
  match s with
  | String c s' => if blank s then EmptyString else String c (rstrip_space s')
  | EmptyString => EmptyString
  end.

Definition in_chars (chars : string) (c : ascii) : bool :=
  existsb (Ascii.eqb c) (list_ascii_of_string chars).

Fixpoint lstrip_by (P : ascii -> bool) (s : string) : string :=
  match s with
  | String c s' => if P c then lstrip_by P s' else s
  | EmptyString => EmptyString
  end.

Fixpoint rstrip_by (P : ascii -> bool) (s : string) : string :=
  match s with
  | String c s' =>
      match rstrip_by P s' with
      | EmptyString => if P c then EmptyString else String c EmptyString
      | r => String c r
      end
  | EmptyString => EmptyString
  end.

(** [s.strip()], [s.lstrip(chars)], [s.rstrip(chars)] *)
Definition strip (s : string) : string := rstrip_space (lstrip_space s).
Definition lstrip (chars s : string) : string := lstrip_by (in_chars chars) s.
Definition rstrip (chars s : string) : string := rstrip_by (in_chars chars) s.

(** [s.replace(old, new)] for a non-empty [old]: the occurrences are taken
    from the left and do not overlap; [skip] counts the characters of the
    occurrence just replaced that are still to be passed over. *)
Fixpoint replace_from (old new : string) (skip : nat) (s : string) : string :=
  match s with
  | String c s' =>
      match skip with
      | S k => replace_from old new k s'
      | O =>
          if String.prefix old s
          then new ++ replace_from old new (String.length old - 1) s'
          else String c (replace_from old new 0 s')
      end
  | EmptyString => EmptyString
  end.

Definition replace (old new s : string) : string := replace_from old new 0 s.

(** [s.split(sep)] for a one-character [sep] *)
Fixpoint split (sep : ascii) (s : string) : list string :=
  match s with
  | String c s' =>
      if Ascii.eqb c sep then EmptyString :: split sep s'
      else match split sep s' with
           | h :: t => String c h :: t
           | [] => [String c EmptyString]
           end
  | EmptyString => [EmptyString]
  end.

(** [s.split(sep, 1)]: at most one cut, at the first [sep] *)
Fixpoint split1 (sep : ascii) (s : string) : list string :=
  match s with
  | String c s' =>
      if Ascii.eqb c sep then [EmptyString; s']
      else match split1 sep s' with
           | h :: t => String c h :: t
           | [] => [String c EmptyString]
           end
  | EmptyString => [EmptyString]
  end.

(** Truth value of [s3_object_key] in [if s3_object_key:] *)
Definition truthy (s : option string) : bool :=
  match s with
  | Some (String _ _) => true
  | _ => false
  end.

(** [urllib.parse.unquote_plus]: every [+] becomes a space, then every [%]
    followed by two hexadecimal digits becomes the byte they write; any
    other [%] stays. *)
Definition hex_digit (c : ascii) : option nat :=
  let n := nat_of_ascii c in
  if Nat.leb 48 n && Nat.leb n 57 then Some (n - 48)
  else if Nat.leb 65 n && Nat.leb n 70 then Some (n - 55)
  else if Nat.leb 97 n && Nat.leb n 102 then Some (n - 87)
  else None.

Fixpoint unquote (s : string) : string :=
  match s with
  | String c t =>
      if Ascii.eqb c "%"
      then match t with
           | String a (String b s') =>
               match hex_digit a, hex_digit b with
               | Some x, Some y => String (ascii_of_nat (16 * x + y)) (unquote s')
               | _, _ => String c (unquote t)
               end
           | _ => String c (unquote t)
           end
      else String c (unquote t)
  | EmptyString => EmptyString
  end.

Fixpoint plus_to_space (s : string) : string :=
  match s with
  | String c t => String (if Ascii.eqb c "+" then " "%char else c) (plus_to_space t)
  | EmptyString => EmptyString
  end.

Definition unquote_plus (s : string) : string := unquote (plus_to_space s).

(** ** The DynamoDB table [processing-1]

    An item maps attribute names to values; the table maps the hash key
    [reference_id] to the item stored under it.  [requests] counts the
    write requests the code has sent. *)

Abbreviation Item := (gmap string string) (only parsing).

Record Dynamo : Type := mkDynamo {
  table : gmap string (gmap string string);
  requests : nat
}.

(** [table.update_item(Key={'reference_id': k}, UpdateExpression="set ...")]
    without a condition expression: the attributes named in the expression
    are set on the item stored under [k]; when there is none, an item holding
    the key is made first.  [fault] is the error the service answers with, if
    any; a request that fails changes nothing. *)
Definition set_attributes (item : Item) (update_expression : list (string * string))
  : Item :=
  foldl (fun it av => <[fst av := snd av]> it) item update_expression.

Definition update_item (fault : option Exn) (k : string)
    (update_expression : list (string * string)) (db : Dynamo)
  : Dynamo * Result unit :=
  match fault with
  | Some e => ({| table := table db; requests := S (requests db) |}, Raise e)
  | None =>
      let item := default {[ "reference_id" := k ]} (table db !! k) in
      ({| table := <[k := set_attributes item update_expression]> (table db);
          requests := S (requests db) |}, Ok tt)
  end.

(** [table.put_item(Item=item)] without a condition expression: the item
    takes the place of whatever is stored under its key. *)
Definition put_item (fault : option Exn) (k : string) (item : Item) (db : Dynamo)
  : Dynamo * Result unit :=
  match fault with
  | Some e => ({| table := table db; requests := S (requests db) |}, Raise e)
  | None => ({| table := <[k := item]> (table db);
                requests := S (requests db) |}, Ok tt)
  end.

(** ** JSONtoCSV.py: [update_dynamodb_status] *)

Definition clean_key (s3_object_key : string) : string :=
  replace "//" "/" (rstrip "/" (lstrip "s3:/" s3_object_key)).

(** The key after [if s3_object_key: s3_object_key = ...]. *)
Definition cleaned (s3_object_key : option string) : option string :=
  if truthy s3_object_key then option_map clean_key s3_object_key
  else s3_object_key.

(** The [set] clauses of [update_expression] with their values: the status
    and the end time, and the key when it is still non-empty after the
    cleaning. *)
Definition update_expression (status job_end_time : string)
    (s3_object_key : option string) : list (string * string) :=
  let update_expression :=
    [("job_status", status); ("job_end_time", job_end_time)] in
  match s3_object_key with
  | Some key =>
      if truthy s3_object_key
      then (update_expression ++ [("s3_object_key", key)])%list
      else update_expression
  | None => update_expression
  end.

(** [job_end_time] is [datetime.datetime.utcnow().isoformat()] at the time of
    the call.  Each of the three [except] clauses prints and falls through,
    so the function returns normally whatever [update_item] answers. *)
Definition update_dynamodb_status (fault : option Exn) (job_end_time : string)
    (reference_id status : string) (s3_object_key : option string)
    (db : Dynamo) : Dynamo * Result unit :=
  let s3_object_key := cleaned s3_object_key in
  match update_item fault reference_id
          (update_expression status job_end_time s3_object_key) db with
  | (db', Ok _) => (db', Ok tt)
  | (db', Raise (NoCredentialsError _)) => (db', Ok tt)
  | (db', Raise (PartialCredentialsError _)) => (db', Ok tt)
  | (db', Raise _) => (db', Ok tt)
  end.

(** ** JSONtoCSV.py: [main] *)

Record Args : Type := mkArgs {
  input_path : string;
  output_path : string;
  reference_ID : string;
  email : string
}.

(** What a run of the Glue job meets outside the program: the clock, what
    Spark answers when it reads the input and when it writes the output, and
    the error DynamoDB answers with, if any. *)
Record World : Type := mkWorld {
  utcnow_isoformat : string;       (* datetime.datetime.utcnow().isoformat() *)
  now_strftime : string;           (* datetime.datetime.now().strftime("%Y%m%d_%H%M%S") *)
  spark_read_json : string -> Result DataFrame;
  spark_save_csv : DataFrame -> string -> Result unit;
  dynamo_fault : option Exn
}.

(** [flatten]: the loop, with fuel that is always enough
    ([flatten_terminates] below). *)
Definition flatten (df : DataFrame) : Result DataFrame :=
  match flatten_loop (depth df) df 0 with
  | Some (_, res) => res
  | None => Ok df
  end.

Definition unique_output_path (w : World) (args : Args) : string :=
  strip (output_path args) ++ "/" ++ email args ++ "/" ++ reference_ID args
    ++ "_output_" ++ now_strftime w ++ ".csv".

(** The [try] block of [main] up to the write of the output: read, flatten,
    save.  None of it touches the table. *)
Definition process (w : World) (args : Args) : Result string :=
  df ← spark_read_json w (strip (input_path args));
  df_flattened ← flatten df;
  _ ← spark_save_csv w df_flattened (unique_output_path w args);
  Ok (unique_output_path w args).

(** The whole [try] block: its last statement reports success. *)
Definition main_try (w : World) (args : Args) (db : Dynamo)
  : Dynamo * Result unit :=
  match process w args with
  | Raise e => (db, Raise e)
  | Ok path =>
      update_dynamodb_status (dynamo_fault w) (utcnow_isoformat w)
        (reference_ID args) "SUCCEEDED" (Some path) db
  end.

Definition main (w : World) (args : Args) (db : Dynamo) : Dynamo * Result unit :=
  match strip (input_path args) with
  | EmptyString =>
      (db, Raise (ValueError "The 'input_path' argument is missing or empty."))
  | _ =>
      match strip (output_path args) with
      | EmptyString =>
          (db, Raise (ValueError "The 'output_path' argument is missing or empty."))
      | _ =>
          match main_try w args db with
          | (db', Ok _) => (db', Ok tt)
          | (db', Raise e) =>
              match update_dynamodb_status (dynamo_fault w) (utcnow_isoformat w)
                      (reference_ID args) "FAILED" None db' with
              | (db'', Ok _) => (db'', Raise e)      (* [raise] *)
              | (db'', Raise e') => (db'', Raise e')
              end
          end
      end
  end.

(** ** GlueJobTrigger.py: [lambda_handler] *)

Record S3Record : Type := mkS3Record {
  bucket_name : string;     (* record['s3']['bucket']['name'] *)
  object_key : string       (* record['s3']['object']['key'] *)
}.

Record Event : Type := mkEvent { Records : list S3Record }.

Record TriggerWorld : Type := mkTriggerWorld {
  random_digits : string;   (* ''.join(random.choices(string.digits, k=6)) *)
  utcnow : string;          (* datetime.utcnow().isoformat() *)
  start_job_run : list (string * string) -> Result string;  (* the JobRunId *)
  put_fault : option Exn
}.

Inductive Body : Type :=
| Message (message : string)
| Started (message glueJobId reference_id : string)
| Text (s : string).

Record Response : Type := mkResponse { statusCode : nat; body : Body }.

Definition generate_reference_id (w : TriggerWorld) : string :=
  "REF" ++ random_digits w.

Definition dynamo_params (reference_id job_id job_start_time filename email : string)
  : Item :=
  <["reference_id" := reference_id]>
  (<["jobId" := job_id]>
  (<["job_start_time" := job_start_time]>
  (<["job_status" := "RUNNING"]>
  (<["file_name" := filename]>
  (<["email" := email]> ∅))))).

(** [params['Arguments']] for the job [json-to-csv] *)
Definition glue_arguments (input_path output_path reference_id email : string)
  : list (string * string) :=
  [("--input_path", input_path); ("--output_path", output_path);
   ("--reference_ID", reference_id); ("--email", email)].

Definition error_response : Response :=
  {| statusCode := 500;
     body := Text "Error processing file and starting Glue job" |}.

Definition lambda_handler (w : TriggerWorld) (event : Event) (db : Dynamo)
  : Dynamo * Response :=
  match Records event with
  | [] => (db, error_response)            (* IndexError, caught at the end *)
  | rec :: _ =>
      let object_key := unquote_plus (object_key rec) in
      let file_path := List.last (split "/" object_key) EmptyString in
      match split1 "_" file_path with
      | [email; filename] =>
          let reference_id := generate_reference_id w in
          let job_start_time := utcnow w in
          let input_path := "s3://" ++ bucket_name rec ++ "/" ++ object_key in
          let output_path := "s3://processed-json-files/another-sample.csv/" in
          match start_job_run w (glue_arguments input_path output_path
                                   reference_id email) with
          | Raise _ => (db, error_response)
          | Ok job_id =>
              let item := dynamo_params reference_id job_id job_start_time
                            filename email in
              (* the inner [try]: an error of [put_item] is printed only *)
              (fst (put_item (put_fault w) reference_id item db),
               {| statusCode := 200;
                  body := Started "File processed successfully and job started!"
                            job_id reference_id |})
          end
      | _ => (db, {| statusCode := 400;
                     body := Message "Invalid file name format" |})
      end
  end.

(** ** Runs used below *)

Definition empty_db : Dynamo := {| table := ∅; requests := 0 |}.

(** A record left by a finished job. *)
Definition finished_item : Item :=
  <["s3_object_key" := "processed-json-files/out/u@x.org/REF123456_output.csv"]>
  (<["job_end_time" := "2024-11-30T10:00:00"]>
  (<["job_status" := "SUCCEEDED"]>
  (dynamo_params "REF123456" "jr_1" "2024-11-30T09:59:00" "data.json" "u@x.org"))).

Definition finished_db : Dynamo :=
  {| table := {[ "REF123456" := finished_item ]}; requests := 0 |}.

Definition trigger_world : TriggerWorld :=
  {| random_digits := "123456";
     utcnow := "2024-12-01T08:00:00";
     start_job_run := fun _ => Ok "jr_2";
     put_fault := None |}.

Definition trigger_event : Event :=
  {| Records := [{| bucket_name := "uploads";
                    object_key := "incoming/v%40y.org_new.json" |}] |}.

Definition job_args : Args :=
  {| input_path := "s3://uploads/incoming/u@x.org_data.json";
     output_path := "s3://processed-json-files/another-sample.csv/";
     reference_ID := "REF123456";
     email := "u@x.org" |}.

(** A run in which Spark cannot read the input. *)
Definition world_read_fails : World :=
  {| utcnow_isoformat := "2024-12-01T09:00:00";
     now_strftime := "20241201_090000";
     spark_read_json := fun _ => Raise (IOError "Path does not exist");
     spark_save_csv := fun _ _ => Ok tt;
     dynamo_fault := None |}.

(** A run in which everything works, on [{"a": [{"x": 1}, {"x": 2}]}]. *)
Definition world_ok : World :=
  {| utcnow_isoformat := "2024-12-01T09:00:00";
     now_strftime := "20241201_090000";
     spark_read_json := fun _ => Ok df_a_list_of_objects;
     spark_save_csv := fun _ _ => Ok tt;
     dynamo_fault := None |}.

(** The record as the trigger leaves it. *)
Definition running_db : Dynamo :=
  {| table := {[ "REF123456" :=
                 dynamo_params "REF123456" "jr_1" "2024-11-30T09:59:00"
                   "data.json" "u@x.org" ]};
     requests := 0 |}.

Definition blank_input_args : Args :=
  {| input_path := "   ";
     output_path := "s3://processed-json-files/another-sample.csv/";
     reference_ID := "REF123456";
     email := "u@x.org" |}.

(** ** Invariants of one pass

    The bound on the depth of the columns that the loop of
    [read_nested_json] keeps. *)

Definition depth_le (D : nat) (sch : Schema) : Prop :=
  Forall (fun f => type_depth (snd f) <= D) sch.

(** What the loop of [read_nested_json] maintains about a plain column name
    it has put in [column_list]: the field found under that name is at most
    [B] deep. *)
Definition col_ok (B : nat) (sch : Schema) (c : ColumnExpr) : Prop :=
  match c with
  | ColName n => exists t, schema_lookup sch n = Ok t /\ type_depth t <= B
  | ColAlias _ _ _ => True
  end.

(** ** One pass, read column by column

    The result of [read_nested_json] on a well-formed batch, written by
    recursion on the schema: the schema it produces ([flat_field]), the rows
    one input row explodes into ([explode_row], the first array column
    varying slowest) and the cells each exploded row is projected to
    ([project_row]). *)

Definition explode_field (f : StructField) : StructField :=
  match f with
  | (n, ArrayType e) => (n, e)
  | _ => f
  end.

Definition flat_field (f : StructField) : Schema :=
  match f with
  | (n, ArrayType e) => [(n, e)]
  | (n, StructType fs) => map (fun c => (n ++ "_" ++ fst c, snd c)) fs
  | _ => [f]
  end.

Definition cols_of (f : StructField) : list ColumnExpr :=
  match f with
  | (n, StructType fs) =>
      map (fun c => ColAlias n (fst c) (n ++ "_" ++ fst c)) fs
  | (n, _) => [ColName n]
  end.

Fixpoint explode_row (sch : Schema) (r : Row) : list Row :=
  match sch, r with
  | (_, t) :: sch', v :: r' =>
      if is_array t
      then flat_map (fun e => map (cons e) (explode_row sch' r')) (elements v)
      else map (cons v) (explode_row sch' r')
  | _, _ => [[]]
  end.

Definition struct_field (v : Value) (j : nat) : Value :=
  match v with
  | VStruct vs => default VNull (vs !! j)
  | _ => VNull
  end.

Fixpoint project_row (sch : Schema) (r : Row) : Row :=
  match sch, r with
  | (_, StructType fs) :: sch', v :: r' =>
      map (struct_field v) (seq 0 (length fs)) ++ project_row sch' r'
  | _ :: sch', v :: r' => v :: project_row sch' r'
  | _, _ => []
  end.

Definition flat_rows (sch : Schema) (r : Row) : list Row :=
  map (project_row sch) (explode_row sch r).

(** Well-formed batches: the column names are plain and pairwise distinct
    without regard to the case of letters, so are the field names of every
    struct column, and every row has one cell per column. *)
Fixpoint distinct (ns : list string) : bool :=
  match ns with
  | [] => true
  | n :: rest => negb (existsb (String.eqb n) rest) && distinct rest
  end.

(** A name that Spark reads as it is written, alone and as a part of the
    path [parent.child]: not empty, made of ASCII characters other than the
    dot and the backtick, and not the star of [select("*")]. *)
Definition plain_char (c : ascii) : bool :=
  Nat.ltb (nat_of_ascii c) 128 && negb (Ascii.eqb c ".")
  && negb (Ascii.eqb c "`").

Definition plain_name (n : string) : bool :=
  forallb plain_char (list_ascii_of_string n)
  && negb (String.eqb n "") && negb (String.eqb n "*").

(** Names each of which refers to one column. *)
Definition unambiguous (ns : list string) : bool :=
  forallb plain_name ns && distinct (map fold_case ns).

Definition field_ok (f : StructField) : bool :=
  match snd f with
  | StructType fs => unambiguous (names fs)
  | _ => true
  end.

Definition well_formed (df : DataFrame) : bool :=
  unambiguous (names (schema df)) && forallb field_ok (schema df) &&
  forallb (fun r => Nat.eqb (length r) (length (schema df))) (rows df).

(** The columns [select] resolves [cols_of] to, for the columns from
    position [k] on. *)
Fixpoint field_outs (n : string) (k j : nat) (fs : Schema)
  : list (StructField * Extract) :=
  match fs with
  | [] => []
  | (c, t) :: fs' => ((n ++ "_" ++ c, t), FieldOf k j) :: field_outs n k (S j) fs'
  end.

Fixpoint outs_of (k : nat) (sch : Schema) : list (StructField * Extract) :=
  match sch with
  | [] => []
  | (n, StructType fs) :: sch' => field_outs n k 0 fs ++ outs_of (S k) sch'
  | (n, ArrayType e) :: sch' => ((n, e), Cell k) :: outs_of (S k) sch'
  | (n, t) :: sch' => ((n, t), Cell k) :: outs_of (S k) sch'
  end.

(** The rows one input row has become once the loop has handled the columns
    before position [k]: the first [k] cells are settled, the columns of
    [post] are still to be exploded. *)
Definition explode_from (k : nat) (post : Schema) (r : Row) : list Row :=
  map (app (take k r)) (explode_row post (drop k r)).

(** Names the analyzer resolves each to its own column: each is one part,
    and no two are the same without regard to case. *)
Definition names_ok (ns : list string) : Prop :=
  Forall (fun n => simple n = true) ns /\ NoDup (map fold_case ns).

(** The cell of [r] at column [k] holds no element: an empty array or
    null. *)
Definition empty_at (k : nat) (r : Row) : Prop := elements (cell r k) = [].


(** ** Counting the rows of one pass

    The number of rows one input row becomes: the product of the lengths of
    the arrays in its array columns. *)
Fixpoint fanout (sch : Schema) (r : Row) : nat :=
  match sch, r with
  | (_, t) :: sch', v :: r' =>
      (if is_array t then length (elements v) else 1) * fanout sch' r'
  | _, _ => 1
  end.

(** [collision_free k df]: [df] is well-formed, and so is what each of the
    next [k] passes returns: no pass along the way gives two columns
    underscore-joined names that Spark cannot tell apart. *)
Fixpoint collision_free (k : nat) (df : DataFrame) : bool :=
  well_formed df &&
  match k with
  | O => true
  | S k' =>
      match read_nested_json df with
      | Ok df' => collision_free k' df'
      | Raise _ => false
      end
  end.

(** The number of columns named [n], as written. *)
Definition occurrences (n : string) (sch : Schema) : nat :=
  length (positions n (names sch) 0).

(** ** Shapes of strings *)

(** [c not in s] *)
Definition lacks (c : ascii) (s : string) : bool :=
  forallb (fun x => negb (Ascii.eqb x c)) (list_ascii_of_string s).

(** [s[-1]], when there is one *)
Fixpoint last_char (s : string) : option ascii :=
  match s with
  | EmptyString => None
  | String c s' =>
      match s' with
      | EmptyString => Some c
      | String _ _ => last_char s'
      end
  end.

(** ["//" not in s] *)
Fixpoint no_double_slash (s : string) : bool :=
  match s with
  | String c s' => negb (String.prefix "//" s) && no_double_slash s'
  | EmptyString => true
  end.

(** A bucket-and-key path that the cleaning of [update_dynamodb_status]
    leaves alone: it does not start with one of the characters [s], [3],
    [:], [/], holds no [//] and does not end with [/]. *)
Definition plain_key (s : string) : bool :=
  match s with
  | String c _ => negb (in_chars "s3:/" c)
  | EmptyString => true
  end
  && no_double_slash s
  && match last_char s with
     | Some c => negb (Ascii.eqb c "/")
     | None => true
     end.

(** ** JSONtoCSV.py: the arguments of the job

    [getResolvedOptions(sys.argv, ['input_path', 'output_path',
    'reference_ID', 'email'])] on the arguments Glue starts the job with:
    the value passed as [--name] for each of the four names.  [None]: one of
    them is missing, the call fails and [main] goes no further. *)
Definition option_value (arguments : list (string * string)) (name : string)
  : option string :=
  option_map snd (find (fun kv => String.eqb (fst kv) ("--" ++ name)) arguments).

Definition getResolvedOptions (arguments : list (string * string)) : option Args :=
  match option_value arguments "input_path",
        option_value arguments "output_path",
        option_value arguments "reference_ID",
        option_value arguments "email" with
  | Some i, Some o, Some r, Some e =>
      Some {| input_path := i; output_path := o; reference_ID := r; email := e |}
  | _, _, _, _ => None
  end.

(** ** EmailSender.py

    The handler that mails the download link when the output file appears
    in S3.  What it meets outside the program: the URL S3 signs (or the
    error of the request) and the fate of the SMTP session. *)

(** [str(e)]: the message of the exception; for a [KeyError], the key
    between quotes. *)
Definition str_of_exn (e : Exn) : string :=
  match e with
  | KeyError k => "'" ++ k ++ "'"
  | AnalysisException m | IndexError m | ValueError m
  | NoCredentialsError m | PartialCredentialsError m
  | ClientError m | IOError m => m
  end.

Definition newline : string := String (ascii_of_nat 10) EmptyString.

(** The message handed to [server.sendmail]: the recipient, the subject and
    the plain-text body (the sender is the address configured in
    [send_email]). *)
Record Mail : Type := mkMail {
  To : string;
  Subject : string;
  text : string
}.

(** The session inside [with smtplib.SMTP(...) as server]: connecting,
    [starttls], [login] or [sendmail] raises and nothing is sent; or the
    message is handed over; or it is handed over and closing the session
    raises afterwards. *)
Inductive Smtp : Type :=
| Refused (e : Exn)
| Delivered
| DeliveredThenRaised (e : Exn).

Record MailWorld : Type := mkMailWorld {
  presigned_url : string -> string -> Result string;
    (* s3.generate_presigned_url('get_object',
         Params={'Bucket': b, 'Key': k}, ExpiresIn=3600) *)
  smtp : Smtp
}.

Module EmailSender.

(** [generate_presigned_url]: an error is printed and raised again. *)
Definition generate_presigned_url (w : MailWorld) (bucket_name object_key : string)
  : Result string :=
  match presigned_url w bucket_name object_key with
  | Ok url => Ok url
  | Raise e => Raise e
  end.

(** [send_email]: an error is printed and raised again.  [outbox] holds the
    messages handed to the server so far. *)
Definition send_email (w : MailWorld) (recipient_email file_url : string)
    (outbox : list Mail) : list Mail * Result unit :=
  let subject := "Your Processed File is Ready" in
  let body :=
    "Your processed file is available for download at the following link:"
      ++ newline ++ newline ++ file_url in
  let msg := {| To := recipient_email; Subject := subject; text := body |} in
  match smtp w with
  | Refused e => (outbox, Raise e)
  | Delivered => ((outbox ++ [msg])%list, Ok tt)
  | DeliveredThenRaised e => ((outbox ++ [msg])%list, Raise e)
  end.

Definition failed (e : Exn) : Response :=
  {| statusCode := 500; body := Text ("Error: " ++ str_of_exn e) |}.

Definition lambda_handler (w : MailWorld) (event : Event) (outbox : list Mail)
  : list Mail * Response :=
  match Records event with
  | [] => (outbox, failed (IndexError "list index out of range"))
  | rec :: _ =>
      let bucket_name := bucket_name rec in
      let object_key := unquote_plus (object_key rec) in
      match generate_presigned_url w bucket_name object_key with
      | Raise e => (outbox, failed e)
      | Ok file_url =>
          (* email = object_key.split('/')[1] *)
          match split "/" object_key !! 1 with
          | None => (outbox, failed (IndexError "list index out of range"))
          | Some email =>
              match send_email w email file_url outbox with
              | (outbox', Ok _) =>
                  (outbox', {| statusCode := 200;
                               body := Text "Email sent successfully." |})
              | (outbox', Raise e) => (outbox', failed e)
              end
          end
      end
  end.

End EmailSender.

(** ** The two HTTP handlers

    [NamedEntityRecognition.lambda_handler] and
    [GCPWordFrequency.store_file] catch every exception with
    [except Exception as e] and use [str(e)] only: there an exception is
    represented by that text. *)
Inductive Outcome (A : Type) : Type :=
| Done (a : A)
| Raised (message : string).
Arguments Done {A} a.
Arguments Raised {A} message.

(** [event[k]]: the key is missing ([KeyError]), holds [null], or holds a
    value. *)
Inductive Field (A : Type) : Type :=
| Absent
| Null
| Given (a : A).
Arguments Absent {A}.
Arguments Null {A}.
Arguments Given {A} a.

(** ** NamedEntityRecognition.py *)

Module NamedEntityRecognition.

Record Event : Type := mkEvent {
  headers : Field (gmap string string);   (* event['headers'] *)
  body : Field string;                    (* event['body'] *)
  isBase64Encoded : bool                  (* truth of event.get("isBase64Encoded") *)
}.

(** What is passed as [fp] to [cgi.FieldStorage]. *)
Inductive Fp : Type :=
| FpNone
| FpStr (s : string)
| FpBytes (s : string).

(** The values of [form_data.getvalue] for [email], [file_name] and
    [file_content]; [None] when the field is not in the form. *)
Record Form : Type := mkForm {
  form_email : option string;
  form_file_name : option string;
  form_file_content : option string
}.

Record World : Type := mkWorld {
  random_digits : string;        (* ''.join(random.choices(string.digits, k=6)) *)
  job_start_time : string;       (* datetime.utcnow().strftime(...), first call *)
  job_end_time : string;         (* the same, second call *)
  stdin_form : string -> Outcome Form;
    (* what FieldStorage parses off sys.stdin when fp is None *)
  b64decode_utf8 : string -> Outcome string;
    (* base64.b64decode(s).decode('utf-8') *)
  nlp : string -> Outcome (list (string * string));
    (* [(ent.text, ent.label_) for ent in nlp(text).ents] *)
  put_fault : option Exn
}.

Inductive Body : Type :=
| Success (entities : list (string * string))
| Error (message : string).

Record Response : Type := mkResponse { statusCode : nat; response_body : Body }.

Definition generate_reference_id (w : World) : string :=
  "REF" ++ random_digits w.

(** [event['headers'].get('Content-Type') or
     event['headers'].get('content-type')] *)
Definition content_type (h : gmap string string) : option string :=
  match h !! "Content-Type" with
  | Some (String c s) => Some (String c s)
  | _ => h !! "content-type"
  end.

(** [event['body'].encode('utf-8') if event.get("isBase64Encoded")
     else event['body']] *)
Definition fp_of (event : Event) : Outcome Fp :=
  if isBase64Encoded event
  then match body event with
       | Absent => Raised "'body'"
       | Null => Raised "'NoneType' object has no attribute 'encode'"
       | Given s => Done (FpBytes s)
       end
  else match body event with
       | Absent => Raised "'body'"
       | Null => Done FpNone
       | Given s => Done (FpStr s)
       end.

(** [cgi.FieldStorage(fp=..., environ={'REQUEST_METHOD': 'POST',
    'CONTENT_TYPE': content_type})]: the constructor takes a file object;
    it raises [TypeError] for an [fp] that has no [read] and [readline],
    which a [str] and a [bytes] both lack, and reads the standard input
    when [fp] is [None]. *)
Definition FieldStorage (w : World) (fp : Fp) (content_type : string)
  : Outcome Form :=
  match fp with
  | FpNone => stdin_form w content_type
  | FpStr _ | FpBytes _ => Raised "fp must be file pointer"
  end.

Definition given (v : option string) : bool :=
  match v with
  | Some (String _ _) => true
  | _ => false
  end.

Definition dynamo_item (reference_id email file_name job_start_time
    job_end_time : string) : gmap string string :=
  <["reference_id" := reference_id]>
  (<["email" := email]>
  (<["file_name" := file_name]>
  (<["job_start_time" := job_start_time]>
  (<["job_end_time" := job_end_time]>
  (<["job_status" := "SUCCESS"]>
  (<["job_type" := "NER"]> ∅)))))).

(** The [try] block: the table afterwards and the entities, or the text of
    the exception that left it. *)
Definition process (w : World) (event : Event) (db : Dynamo)
  : Dynamo * Outcome (list (string * string)) :=
  match headers event with
  | Absent => (db, Raised "'headers'")
  | Null => (db, Raised "'NoneType' object has no attribute 'get'")
  | Given h =>
      match content_type h with
      | None => (db, Raised "'NoneType' object has no attribute 'startswith'")
      | Some ct =>
          if negb (String.prefix "multipart/form-data" ct)
          then (db, Raised "Invalid content type: Expected multipart/form-data")
          else
            match fp_of event with
            | Raised m => (db, Raised m)
            | Done fp =>
                match FieldStorage w fp ct with
                | Raised m => (db, Raised m)
                | Done form =>
                    match form_email form, form_file_name form,
                          form_file_content form with
                    | Some email, Some file_name, Some file_content_base64 =>
                        if given (Some email) && given (Some file_name)
                           && given (Some file_content_base64)
                        then
                          match b64decode_utf8 w file_content_base64 with
                          | Raised m => (db, Raised m)
                          | Done file_content =>
                              let reference_id := generate_reference_id w in
                              match nlp w file_content with
                              | Raised m => (db, Raised m)
                              | Done entities =>
                                  match put_item (put_fault w) reference_id
                                          (dynamo_item reference_id email
                                             file_name (job_start_time w)
                                             (job_end_time w)) db with
                                  | (db', Ok _) => (db', Done entities)
                                  | (db', Raise e) => (db', Raised (str_of_exn e))
                                  end
                              end
                          end
                        else (db, Raised "Missing required form fields: 'email', 'file_name', or 'file_content'")
                    | _, _, _ =>
                        (db, Raised "Missing required form fields: 'email', 'file_name', or 'file_content'")
                    end
                end
            end
      end
  end.

Definition lambda_handler (w : World) (event : Event) (db : Dynamo)
  : Dynamo * Response :=
  match process w event db with
  | (db', Done entities) =>
      (db', {| statusCode := 200; response_body := Success entities |})
  | (db', Raised message) =>
      (db', {| statusCode := 500; response_body := Error message |})
  end.

End NamedEntityRecognition.

(** ** GCPWordFrequency.py

    Text is taken byte by byte; [\w] and [lower] are those of ASCII text,
    to which the statements below are restricted. *)

Module GCPWordFrequency.

(** The text is ASCII: every byte is below 128. *)
Definition ascii_text (s : string) : bool :=
  forallb (fun c => Nat.ltb (nat_of_ascii c) 128) (list_ascii_of_string s).

(** [\w]: a letter, a digit or the underscore. *)
Definition is_word (c : ascii) : bool :=
  let n := nat_of_ascii c in
  (Nat.leb 48 n && Nat.leb n 57) || (Nat.leb 65 n && Nat.leb n 90)
  || (Nat.leb 97 n && Nat.leb n 122) || Nat.eqb n 95.

Definition is_upper (c : ascii) : bool :=
  let n := nat_of_ascii c in Nat.leb 65 n && Nat.leb n 90.

Definition lower_char (c : ascii) : ascii :=
  if is_upper c then ascii_of_nat (nat_of_ascii c + 32) else c.

(** [s.lower()] *)
Fixpoint lower (s : string) : string :=
  match s with
  | String c s' => String (lower_char c) (lower s')
  | EmptyString => EmptyString
  end.

Definition starts_word (s : string) : bool :=
  match s with
  | String c _ => is_word c
  | EmptyString => false
  end.

(** [re.findall(r'\b\w+\b', s)]: the maximal runs of word characters, from
    left to right. *)
Fixpoint findall_words (s : string) : list string :=
  match s with
  | String c s' =>
      if is_word c
      then if starts_word s'
           then match findall_words s' with
                | w :: ws => String c w :: ws
                | [] => [String c EmptyString]
                end
           else String c EmptyString :: findall_words s'
      else findall_words s'
  | EmptyString => []
  end.

(** [collections.Counter(words)]: the words with their counts, in the order
    in which each word first occurs. *)
Fixpoint count (word : string) (counts : list (string * nat))
  : list (string * nat) :=
  match counts with
  | [] => [(word, 1)]
  | (w, n) :: rest =>
      if String.eqb w word then (w, S n) :: rest else (w, n) :: count word rest
  end.

Definition Counter (words : list string) : list (string * nat) :=
  fold_left (fun counts word => count word counts) words [].

(** The values put into one [INSERT INTO {table_id} (document_id, word,
    frequency, file_name, email) VALUES (...)] statement. *)
Record Insert : Type := mkInsert {
  table_id : string;
  document_id : string;
  word : string;
  frequency : nat;
  file_name : string;
  email : string
}.

(** Firestore (the collection [file_metadata]), the bucket
    [dp3--txt-file-storage] and the statements BigQuery has run, oldest
    first. *)
Record Cloud : Type := mkCloud {
  documents : gmap string (gmap string string);
  blobs : gmap string string;
  statements : list Insert
}.

Record World : Type := mkWorld {
  uuid4_hex : string;                  (* uuid.uuid4().hex *)
  project : string;                    (* bigquery_client.project *)
  set_fault : option string;           (* doc_ref.set raises *)
  upload_fault : option string;        (* blob.upload_from_string raises *)
  query_fault : nat -> option string;  (* the statement number k raises *)
  update_fault : option string;        (* doc_ref.update, at the end of try *)
  failed_update_fault : option string; (* doc_ref.update, in the except block *)
  not_found : string                   (* the text of Firestore's NotFound *)
}.

Record Request : Type := mkRequest {
  method : string;
  get_json : Outcome (option (gmap string string))
    (* request.get_json(): a JSON object with string values, None, or raises *)
}.

Inductive Data : Type :=
| Empty
| ErrorData (error : string)
| Processed (message recordId fileUrl : string).

Record Response : Type := mkResponse {
  status_code : nat;
  response_headers : list (string * string);
  data : Data
}.

Definition bucket_name : string := "dp3--txt-file-storage".
Definition dataset_name : string := "process_3".
Definition table_name : string := "data_3".
Definition SERVER_TIMESTAMP : string := "SERVER_TIMESTAMP".

(** [doc_ref.set(fields)]: the document is written, whatever was there. *)
Definition doc_set (fault : option string) (id : string)
    (fields : gmap string string) (c : Cloud) : Cloud * Outcome unit :=
  match fault with
  | Some m => (c, Raised m)
  | None => ({| documents := <[id := fields]> (documents c);
                blobs := blobs c; statements := statements c |}, Done tt)
  end.

(** [doc_ref.update(fields)]: the fields are set on the document, which must
    exist: Firestore answers [NotFound] otherwise. *)
Definition doc_update (w : World) (fault : option string) (id : string)
    (fields : list (string * string)) (c : Cloud) : Cloud * Outcome unit :=
  match fault with
  | Some m => (c, Raised m)
  | None =>
      match documents c !! id with
      | None => (c, Raised (not_found w))
      | Some doc =>
          ({| documents :=
                <[id := fold_left (fun d kv => <[fst kv := snd kv]> d) fields doc]>
                  (documents c);
              blobs := blobs c; statements := statements c |}, Done tt)
      end
  end.

(** [blob.upload_from_string(file_content, content_type="text/plain")] *)
Definition upload (fault : option string) (name content : string) (c : Cloud)
  : Cloud * Outcome unit :=
  match fault with
  | Some m => (c, Raised m)
  | None => ({| documents := documents c;
                blobs := <[name := content]> (blobs c);
                statements := statements c |}, Done tt)
  end.

(** The loop [for row in rows_to_insert]: one statement per row, each waited
    for; the first one that raises ends the loop.  [k] numbers the
    statements. *)
Fixpoint insert_rows (w : World) (k : nat) (rows_to_insert : list Insert)
    (c : Cloud) : Cloud * Outcome unit :=
  match rows_to_insert with
  | [] => (c, Done tt)
  | row :: rest =>
      match query_fault w k with
      | Some m => (c, Raised m)
      | None =>
          insert_rows w (S k) rest
            {| documents := documents c; blobs := blobs c;
               statements := (statements c ++ [row])%list |}
      end
  end.

Definition rows_to_insert (w : World) (unique_id file_name email file_content : string)
  : list Insert :=
  map (fun wc => {| table_id := project w ++ "." ++ dataset_name ++ "." ++ table_name;
                    document_id := unique_id; word := fst wc;
                    frequency := snd wc; file_name := file_name;
                    email := email |})
      (Counter (findall_words (lower file_content))).

(** The [try] block from [doc_ref.set] on. *)
Definition process (w : World) (file_name email file_content reference_id : string)
    (c : Cloud) : Cloud * Outcome unit :=
  let unique_id := uuid4_hex w in
  let temp_id := unique_id ++ file_name in
  match doc_set (set_fault w) unique_id
          (<["id" := unique_id]>
           (<["fileName" := file_name]>
           (<["email" := email]>
           (<["uploadedAt" := SERVER_TIMESTAMP]>
           (<["location" := "gs://" ++ bucket_name ++ "/uploads/" ++ temp_id]>
           (<["status" := "Processing"]>
           (<["referenceId" := reference_id]> ∅))))))) c with
  | (c1, Raised m) => (c1, Raised m)
  | (c1, Done _) =>
      match upload (upload_fault w) ("uploads/" ++ temp_id) file_content c1 with
      | (c2, Raised m) => (c2, Raised m)
      | (c2, Done _) =>
          match insert_rows w 0
                  (rows_to_insert w unique_id file_name email file_content) c2 with
          | (c3, Raised m) => (c3, Raised m)
          | (c3, Done _) =>
              doc_update w (update_fault w) unique_id
                [("status", "Ready for Looker Studio");
                 ("processedAt", SERVER_TIMESTAMP)] c3
          end
      end
  end.

Definition error_response (message : string) : Response :=
  {| status_code := 500; response_headers := []; data := ErrorData message |}.

(** [store_file]: the services afterwards, and the response or the text of
    the exception that leaves the function (one raised inside the [except]
    block). *)
Definition store_file (w : World) (request : Request) (c : Cloud)
  : Cloud * Outcome Response :=
  if String.eqb (method request) "OPTIONS"
  then (c, Done {| status_code := 200;
                   response_headers :=
                     [("Access-Control-Allow-Origin", "*");
                      ("Access-Control-Allow-Methods", "POST, OPTIONS");
                      ("Access-Control-Allow-Headers", "Content-Type")];
                   data := Empty |})
  else
    match get_json request with
    | Raised m => (c, Done (error_response m))
    | Done None =>
        (c, Done (error_response "argument of type 'NoneType' is not iterable"))
    | Done (Some data) =>
        match data !! "fileName", data !! "email", data !! "fileContent" with
        | Some file_name, Some email, Some file_content =>
            match data !! "referenceId" with
            | None => (c, Done (error_response "'referenceId'"))
            | Some reference_id =>
                let unique_id := uuid4_hex w in
                let temp_id := unique_id ++ file_name in
                match process w file_name email file_content reference_id c with
                | (c', Done _) =>
                    (c', Done {| status_code := 200;
                                 response_headers :=
                                   [("Access-Control-Allow-Origin", "*")];
                                 data := Processed
                                   "File successfully processed and data inserted into BigQuery."
                                   unique_id
                                   ("gs://" ++ bucket_name ++ "/uploads/" ++ temp_id) |})
                | (c', Raised m) =>
                    (* 'doc_ref' in locals() *)
                    match doc_update w (failed_update_fault w) unique_id
                            [("status", "Failed"); ("errorMessage", m)] c' with
                    | (c'', Done _) => (c'', Done (error_response m))
                    | (c'', Raised m') => (c'', Raised m')
                    end
                end
            end
        | _, _, _ =>
            (c, Done {| status_code := 400; response_headers := [];
                        data := ErrorData "Missing required fields" |})
        end
    end.

End GCPWordFrequency.

(** Runs of [store_file] used below. *)

Definition upload_request : GCPWordFrequency.Request :=
  GCPWordFrequency.mkRequest "POST"
    (Done (Some (<["fileName" := "a.txt"]>
                 (<["email" := "u@x.org"]>
                 (<["fileContent" := "The cat; the CAT, a dog_1."]>
                 (<["referenceId" := "REF123456"]> ∅)))))).

Definition empty_cloud : GCPWordFrequency.Cloud :=
  GCPWordFrequency.mkCloud ∅ ∅ [].

(** Every service answers. *)
Definition cloud_ok : GCPWordFrequency.World :=
  GCPWordFrequency.mkWorld "ab12" "proj" None None (fun _ => None) None None
    "404 No document to update".

(** The third statement (number 2) fails. *)
Definition cloud_third_statement_fails : GCPWordFrequency.World :=
  GCPWordFrequency.mkWorld "ab12" "proj" None None
    (fun k => if Nat.eqb k 2 then Some "403 Quota exceeded" else None)
    None None "404 No document to update".

(** Firestore refuses the first write. *)
Definition cloud_set_fails : GCPWordFrequency.World :=
  GCPWordFrequency.mkWorld "ab12" "proj" (Some "503 Service unavailable") None
    (fun _ => None) None None "404 No document to update".
(** * Proofs *)

Open Scope list_scope.

(** ** The result monad *)

Lemma bind_Ok {A B} (m : Result A) (f : A -> Result B) (b : B) :
  m ≫= f = Ok b -> exists a, m = Ok a /\ f a = Ok b.
Proof. destruct m as [a|e]; simpl; [eauto | discriminate]. Qed.

Ltac inv_bind H :=
  let a := fresh "a" in
  let Ha := fresh "Hm" in
  apply bind_Ok in H; destruct H as (a & Ha & H); cbv beta in H.

(** ** Depth of a schema *)

Lemma type_depth_struct fs : type_depth (StructType fs) = S (schema_depth fs).
Proof.
  reflexivity.
Qed.

Lemma depth_unfold df : depth df = S (schema_depth (schema df)).
Proof. apply type_depth_struct. Qed.

Lemma schema_depth_le D sch : schema_depth sch <= D <-> depth_le D sch.
Proof.
  unfold depth_le. induction sch as [|[n t] sch IH]; simpl.
  - split; [constructor | lia].
  - rewrite Forall_cons. simpl. rewrite <- IH. lia.
Qed.

Lemma is_scalar_depth t : is_scalar t = true <-> type_depth t = 0.
Proof. destruct t; simpl; split; intros; try reflexivity; try discriminate. Qed.

Lemma all_scalar_depth sch : all_scalar sch = true <-> schema_depth sch = 0.
Proof.
  unfold all_scalar. induction sch as [|[n t] sch IH]; simpl; [tauto|].
  rewrite andb_true_iff, IH, is_scalar_depth. lia.
Qed.

(** ** Name resolution *)

Lemma same_name_refl n : same_name n n = true.
Proof. apply String.eqb_refl. Qed.

Lemma same_name_false m n : same_name m n = false -> String.eqb m n = false.
Proof.
  intros H. destruct (String.eqb_spec m n) as [->|]; [|reflexivity].
  now rewrite same_name_refl in H.
Qed.

Lemma matches_first n sch k i rest :
  matches n (names sch) k = i :: rest ->
  k <= i /\ exists m t, sch !! (i - k) = Some (m, t) /\ same_name m n = true.
Proof.
  revert k. induction sch as [|[m t] sch IH]; simpl; intros k H; [discriminate|].
  destruct (same_name m n) eqn:Hmn.
  - injection H as <- _. split; [lia|]. rewrite Nat.sub_diag. eauto.
  - apply IH in H as (Hle & m' & t' & Hi & Hs). split; [lia|].
    exists m', t'. split; [|exact Hs].
    replace (i - k) with (S (i - S k)) by lia. exact Hi.
Qed.

Lemma resolve_Ok ns n i :
  resolve ns n = Ok i -> simple n = true /\ matches n ns 0 = [i].
Proof.
  unfold resolve. destruct (simple n); [|discriminate].
  destruct (matches n ns 0) as [|j [|j' l]]; intros H;
    try discriminate. now injection H as ->.
Qed.

(** The field Python finds under a name is one of those the analyzer
    matches with it. *)
Lemma schema_lookup_matches sch n t : forall k,
  schema_lookup sch n = Ok t ->
  exists j, sch !! j = Some (n, t) /\ In (k + j) (matches n (names sch) k).
Proof.
  induction sch as [|[m t0] sch IH]; simpl; intros k H; [discriminate|].
  destruct (String.eqb_spec m n) as [->|Hne].
  - injection H as ->. exists 0. split; [reflexivity|].
    rewrite same_name_refl, Nat.add_0_r. now left.
  - destruct (IH (S k) H) as (j & Hj & Hin). exists (S j).
    split; [exact Hj|]. replace (k + S j) with (S k + j) by lia.
    destruct (same_name m n); [now right | exact Hin].
Qed.

Lemma resolve_lookup sch n i t :
  resolve (names sch) n = Ok i -> schema_lookup sch n = Ok t ->
  sch !! i = Some (n, t).
Proof.
  intros H Hl. apply resolve_Ok in H as [_ H].
  destruct (schema_lookup_matches _ _ _ 0 Hl) as (j & Hj & Hin).
  rewrite H in Hin. destruct Hin as [Heq|[]]. simpl in Heq. now subst i.
Qed.

Lemma resolve_lookup_any sch n i :
  resolve (names sch) n = Ok i -> exists m t, sch !! i = Some (m, t).
Proof.
  intros H. apply resolve_Ok in H as [_ H].
  apply matches_first in H as (_ & m & t & Hi & _).
  rewrite Nat.sub_0_r in Hi. eauto.
Qed.

Lemma names_insert (sch : Schema) i n t t' :
  sch !! i = Some (n, t) -> names (<[i := (n, t')]> sch) = names sch.
Proof.
  revert i. induction sch as [|f sch IH]; intros [|i] H; simpl in *;
    try discriminate.
  - now injection H as ->.
  - f_equal. now apply IH.
Qed.

(** Replacing an array column by its element type only lowers the depth of
    what is found under any name. *)
Lemma schema_lookup_insert_le (sch : Schema) i n e m t :
  sch !! i = Some (n, ArrayType e) ->
  schema_lookup sch m = Ok t ->
  exists t', schema_lookup (<[i := (n, e)]> sch) m = Ok t' /\
             type_depth t' <= type_depth t.
Proof.
  revert i. induction sch as [|[m0 t0] sch IH]; intros i Hi Hl; [discriminate|].
  destruct i as [|i]; simpl in *.
  - injection Hi as -> ->. destruct (String.eqb n m).
    + injection Hl as <-. exists e. split; [reflexivity | simpl; lia].
    + eauto.
  - destruct (String.eqb m0 m); [eauto | apply IH; assumption].
Qed.

Lemma schema_lookup_insert_first (sch : Schema) n i e :
  resolve (names sch) n = Ok i ->
  schema_lookup (<[i := (n, e)]> sch) n = Ok e.
Proof.
  intros H. apply resolve_Ok in H as [_ H].
  assert (G : forall k j rest, matches n (names sch) k = j :: rest ->
              schema_lookup (<[j - k := (n, e)]> sch) n = Ok e).
  { clear. induction sch as [|[m t] sch IH]; simpl; intros k j rest H;
      [discriminate|].
    destruct (same_name m n) eqn:Hmn.
    - injection H as <- _. rewrite Nat.sub_diag. simpl.
      now rewrite String.eqb_refl.
    - pose proof (matches_first _ _ _ _ _ H) as (Hle & _).
      replace (j - k) with (S (j - S k)) by lia. simpl.
      rewrite (same_name_false _ _ Hmn). eapply IH, H. }
  specialize (G 0 i [] H). now rewrite Nat.sub_0_r in G.
Qed.

(** [withColumn] after the type test of the loop: the column found by
    Python is the one the analyzer resolves the name to. *)
Lemma withColumn_explode_Ok df n t df' :
  schema_lookup (schema df) n = Ok t ->
  withColumn_explode df n = Ok df' ->
  exists i e, resolve (names (schema df)) n = Ok i /\
              schema df !! i = Some (n, ArrayType e) /\
              df' = {| schema := <[i := (n, e)]> (schema df);
                       rows := flat_map (explode_row_at i) (rows df) |}.
Proof.
  unfold withColumn_explode. intros Hl H. inv_bind H.
  pose proof (resolve_lookup _ _ _ _ Hm Hl) as Hi.
  rewrite Hi in H. destruct t; try discriminate.
  injection H as <-. eauto 6.
Qed.

(** ** One pass lowers the depth of the schema *)

Lemma depth_le_insert D (sch : Schema) i n e :
  depth_le D sch -> sch !! i = Some (n, ArrayType e) ->
  depth_le D (<[i := (n, e)]> sch).
Proof.
  unfold depth_le. intros HD Hi. apply Forall_insert; [assumption|].
  rewrite Forall_forall in HD. apply list_elem_of_lookup_2 in Hi.
  apply HD in Hi. simpl in *. lia.
Qed.

Lemma depth_le_at D (sch : Schema) i n t :
  depth_le D sch -> sch !! i = Some (n, t) -> type_depth t <= D.
Proof.
  unfold depth_le. intros HD Hi. rewrite Forall_forall in HD.
  apply list_elem_of_lookup_2 in Hi. exact (HD _ Hi).
Qed.

Lemma depth_le_lookup D sch n t :
  depth_le D sch -> schema_lookup sch n = Ok t -> type_depth t <= D.
Proof.
  unfold depth_le. induction sch as [|[m t0] sch IH]; simpl; intros HD H;
    [discriminate|].
  apply Forall_cons in HD as [H0 HD].
  destruct (String.eqb m n); [injection H as <-; exact H0 | eauto].
Qed.

Lemma read_nested_json_loop_depth D ns : forall df cl df' cl',
  read_nested_json_loop ns df cl = Ok (df', cl') ->
  depth_le D (schema df) ->
  Forall (col_ok (pred D) (schema df)) cl ->
  depth_le D (schema df') /\ Forall (col_ok (pred D) (schema df')) cl'.
Proof.
  induction ns as [|n ns IH]; simpl; intros df cl df' cl' H HD Hcl.
  - injection H as <- <-. auto.
  - inv_bind H. rename a into t.
    assert (Ht : type_depth t <= D) by eauto using depth_le_lookup.
    destruct t;
      try (eapply IH; [exact H | exact HD |];
           apply Forall_app; split; [exact Hcl|];
           repeat constructor; eexists; split; [exact Hm | simpl; lia]).
    + inv_bind H. rename a into df1.
      apply (withColumn_explode_Ok _ _ _ _ Hm) in Hm0 as (i & e & Hr & Hi & ->).
      eapply IH; [exact H | apply depth_le_insert; assumption |].
      simpl. apply Forall_app; split.
      * eapply Forall_impl; [exact Hcl|]. intros [m|p f a] Hc; simpl; [|exact I].
        destruct Hc as (t0 & Hl & Hle).
        destruct (schema_lookup_insert_le _ _ _ _ _ _ Hi Hl) as (t' & Hl' & Hle').
        exists t'. split; [exact Hl' | lia].
      * repeat constructor. exists e.
        split; [apply schema_lookup_insert_first; exact Hr|].
        pose proof (resolve_lookup _ _ _ _ Hr Hm) as Hi'. rewrite Hi in Hi'.
        injection Hi' as ->. simpl in Ht. lia.
    + eapply IH; [exact H | exact HD |].
      apply Forall_app; split; [exact Hcl|].
      apply Forall_forall. intros c Hc. apply list_elem_of_In, in_map_iff in Hc as (f & <- & _).
      exact I.
Qed.

Lemma resolve_columns_depth D sch : forall cs outs,
  resolve_columns sch cs = Ok outs ->
  depth_le D sch ->
  Forall (col_ok (pred D) sch) cs ->
  depth_le (pred D) (map fst outs).
Proof.
  unfold depth_le.
  induction cs as [|c cs IH]; simpl; intros outs H HD Hcs.
  - injection H as <-. constructor.
  - inv_bind H. rename a into o. inv_bind H. rename a into os.
    injection H as <-. apply Forall_cons in Hcs as [Hc Hcs]. simpl.
    constructor; [|eauto].
    destruct c as [n|p f a]; simpl in Hm.
    + inv_bind Hm. rename a into i.
      destruct Hc as (t' & Hl' & Hle).
      rewrite (resolve_lookup _ _ _ _ Hm1 Hl') in Hm. now injection Hm as <-.
    + inv_bind Hm. rename a0 into i.
      destruct (resolve_lookup_any _ _ _ Hm1) as (m & t & Hi).
      rewrite Hi in Hm. destruct t as [| | | | |fs]; try discriminate.
      inv_bind Hm. rename a0 into j.
      destruct (resolve_lookup_any _ _ _ Hm2) as (fm & ft & Hj).
      rewrite Hj in Hm. injection Hm as <-. simpl.
      pose proof (depth_le_at _ _ _ _ _ HD Hi) as Hs.
      rewrite type_depth_struct in Hs.
      assert (type_depth ft <= schema_depth fs).
      { eapply depth_le_at; [|exact Hj]. now apply schema_depth_le. }
      lia.
Qed.

Lemma read_nested_json_depth df df' :
  read_nested_json df = Ok df' ->
  schema_depth (schema df') <= pred (schema_depth (schema df)).
Proof.
  unfold read_nested_json. intros H. inv_bind H. destruct a as [df1 cl].
  unfold select in H. inv_bind H. rename a into outs. injection H as <-. simpl.
  apply schema_depth_le.
  assert (HD : depth_le (schema_depth (schema df)) (schema df))
    by now apply schema_depth_le.
  destruct (read_nested_json_loop_depth _ _ _ _ _ _ Hm HD) as [HD1 Hcl];
    [constructor|].
  eapply resolve_columns_depth; eassumption.
Qed.

(** ** The schema inspection of [flatten] *)

Lemma schema_lookup_in sch n t :
  schema_lookup sch n = Ok t -> In (n, t) sch.
Proof.
  induction sch as [|[m t0] sch IH]; simpl; [discriminate|].
  destruct (String.eqb_spec m n) as [->|_]; intros H.
  - injection H as ->. now left.
  - right. auto.
Qed.

Lemma schema_lookup_NoDup sch n t :
  NoDup (names sch) -> In (n, t) sch -> schema_lookup sch n = Ok t.
Proof.
  induction sch as [|[m t0] sch IH]; simpl; intros Hnd Hin; [contradiction|].
  apply NoDup_cons in Hnd as [Hm Hnd].
  destruct Hin as [Heq|Hin].
  - injection Heq as -> ->. now rewrite String.eqb_refl.
  - destruct (String.eqb_spec m n) as [->|_]; [|auto].
    exfalso. apply Hm, list_elem_of_In, in_map_iff. exists (n, t). auto.
Qed.

Lemma all_scalar_in sch n t :
  all_scalar sch = true -> In (n, t) sch -> is_scalar t = true.
Proof.
  unfold all_scalar. rewrite forallb_forall. intros H Hin. exact (H _ Hin).
Qed.

Lemma is_scalar_cases t :
  is_scalar t = true <-> is_array t = false /\ is_struct t = false.
Proof. destruct t; simpl; intuition discriminate. Qed.

(** On an all-scalar schema the inspection never asks for another pass. *)
Lemma inspect_schema_all_scalar sch ns :
  all_scalar sch = true -> inspect_schema sch ns false <> Ok true.
Proof.
  intros Hs. induction ns as [|n ns IH]; simpl; [discriminate|].
  destruct (schema_lookup sch n) as [t|e] eqn:Hl; simpl; [|discriminate].
  apply schema_lookup_in in Hl. apply (all_scalar_in _ _ _ Hs) in Hl.
  apply is_scalar_cases in Hl as [-> ->]. exact IH.
Qed.

(** When the inspection leaves the flag unset, the field found under every
    inspected name is a scalar. *)
Lemma inspect_schema_false sch ns : forall b,
  inspect_schema sch ns b = Ok false ->
  b = false /\
  forall n, In n ns -> exists t, schema_lookup sch n = Ok t /\ is_scalar t = true.
Proof.
  induction ns as [|n ns IH]; simpl; intros b H.
  - injection H as ->. split; [reflexivity | contradiction].
  - inv_bind H. rename a into t.
    destruct (is_array t) eqn:Ha; [apply IH in H as [? _]; discriminate|].
    destruct (is_struct t) eqn:Hst; [apply IH in H as [? _]; discriminate|].
    apply IH in H as [-> Hall]. split; [reflexivity|].
    intros m [<-|Hin]; [|auto].
    exists t. split; [assumption|]. now apply is_scalar_cases.
Qed.

Lemma inspect_schema_false_NoDup sch :
  inspect_schema sch (names sch) false = Ok false ->
  NoDup (names sch) ->
  all_scalar sch = true.
Proof.
  intros H Hnd. apply inspect_schema_false in H as [_ H].
  unfold all_scalar. apply forallb_forall. intros [n t] Hin. simpl.
  destruct (H n) as (t' & Hl & Hs).
  { apply in_map_iff. exists (n, t). auto. }
  rewrite (schema_lookup_NoDup _ _ _ Hnd Hin) in Hl. now injection Hl as <-.
Qed.

(** ** The loop of [flatten] *)

Lemma flatten_loop_terminates d : forall fuel df p,
  schema_depth (schema df) <= d ->
  Nat.max 1 d <= fuel ->
  exists n res, flatten_loop fuel df p = Some (n, res) /\
                p < n /\ n <= p + Nat.max 1 d.
Proof.
  induction d as [|d IH]; intros fuel df p Hd Hfuel;
    (destruct fuel as [|fuel]; [simpl in Hfuel; lia|]); simpl;
    destruct (read_nested_json df) as [df'|e] eqn:Hr;
    try (eexists _, _; split; [reflexivity | lia]);
    pose proof (read_nested_json_depth _ _ Hr) as Hd';
    destruct (inspect_schema (schema df') (names (schema df')) false)
      as [[|]|e] eqn:Hi;
    try (eexists _, _; split; [reflexivity | lia]).
  - exfalso. eapply inspect_schema_all_scalar; [|exact Hi].
    apply all_scalar_depth. lia.
  - assert (Hpos : schema_depth (schema df') <> 0).
    { intros H0. eapply inspect_schema_all_scalar; [|exact Hi].
      now apply all_scalar_depth. }
    destruct (IH fuel df' (S p)) as (n & res & Hf & Hlt & Hle); [lia | lia |].
    exists n, res. split; [exact Hf | lia].
Qed.

Lemma flatten_loop_returned fuel : forall df p n df',
  flatten_loop fuel df p = Some (n, Ok df') ->
  inspect_schema (schema df') (names (schema df')) false = Ok false.
Proof.
  induction fuel as [|fuel IH]; simpl; intros df p n df' H; [discriminate|].
  destruct (read_nested_json df) as [df1|e]; [|discriminate].
  destruct (inspect_schema (schema df1) (names (schema df1)) false)
    as [[|]|e] eqn:Hi; try discriminate.
  - eauto.
  - now injection H as _ <-.
Qed.

(** ** Well-formed batches *)

Lemma distinct_NoDup ns : distinct ns = true <-> NoDup ns.
Proof.
  induction ns as [|n ns IH]; simpl.
  - split; [constructor | reflexivity].
  - rewrite andb_true_iff, negb_true_iff, IH, NoDup_cons.
    assert (existsb (String.eqb n) ns = false <-> n ∉ ns); [|tauto].
    rewrite <- not_true_iff_false, existsb_exists, list_elem_of_In.
    split; intros H Hin; apply H.
    + exists n. split; [assumption | apply String.eqb_refl].
    + destruct Hin as (m & Hin & Heq). apply String.eqb_eq in Heq. now subst.
Qed.

Lemma positions_app n a b i :
  positions n (a ++ b) i = positions n a i ++ positions n b (i + length a).
Proof.
  revert i. induction a as [|m a IH]; simpl; intros i.
  - now rewrite Nat.add_0_r.
  - rewrite IH. replace (S i + length a) with (i + S (length a)) by lia.
    now destruct (String.eqb m n).
Qed.

Lemma matches_app n a b i :
  matches n (a ++ b) i = matches n a i ++ matches n b (i + length a).
Proof.
  revert i. induction a as [|m a IH]; simpl; intros i.
  - now rewrite Nat.add_0_r.
  - rewrite IH. replace (S i + length a) with (i + S (length a)) by lia.
    now destruct (same_name m n).
Qed.

Lemma matches_notin n a i :
  fold_case n ∉ map fold_case a -> matches n a i = [].
Proof.
  revert i. induction a as [|m a IH]; simpl; intros i H; [reflexivity|].
  apply not_elem_of_cons in H as [Hne Hn]. unfold same_name.
  destruct (String.eqb_spec (fold_case m) (fold_case n)); [congruence | auto].
Qed.

(** Every exact occurrence of a name is a match of the analyzer. *)
Lemma positions_matches n ns : forall i,
  length (positions n ns i) <= length (matches n ns i).
Proof.
  induction ns as [|m ns IH]; simpl; intros i; [lia|].
  destruct (String.eqb_spec m n) as [->|Hne].
  - rewrite same_name_refl. simpl. specialize (IH (S i)). lia.
  - destruct (same_name m n); simpl; specialize (IH (S i)); lia.
Qed.

Lemma names_ok_NoDup ns : names_ok ns -> NoDup ns.
Proof. intros [_ H]. eapply NoDup_fmap_1, H. Qed.

Lemma plain_name_simple n : plain_name n = true -> simple n = true.
Proof.
  unfold plain_name, simple. rewrite !andb_true_iff. intros [[H _] _].
  rewrite forallb_forall in *. intros c Hc. specialize (H c Hc).
  unfold plain_char in H. rewrite !andb_true_iff in H.
  rewrite andb_true_iff. tauto.
Qed.

Lemma unambiguous_names_ok ns : unambiguous ns = true -> names_ok ns.
Proof.
  unfold unambiguous. rewrite andb_true_iff, distinct_NoDup.
  intros [Hp Hd]. split; [|exact Hd].
  apply Forall_forall. intros n Hin. apply plain_name_simple.
  rewrite forallb_forall in Hp. now apply Hp, list_elem_of_In.
Qed.

Lemma resolve_middle a n b :
  names_ok (a ++ n :: b) -> resolve (a ++ n :: b) n = Ok (length a).
Proof.
  intros [Hs H]. unfold resolve.
  rewrite Forall_app, Forall_cons in Hs. destruct Hs as (_ & -> & _).
  rewrite matches_app. simpl. rewrite same_name_refl.
  rewrite map_app in H. simpl in H.
  apply NoDup_app in H as (_ & Ha & Hb). apply NoDup_cons in Hb as [Hb _].
  rewrite !matches_notin; [reflexivity | assumption |].
  intros Hin. apply (Ha _ Hin). left.
Qed.

Lemma schema_lookup_app_notin (a b : Schema) n :
  n ∉ names a -> schema_lookup (a ++ b) n = schema_lookup b n.
Proof.
  induction a as [|[m t] a IH]; simpl; intros H; [reflexivity|].
  apply not_elem_of_cons in H as [Hne Hn].
  destruct (String.eqb_spec m n); [congruence | auto].
Qed.

Lemma names_app (a b : Schema) : names (a ++ b) = names a ++ names b.
Proof. apply map_app. Qed.

Lemma names_explode_field sch : names (map explode_field sch) = names sch.
Proof.
  unfold names. rewrite map_map. apply map_ext.
  intros [n []]; reflexivity.
Qed.

Lemma explode_field_not_array n t :
  is_array t = false -> explode_field (n, t) = (n, t).
Proof. destruct t; simpl; intros; try reflexivity; discriminate. Qed.

(** ** The loop of [read_nested_json] on a well-formed batch *)

Lemma row_split (r : Row) k m :
  length r = k + S m ->
  exists p v s, r = p ++ v :: s /\ length p = k /\ length s = m.
Proof.
  intros H. exists (take k r).
  destruct (drop k r) as [|v s] eqn:Hd.
  - apply (f_equal length) in Hd. rewrite length_drop in Hd. simpl in Hd. lia.
  - exists v, s. rewrite <- Hd, take_drop. split; [reflexivity|].
    rewrite length_take. split; [lia|].
    apply (f_equal length) in Hd. rewrite length_drop in Hd. simpl in Hd. lia.
Qed.

Lemma explode_row_at_middle (p : Row) v s :
  explode_row_at (length p) (p ++ v :: s) =
  map (fun e => p ++ e :: s) (elements v).
Proof.
  unfold explode_row_at, cell. rewrite list_lookup_middle by reflexivity. simpl.
  apply map_ext. intros e.
  replace (length p) with (length p + 0) by lia.
  now rewrite insert_app_r.
Qed.

Lemma insert_middle {A} (p : list A) x y s k :
  length p = k -> <[k := x]> (p ++ y :: s) = p ++ x :: s.
Proof.
  intros <-. replace (length p) with (length p + 0) by lia.
  now rewrite insert_app_r.
Qed.

Lemma flat_map_flat_map {A B C} (f : B -> list C) (g : A -> list B) l :
  flat_map f (flat_map g l) = flat_map (fun x => flat_map f (g x)) l.
Proof.
  induction l as [|x l IH]; simpl; [reflexivity|].
  now rewrite flat_map_app, IH.
Qed.

Lemma flat_map_map {A B C} (f : B -> list C) (g : A -> B) l :
  flat_map f (map g l) = flat_map (fun x => f (g x)) l.
Proof. induction l as [|x l IH]; simpl; [reflexivity | now rewrite IH]. Qed.

Lemma map_flat_map {A B C} (f : B -> C) (g : A -> list B) l :
  map f (flat_map g l) = flat_map (fun x => map f (g x)) l.
Proof.
  induction l as [|x l IH]; simpl; [reflexivity|].
  now rewrite map_app, IH.
Qed.

Lemma flat_map_ext_Forall {A B} (P : A -> Prop) (f g : A -> list B) l :
  Forall P l -> (forall x, P x -> f x = g x) -> flat_map f l = flat_map g l.
Proof.
  intros Hl Hfg. induction Hl as [|x l Hx Hl IH]; simpl; [reflexivity|].
  now rewrite Hfg, IH.
Qed.

Lemma explode_from_step n t post (r : Row) k :
  is_array t = false ->
  length r = k + S (length post) ->
  explode_from (S k) post r = explode_from k ((n, t) :: post) r.
Proof.
  intros Ht Hr. apply row_split in Hr as (p & v & s & -> & <- & Hs).
  unfold explode_from.
  rewrite take_app_length, drop_app_length. simpl. rewrite Ht, map_map.
  replace (S (length p)) with (length (p ++ [v])) by (rewrite length_app; simpl; lia).
  replace (p ++ v :: s) with ((p ++ [v]) ++ s) by now rewrite <- app_assoc.
  rewrite take_app_length, drop_app_length.
  apply map_ext. intros x. now rewrite <- app_assoc.
Qed.

Lemma explode_from_step_array n e post (r : Row) k :
  length r = k + S (length post) ->
  flat_map (explode_from (S k) post) (explode_row_at k r) =
  explode_from k ((n, ArrayType e) :: post) r.
Proof.
  intros Hr. apply row_split in Hr as (p & v & s & -> & <- & Hs).
  rewrite explode_row_at_middle, flat_map_map. unfold explode_from.
  rewrite take_app_length, drop_app_length. simpl.
  rewrite map_flat_map. apply flat_map_ext. intros x.
  replace (S (length p)) with (length (p ++ [x])) by (rewrite length_app; simpl; lia).
  replace (p ++ x :: s) with ((p ++ [x]) ++ s) by now rewrite <- app_assoc.
  rewrite take_app_length, drop_app_length, map_map.
  apply map_ext. intros y. now rewrite <- app_assoc.
Qed.

Lemma explode_row_at_length k (r r' : Row) :
  In r' (explode_row_at k r) -> length r' = length r.
Proof.
  unfold explode_row_at. intros H. apply in_map_iff in H as (e & <- & _).
  apply length_insert.
Qed.

Lemma read_nested_json_loop_wf post : forall pre rs cl,
  names_ok (names (pre ++ post)) ->
  Forall (fun r : Row => length r = length pre + length post) rs ->
  read_nested_json_loop (names post)
    {| schema := map explode_field pre ++ post; rows := rs |} cl =
  Ok ({| schema := map explode_field (pre ++ post);
         rows := flat_map (explode_from (length pre) post) rs |},
      cl ++ flat_map cols_of post).
Proof.
  induction post as [|[n t] post IH]; intros pre rs cl Hok Hrs;
    pose proof (names_ok_NoDup _ Hok) as Hnd.
  - simpl. rewrite !app_nil_r. do 3 f_equal.
    induction Hrs as [|r rs Hr _ IHrs]; [reflexivity|].
    cbn [flat_map]. rewrite <- IHrs. unfold explode_from. simpl in Hr |- *.
    rewrite take_ge, app_nil_r by lia. reflexivity.
  - assert (Hok' : names_ok (names ((pre ++ [(n, t)]) ++ post)))
      by now rewrite <- app_assoc.
    assert (Hn : n ∉ names (map explode_field pre)).
    { rewrite names_explode_field. rewrite names_app in Hnd.
      apply NoDup_app in Hnd as (_ & Hd & _). intros Hin.
      apply (Hd n Hin). left. }
    cbn [names map fst read_nested_json_loop schema].
    change (map fst post) with (names post).
    rewrite schema_lookup_app_notin by exact Hn. simpl schema_lookup.
    rewrite String.eqb_refl. simpl mbind.
    assert (Hlen : length (pre ++ [(n, t)]) = S (length pre))
      by (rewrite length_app; simpl; lia).
    destruct (is_array t) eqn:Ht.
    + destruct t as [| | | |e|]; try discriminate.
      unfold withColumn_explode. cbn [schema rows].
      assert (Hres : resolve (names (map explode_field pre ++ (n, ArrayType e) :: post)) n
                     = Ok (length pre)).
      { rewrite names_app. simpl.
        replace (length pre) with (length (names (map explode_field pre)))
          by (unfold names; now rewrite !length_map).
        apply resolve_middle. rewrite names_explode_field.
        now rewrite names_app in Hok. }
      rewrite Hres. simpl mbind.
      rewrite list_lookup_middle by now rewrite length_map.
      rewrite insert_middle by now rewrite length_map.
      simpl mbind.
      specialize (IH (pre ++ [(n, ArrayType e)])
                     (flat_map (explode_row_at (length pre)) rs)
                     (cl ++ [ColName n]) Hok').
      rewrite map_app in IH. simpl in IH. rewrite <- !app_assoc in IH.
      simpl in IH. rewrite IH.
      * rewrite Hlen. simpl. do 3 f_equal. rewrite flat_map_flat_map.
        eapply flat_map_ext_Forall; [exact Hrs|]. intros r Hr.
        apply explode_from_step_array. simpl in Hr. lia.
      * apply Forall_forall. intros r' Hin.
        apply list_elem_of_In, in_flat_map in Hin as (r & Hr & Hin).
        apply explode_row_at_length in Hin. rewrite Hin.
        rewrite Forall_forall in Hrs. apply list_elem_of_In, Hrs in Hr.
        simpl in Hr. rewrite Hlen. lia.
    + assert (Hrs' : Forall (fun r : Row => length r = length (pre ++ [(n, t)]) + length post) rs).
      { eapply Forall_impl; [exact Hrs|]. intros r Hr. simpl in *.
        rewrite Hlen. lia. }
      assert (Hflat : flat_map (explode_from (length (pre ++ [(n, t)])) post) rs =
                      flat_map (explode_from (length pre) ((n, t) :: post)) rs).
      { eapply flat_map_ext_Forall; [exact Hrs|]. intros r Hr.
        rewrite Hlen. apply explode_from_step; [exact Ht|]. simpl in Hr. lia. }
      specialize (IH (pre ++ [(n, t)]) rs (cl ++ cols_of (n, t)) Hok' Hrs').
      rewrite Hflat in IH. rewrite map_app in IH.
      rewrite <- !app_assoc in IH.
      destruct t; try discriminate; exact IH.
Qed.

(** ** [select] on the exploded batch *)

Lemma resolve_columns_app sch a b oa ob :
  resolve_columns sch a = Ok oa -> resolve_columns sch b = Ok ob ->
  resolve_columns sch (a ++ b) = Ok (oa ++ ob).
Proof.
  revert oa. induction a as [|c a IH]; simpl; intros oa Ha Hb.
  - now injection Ha as <-.
  - inv_bind Ha. inv_bind Ha. injection Ha as <-.
    rewrite Hm. simpl. now rewrite (IH _ Hm0 Hb).
Qed.

Lemma resolve_field_outs sch n k fs fpost : forall fpre,
  resolve (names sch) n = Ok k ->
  sch !! k = Some (n, StructType fs) ->
  fs = fpre ++ fpost ->
  names_ok (names fs) ->
  resolve_columns sch
    (map (fun c => ColAlias n (fst c) (n ++ "_" ++ fst c)%string) fpost) =
  Ok (field_outs n k (length fpre) fpost).
Proof.
  induction fpost as [|[c t] fpost IH]; intros fpre Hk Hs Hfs Hnd;
    [reflexivity|].
  simpl. rewrite Hk. simpl. rewrite Hs.
  assert (Hc : resolve (names fs) c = Ok (length fpre)).
  { subst fs. rewrite names_app in Hnd |- *. simpl in *.
    replace (length fpre) with (length (names fpre))
      by (unfold names; now rewrite length_map).
    now apply resolve_middle. }
  rewrite Hc. simpl.
  assert (Hl : fs !! length fpre = Some (c, t))
    by (subst fs; now apply list_lookup_middle).
  rewrite Hl.
  rewrite (IH (fpre ++ [(c, t)])); try assumption.
  - rewrite length_app. simpl. now rewrite Nat.add_1_r.
  - now rewrite <- app_assoc.
Qed.

Lemma resolve_columns_outs post : forall pre,
  names_ok (names (pre ++ post)) ->
  forallb field_ok post = true ->
  resolve_columns (map explode_field (pre ++ post)) (flat_map cols_of post) =
  Ok (outs_of (length pre) post).
Proof.
  induction post as [|[n t] post IH]; intros pre Hnd Hok; [reflexivity|].
  simpl in Hok. apply andb_true_iff in Hok as [Hf Hok].
  assert (Hres : resolve (names (map explode_field (pre ++ (n, t) :: post))) n
                 = Ok (length pre)).
  { rewrite names_explode_field, names_app. simpl.
    replace (length pre) with (length (names pre))
      by (unfold names; now rewrite length_map).
    apply resolve_middle. now rewrite names_app in Hnd. }
  assert (Hl : map explode_field (pre ++ (n, t) :: post) !! length pre
               = Some (explode_field (n, t))).
  { rewrite map_app. simpl. apply list_lookup_middle. now rewrite length_map. }
  specialize (IH (pre ++ [(n, t)])).
  rewrite <- app_assoc, length_app in IH. simpl in IH.
  rewrite Nat.add_1_r in IH. specialize (IH Hnd Hok).
  cbn [flat_map].
  assert (Hone : forall t', explode_field (n, t) = (n, t') ->
            resolve_columns (map explode_field (pre ++ (n, t) :: post))
              [ColName n] = Ok [((n, t'), Cell (length pre))]).
  { intros t' Ht'. simpl. rewrite Hres. simpl. now rewrite Hl, Ht'. }
  destruct t as [| | | |e|fs];
    try (apply (resolve_columns_app _ [_] _ [_]); [now apply Hone | exact IH]).
  apply resolve_columns_app; [|exact IH].
  apply (resolve_field_outs _ _ _ fs fs []); try assumption; try reflexivity.
  unfold field_ok in Hf. simpl in Hf. now apply unambiguous_names_ok.
Qed.

Lemma outs_of_schema post : forall k,
  map fst (outs_of k post) = flat_map flat_field post.
Proof.
  induction post as [|[n t] post IH]; intros k; [reflexivity|].
  destruct t as [| | | |e|fs]; simpl; rewrite ?IH; try reflexivity.
  rewrite map_app, IH. f_equal.
  generalize 0. induction fs as [|[c t] fs IHfs]; intros j; simpl;
    [reflexivity | now rewrite IHfs].
Qed.

Lemma field_outs_eval n k r fs : forall j,
  map (fun o => eval_extract (snd o) r) (field_outs n k j fs) =
  map (struct_field (cell r k)) (seq j (length fs)).
Proof.
  induction fs as [|[c t] fs IH]; intros j; simpl; [reflexivity|].
  now rewrite IH.
Qed.

Lemma outs_of_eval post : forall k (r : Row),
  length r = k + length post ->
  map (fun o => eval_extract (snd o) r) (outs_of k post) =
  project_row post (drop k r).
Proof.
  induction post as [|[n t] post IH]; intros k r Hr; simpl.
  - now destruct (drop k r).
  - simpl in Hr. apply row_split in Hr as (p & v & s & -> & <- & Hs).
    assert (Hc : cell (p ++ v :: s) (length p) = v)
      by (unfold cell; now rewrite list_lookup_middle).
    assert (IH' : map (fun o => eval_extract (snd o) (p ++ v :: s))
                    (outs_of (S (length p)) post) = project_row post s).
    { rewrite IH by (rewrite length_app; simpl; lia).
      replace (S (length p)) with (length (p ++ [v]))
        by (rewrite length_app; simpl; lia).
      replace (p ++ v :: s) with ((p ++ [v]) ++ s) by now rewrite <- app_assoc.
      now rewrite drop_app_length. }
    rewrite drop_app_length.
    destruct t as [| | | |e|fs]; simpl; rewrite ?Hc, ?IH'; try reflexivity.
    now rewrite map_app, field_outs_eval, Hc, IH'.
Qed.

Lemma explode_row_length sch : forall (r r' : Row),
  length r = length sch -> In r' (explode_row sch r) -> length r' = length sch.
Proof.
  induction sch as [|[n t] sch IH]; intros [|v r] r' Hr Hin; simpl in *;
    try discriminate.
  - now destruct Hin as [<-|[]].
  - injection Hr as Hr. destruct (is_array t).
    + apply in_flat_map in Hin as (e & _ & Hin).
      apply in_map_iff in Hin as (x & <- & Hx). simpl. f_equal. eauto.
    + apply in_map_iff in Hin as (x & <- & Hx). simpl. f_equal. eauto.
Qed.

(** ** One pass on a well-formed batch *)

Lemma well_formed_inv df :
  well_formed df = true ->
  names_ok (names (schema df)) /\ forallb field_ok (schema df) = true /\
  Forall (fun r : Row => length r = length (schema df)) (rows df).
Proof.
  unfold well_formed. rewrite !andb_true_iff.
  intros [[H1 H2] H3]. apply unambiguous_names_ok in H1.
  repeat split; try assumption; try apply H1.
  apply Forall_forall. intros r Hin. rewrite forallb_forall in H3.
  apply list_elem_of_In, H3 in Hin. now apply Nat.eqb_eq.
Qed.

Lemma read_nested_json_wf df :
  well_formed df = true ->
  read_nested_json df =
  Ok {| schema := flat_map flat_field (schema df);
        rows := flat_map (flat_rows (schema df)) (rows df) |}.
Proof.
  intros Hwf. apply well_formed_inv in Hwf as (Hnd & Hok & Hrs).
  destruct df as [sch rs]. simpl in *. unfold read_nested_json. simpl schema.
  pose proof (read_nested_json_loop_wf sch [] rs [] Hnd Hrs) as Hloop.
  simpl in Hloop. rewrite Hloop. simpl mbind. unfold select. simpl schema.
  pose proof (resolve_columns_outs sch [] Hnd Hok) as Hsel.
  simpl in Hsel. rewrite Hsel. simpl mbind. simpl rows.
  f_equal. f_equal; [apply outs_of_schema|].
  rewrite map_flat_map. eapply flat_map_ext_Forall; [exact Hrs|].
  intros r Hr. unfold flat_rows, explode_from. simpl.
  rewrite map_map, drop_0. apply map_ext_in. intros r' Hin.
  rewrite outs_of_eval; [now rewrite drop_0|].
  simpl in Hr |- *. now apply (explode_row_length sch r).
Qed.

(** ** Rows and columns of one pass, by position *)

Lemma explode_row_app pre post : forall (p s : Row),
  length p = length pre ->
  explode_row (pre ++ post) (p ++ s) =
  flat_map (fun p' => map (app p') (explode_row post s)) (explode_row pre p).
Proof.
  induction pre as [|[n t] pre IH]; intros [|v p] s Hp; try discriminate.
  - simpl. rewrite app_nil_r. symmetry. apply map_id.
  - injection Hp as Hp. simpl. rewrite (IH p s Hp). destruct (is_array t).
    + rewrite flat_map_flat_map. apply flat_map_ext. intros e.
      rewrite map_flat_map, flat_map_map. apply flat_map_ext. intros p'.
      now rewrite map_map.
    + rewrite map_flat_map, flat_map_map. apply flat_map_ext. intros p'.
      now rewrite map_map.
Qed.

Lemma project_row_app pre post : forall (p s : Row),
  length p = length pre ->
  project_row (pre ++ post) (p ++ s) = project_row pre p ++ project_row post s.
Proof.
  induction pre as [|[n t] pre IH]; intros [|v p] s Hp; try discriminate.
  - reflexivity.
  - injection Hp as Hp. simpl.
    destruct t; simpl; rewrite (IH p s Hp); try reflexivity.
    now rewrite app_assoc.
Qed.

Lemma all_scalar_cons n t sch :
  all_scalar ((n, t) :: sch) = true ->
  is_array t = false /\ is_struct t = false /\ all_scalar sch = true.
Proof.
  unfold all_scalar. simpl. rewrite andb_true_iff, is_scalar_cases. tauto.
Qed.

Lemma explode_row_scalar sch : forall r : Row,
  all_scalar sch = true -> length r = length sch -> explode_row sch r = [r].
Proof.
  induction sch as [|[n t] sch IH]; intros [|v r] Hs Hr; try discriminate.
  - reflexivity.
  - injection Hr as Hr. apply all_scalar_cons in Hs as (Ha & _ & Hs).
    simpl. now rewrite Ha, IH.
Qed.

Lemma project_row_scalar sch : forall r : Row,
  all_scalar sch = true -> length r = length sch -> project_row sch r = r.
Proof.
  induction sch as [|[n t] sch IH]; intros [|v r] Hs Hr; try discriminate.
  - reflexivity.
  - injection Hr as Hr. apply all_scalar_cons in Hs as (Ha & Hst & Hs).
    simpl. destruct t; try discriminate; now rewrite IH.
Qed.

Lemma flat_field_scalar sch :
  all_scalar sch = true -> flat_map flat_field sch = sch.
Proof.
  induction sch as [|[n t] sch IH]; intros Hs; [reflexivity|].
  apply all_scalar_cons in Hs as (Ha & Hst & Hs). simpl.
  destruct t; try discriminate; simpl; now rewrite IH.
Qed.

Lemma flat_rows_scalar sch (r : Row) :
  all_scalar sch = true -> length r = length sch -> flat_rows sch r = [r].
Proof.
  intros Hs Hr. unfold flat_rows. rewrite explode_row_scalar by assumption.
  simpl. now rewrite project_row_scalar.
Qed.

(** The rows a row becomes, split at one of its columns. *)
Lemma flat_rows_middle pre f post (p : Row) v s :
  length p = length pre ->
  flat_rows (pre ++ f :: post) (p ++ v :: s) =
  flat_map (fun p' => map (fun x => project_row pre p' ++ project_row (f :: post) x)
                          (explode_row (f :: post) (v :: s)))
           (explode_row pre p).
Proof.
  intros Hp. unfold flat_rows. rewrite explode_row_app by assumption.
  rewrite map_flat_map. apply flat_map_ext_Forall with
    (P := fun p' : Row => length p' = length pre).
  - apply Forall_forall. intros p' Hin. apply list_elem_of_In in Hin.
    eapply explode_row_length; eassumption.
  - intros p' Hp'. rewrite map_map. apply map_ext. intros x.
    now apply project_row_app.
Qed.

Lemma well_formed_middle pre f post before (r : Row) after :
  well_formed {| schema := pre ++ f :: post; rows := before ++ r :: after |} = true ->
  length r = length pre + S (length post).
Proof.
  intros H. apply well_formed_inv in H as (_ & _ & H). simpl in H.
  apply Forall_app in H as [_ H]. apply Forall_cons in H as [H _].
  rewrite H, length_app. reflexivity.
Qed.

Lemma schema_flat_middle pre f post :
  flat_map flat_field (pre ++ f :: post) =
  flat_map flat_field pre ++ flat_field f ++ flat_map flat_field post.
Proof. now rewrite flat_map_app. Qed.

Lemma rows_flat_middle (F : Row -> list Row) before r after :
  flat_map F (before ++ r :: after) =
  flat_map F before ++ F r ++ flat_map F after.
Proof. now rewrite flat_map_app. Qed.

(** * The claims about the flattener *)

Example read_nested_json_a_list :
  read_nested_json df_a_list =
  Ok {| schema := [("a", LongType)];
        rows := [[VLong 1]; [VLong 2]; [VLong 3]] |}.
Proof. reflexivity. Qed.

Example read_nested_json_a_object :
  read_nested_json df_a_object =
  Ok {| schema := [("a_x", LongType); ("a_y", LongType)];
        rows := [[VLong 1; VLong 2]] |}.
Proof. reflexivity. Qed.

Example flatten_a_list_of_objects :
  flatten_loop 5 df_a_list_of_objects 0 =
  Some (2, Ok {| schema := [("a_x", LongType)];
                 rows := [[VLong 1]; [VLong 2]] |}).
Proof. reflexivity. Qed.

(** The loop of [flatten] ends, by returning or by raising, after at most
    [depth] passes, and at least one: the loop body runs before the first
    test.  When it returns a batch whose column names are pairwise distinct,
    the batch has scalar columns only. *)
Lemma flatten_terminates df fuel :
  depth df <= fuel ->
  exists n res, flatten_loop fuel df 0 = Some (n, res) /\
    1 <= n <= depth df /\
    forall df', res = Ok df' -> NoDup (names (schema df')) ->
                all_scalar (schema df') = true.
Proof.
  intros Hfuel. rewrite depth_unfold in *.
  destruct (flatten_loop_terminates (schema_depth (schema df)) fuel df 0)
    as (n & res & Hf & Hlt & Hle); [lia | lia |].
  exists n, res. split; [exact Hf|]. split; [lia|].
  intros df' -> Hnd. apply flatten_loop_returned in Hf.
  now apply inspect_schema_false_NoDup.
Qed.

(** C1, at the record [{"a": {"b_c": 1}, "a_b": {"c": [2, 3]}}]: [flatten]
    returns after one pass, and the second of the two columns named [a_b_c]
    of its result is still an array: the schema inspection finds the first
    field of that name both times. *)
Theorem flatten_leaves_array_on_colliding_paths :
  flatten_loop (depth df_colliding) df_colliding 0 =
  Some (1, Ok {| schema := [("a_b_c", LongType);
                            ("a_b_c", ArrayType LongType)];
                 rows := [[VLong 1; VArray [VLong 2; VLong 3]]] |}) /\
  all_scalar [("a_b_c", LongType); ("a_b_c", ArrayType LongType)] = false.
Proof. split; reflexivity. Qed.




Lemma struct_fields_all vs :
  map (struct_field (VStruct vs)) (seq 0 (length vs)) = vs.
Proof.
  apply list_eq. intros i. rewrite list_lookup_fmap.
  destruct (vs !! i) as [v|] eqn:Hi.
  - rewrite lookup_seq_lt by (eapply lookup_lt_Some; eassumption).
    simpl. now rewrite Hi.
  - rewrite lookup_ge_None_2; [reflexivity|].
    rewrite length_seq. now apply lookup_ge_None.
Qed.




Lemma flat_map_nil {A B} (l : list A) : flat_map (fun _ => @nil B) l = [].
Proof. induction l; simpl; auto. Qed.

(** ** A row with an empty list

    The loop of [read_nested_json] on a batch and on the same batch without
    some rows [R] whose cell at column [k] holds no element: once the
    column at [k] has been exploded, nothing is left of [R]. *)

Lemma explode_row_at_empty k R :
  Forall (empty_at k) R -> flat_map (explode_row_at k) R = [].
Proof.
  induction 1 as [|r R Hr _ IH]; [reflexivity|]. simpl. rewrite IH.
  unfold explode_row_at. rewrite Hr. reflexivity.
Qed.

Lemma explode_row_at_other i k R :
  i <> k -> Forall (empty_at k) R ->
  Forall (empty_at k) (flat_map (explode_row_at i) R).
Proof.
  intros Hne HR. apply Forall_forall. intros r' Hin.
  apply list_elem_of_In, in_flat_map in Hin as (r & Hr & Hin).
  rewrite Forall_forall in HR. apply list_elem_of_In, HR in Hr.
  unfold explode_row_at in Hin. apply in_map_iff in Hin as (x & <- & _).
  unfold empty_at, cell in *. now rewrite list_lookup_insert_ne.
Qed.

Lemma lookup_names_NoDup (sch : Schema) i k n t t' :
  NoDup (names sch) -> sch !! i = Some (n, t) -> sch !! k = Some (n, t') ->
  i = k.
Proof.
  intros Hnd Hi Hk. eapply NoDup_lookup; [exact Hnd | |];
    unfold names; rewrite list_lookup_fmap.
  - now rewrite Hi.
  - now rewrite Hk.
Qed.

Lemma schema_lookup_at (sch : Schema) k n t :
  NoDup (names sch) -> sch !! k = Some (n, t) -> schema_lookup sch n = Ok t.
Proof.
  intros Hnd Hk. apply schema_lookup_NoDup; [exact Hnd|].
  apply list_elem_of_In. eapply list_elem_of_lookup_2, Hk.
Qed.

Lemma read_nested_json_loop_drop k n ns : forall sch X R Y cl,
  NoDup (names sch) ->
  NoDup ns ->
  (exists t, sch !! k = Some (n, t)) ->
  (In n ns -> exists e, sch !! k = Some (n, ArrayType e)) ->
  Forall (empty_at k) R ->
  (~ In n ns -> R = []) ->
  read_nested_json_loop ns {| schema := sch; rows := X ++ R ++ Y |} cl =
  read_nested_json_loop ns {| schema := sch; rows := X ++ Y |} cl.
Proof.
  induction ns as [|m ns IH]; intros sch X R Y cl Hnd Hns Hk Harr HR Hdone.
  - simpl. rewrite Hdone by (intros []). reflexivity.
  - apply NoDup_cons in Hns as [Hm Hns]. rewrite list_elem_of_In in Hm.
    cbn [read_nested_json_loop schema].
    destruct (schema_lookup sch m) as [t|e0] eqn:Hl; [|reflexivity].
    cbn [mbind result_bind].
    assert (Hother : is_array t = false ->
              (In n ns -> exists e, sch !! k = Some (n, ArrayType e)) /\
              (~ In n ns -> R = [])).
    { intros Ht. split; [intros Hin; apply Harr; now right|].
      intros Hnot. apply Hdone. intros [->|Hin]; [|contradiction].
      destruct Harr as (e & He); [now left|].
      rewrite (schema_lookup_at _ _ _ _ Hnd He) in Hl.
      injection Hl as <-. discriminate. }
    destruct t as [| | | |e0|fs];
      try (destruct (Hother eq_refl) as [H1 H2]; now apply IH).
    unfold withColumn_explode. cbn [schema rows].
    destruct (resolve (names sch) m) as [i|e1] eqn:Hres; [|reflexivity].
    cbn [mbind result_bind].
    pose proof (resolve_lookup _ _ _ _ Hres Hl) as Hi. rewrite Hi.
    cbn [mbind result_bind]. rewrite !flat_map_app.
    assert (Hnames : names (<[i := (m, e0)]> sch) = names sch)
      by (eapply names_insert, Hi).
    destruct (string_dec m n) as [->|Hmn].
    + destruct Hk as (t & Hk).
      pose proof (lookup_names_NoDup _ _ _ _ _ _ Hnd Hi Hk) as ->.
      rewrite (explode_row_at_empty _ _ HR).
      apply (IH _ _ [] _ _); try assumption.
      * now rewrite Hnames.
      * exists e0. apply list_lookup_insert_eq.
        eapply lookup_lt_Some, Hk.
      * intros Hin. contradiction.
      * constructor.
      * reflexivity.
    + assert (Hik : i <> k).
      { intros ->. destruct Hk as (t & Hk). rewrite Hk in Hi.
        injection Hi as ->. contradiction. }
      apply IH; try assumption.
      * now rewrite Hnames.
      * destruct Hk as (t & Hk). exists t.
        now rewrite list_lookup_insert_ne.
      * intros Hin. destruct Harr as (e & He); [now right|]. exists e.
        now rewrite list_lookup_insert_ne.
      * now apply explode_row_at_other.
      * intros Hnot. rewrite Hdone; [reflexivity|].
        intros [Heq|Hin]; [now apply Hmn | contradiction].
Qed.



(** ** One more pass on an all-scalar batch *)

Lemma select_rect df cl df' :
  select df cl = Ok df' ->
  Forall (fun r : Row => length r = length (schema df')) (rows df').
Proof.
  unfold select. intros H. inv_bind H. injection H as <-. simpl.
  apply Forall_forall. intros r Hin.
  apply list_elem_of_In, in_map_iff in Hin as (r0 & <- & _).
  now rewrite !length_map.
Qed.

Lemma read_nested_json_rect df df' :
  read_nested_json df = Ok df' ->
  Forall (fun r : Row => length r = length (schema df')) (rows df').
Proof.
  unfold read_nested_json. intros H. inv_bind H. destruct a as [df1 cl].
  eapply select_rect, H.
Qed.

Lemma flatten_loop_rect fuel : forall df p n df',
  flatten_loop fuel df p = Some (n, Ok df') ->
  Forall (fun r : Row => length r = length (schema df')) (rows df').
Proof.
  induction fuel as [|fuel IH]; simpl; intros df p n df' H; [discriminate|].
  destruct (read_nested_json df) as [df1|e] eqn:Hr; [|discriminate].
  destruct (inspect_schema (schema df1) (names (schema df1)) false)
    as [[|]|e']; try discriminate.
  - eauto.
  - injection H as _ <-. now apply read_nested_json_rect in Hr.
Qed.

Lemma all_scalar_field_ok sch :
  all_scalar sch = true -> forallb field_ok sch = true.
Proof.
  induction sch as [|[n t] sch IH]; intros Hs; [reflexivity|].
  apply all_scalar_cons in Hs as (_ & Hst & Hs). simpl.
  rewrite (IH Hs), andb_true_r. unfold field_ok. simpl.
  destruct t; try reflexivity; discriminate.
Qed.

Lemma well_formed_intro df :
  unambiguous (names (schema df)) = true ->
  forallb field_ok (schema df) = true ->
  Forall (fun r : Row => length r = length (schema df)) (rows df) ->
  well_formed df = true.
Proof.
  intros H1 H2 H3. unfold well_formed. rewrite !andb_true_iff.
  repeat split; [assumption | assumption |].
  apply forallb_forall. intros r Hin. apply Nat.eqb_eq.
  rewrite Forall_forall in H3. now apply H3, list_elem_of_In.
Qed.

Lemma read_nested_json_scalar df :
  well_formed df = true -> all_scalar (schema df) = true ->
  read_nested_json df = Ok df.
Proof.
  intros Hwf Hs. rewrite (read_nested_json_wf df Hwf).
  apply well_formed_inv in Hwf as (_ & _ & Hrs).
  destruct df as [sch rs]. simpl in *. rewrite flat_field_scalar by assumption.
  f_equal. f_equal. induction Hrs as [|r rs Hr _ IH]; [reflexivity|].
  simpl. now rewrite flat_rows_scalar, IH.
Qed.


(** Likewise on [{"a.b": 1}], whose one scalar column is referred to as
    [select("a.b")], and on what [flatten] returns for
    [{"a": {"B": 1}, "a_b": 2}], the columns [a_B] and [a_b], which Spark
    does not tell apart. *)
Example extra_pass_raises_on_unresolved_names :
  all_scalar [("a.b", LongType)] = true /\
  read_nested_json {| schema := [("a.b", LongType)]; rows := [[VLong 1]] |} =
    Raise (AnalysisException "cannot resolve a.b") /\
  flatten_loop (depth df_case_clash) df_case_clash 0 =
    Some (1, Ok {| schema := [("a_B", LongType); ("a_b", LongType)];
                   rows := [[VLong 1; VLong 2]] |}) /\
  read_nested_json {| schema := [("a_B", LongType); ("a_b", LongType)];
                      rows := [[VLong 1; VLong 2]] |} =
    Raise (AnalysisException "ambiguous reference a_B").
Proof. repeat split; reflexivity. Qed.



(** * The claims about the job records *)

(** ** What [update_dynamodb_status] does to the table *)

Lemma update_never_raises fault t rid status key db :
  snd (update_dynamodb_status fault t rid status key db) = Ok tt.
Proof.
  unfold update_dynamodb_status, update_item.
  destruct fault as [[]|]; reflexivity.
Qed.

Lemma update_requests fault t rid status key db :
  requests (fst (update_dynamodb_status fault t rid status key db)) =
  S (requests db).
Proof.
  unfold update_dynamodb_status, update_item.
  destruct fault as [[]|]; reflexivity.
Qed.

Lemma update_table_fault e t rid status key db :
  table (fst (update_dynamodb_status (Some e) t rid status key db)) = table db.
Proof. unfold update_dynamodb_status, update_item. destruct e; reflexivity. Qed.

Lemma update_table_ok t rid status key db :
  table (fst (update_dynamodb_status None t rid status key db)) =
  <[rid := set_attributes (default {[ "reference_id" := rid ]} (table db !! rid))
             (update_expression status t (cleaned key))]> (table db).
Proof. reflexivity. Qed.

Lemma update_expression_cases status t key :
  update_expression status t key =
    [("job_status", status); ("job_end_time", t)] \/
  exists k, update_expression status t key =
    [("job_status", status); ("job_end_time", t); ("s3_object_key", k)].
Proof.
  unfold update_expression. destruct key as [k|]; [|now left].
  destruct (truthy (Some k)); [right; eauto | now left].
Qed.

Lemma cleaned_None : cleaned None = None.
Proof. reflexivity. Qed.

Lemma set_attributes_status (item : gmap string string) status t key :
  set_attributes item (update_expression status t key) !! "job_status" = Some status /\
  set_attributes item (update_expression status t key) !! "job_end_time" = Some t.
Proof.
  destruct (update_expression_cases status t key) as [->|(k & ->)];
    simpl; split; now simplify_map_eq.
Qed.

Lemma set_attributes_frame (item : gmap string string) status t key a :
  a <> "job_status" -> a <> "job_end_time" ->
  a <> "s3_object_key" \/ key = None ->
  set_attributes item (update_expression status t key) !! a = item !! a.
Proof.
  intros H1 H2 H3.
  destruct (update_expression_cases status t key) as [->|(k & Hk)].
  - simpl. now simplify_map_eq.
  - destruct H3 as [H3| ->]; [|discriminate Hk].
    rewrite Hk. simpl. now simplify_map_eq.
Qed.

Lemma set_attributes_key (item : gmap string string) status t key a :
  a <> "job_status" -> a <> "job_end_time" -> a <> "s3_object_key" ->
  set_attributes item (update_expression status t key) !! a = item !! a.
Proof. intros. apply set_attributes_frame; auto. Qed.

(** C5 as stated fails: on a table without the record the update makes one
    instead of failing, and on a record that is SUCCEEDED the update to
    RUNNING goes through. *)
Lemma update_creates_and_reopens :
  (let r := update_dynamodb_status None "2024-12-01T09:00:00" "REF000001"
              "SUCCEEDED" None empty_db in
   snd r = Ok tt /\
   table (fst r) !! "REF000001" =
     Some (<["job_end_time" := "2024-12-01T09:00:00"]>
           (<["job_status" := "SUCCEEDED"]> {[ "reference_id" := "REF000001" ]}))) /\
  (let r := update_dynamodb_status None "2024-12-01T09:00:00" "REF123456"
              "RUNNING" None finished_db in
   snd r = Ok tt /\
   table finished_db !! "REF123456" ≫= (.!! "job_status") = Some "SUCCEEDED" /\
   table (fst r) !! "REF123456" ≫= (.!! "job_status") = Some "RUNNING").
Proof.
  split; simpl; (split; [reflexivity|]).
  - unfold empty_db. simpl. now rewrite lookup_insert_eq.
  - split; [reflexivity|]. unfold finished_db. simpl.
    rewrite lookup_insert_eq. reflexivity.
Qed.

(** C5, amended: the update never fails and is never rejected.  Whatever
    is stored under the reference id, nothing or a record in any status,
    the record after a call that DynamoDB answers holds the new status and
    the end time, and a record made for the occasion holds the key; a call
    that DynamoDB answers with an error leaves the table as it was, and the
    error is caught. *)
Theorem update_is_unconditional fault t rid status key db :
  snd (update_dynamodb_status fault t rid status key db) = Ok tt /\
  (fault = None ->
   exists item',
     table (fst (update_dynamodb_status fault t rid status key db)) !! rid
       = Some item' /\
     item' !! "job_status" = Some status /\
     item' !! "job_end_time" = Some t /\
     (table db !! rid = None -> item' !! "reference_id" = Some rid)) /\
  (is_Some fault ->
   table (fst (update_dynamodb_status fault t rid status key db)) = table db).
Proof.
  split; [apply update_never_raises|]. split.
  - intros ->. rewrite update_table_ok, lookup_insert_eq.
    eexists. split; [reflexivity|].
    pose proof (set_attributes_status
                  (default {[ "reference_id" := rid ]} (table db !! rid))
                  status t (cleaned key)) as [H1 H2].
    repeat split; try assumption.
    intros Hnone. rewrite Hnone. simpl.
    rewrite set_attributes_key by discriminate. apply lookup_singleton_eq.
  - intros [e ->]. apply update_table_fault.
Qed.

Lemma update_is_unconditional_witness :
  exists item',
    table (fst (update_dynamodb_status None "2024-12-01T09:00:00" "REF123456"
                  "RUNNING" None finished_db)) !! "REF123456" = Some item' /\
    item' !! "job_status" = Some "RUNNING".
Proof.
  destruct (update_is_unconditional None "2024-12-01T09:00:00" "REF123456"
              "RUNNING" None finished_db) as (_ & H & _).
  destruct (H eq_refl) as (item' & H1 & H2 & _).
  exists item'. split; assumption.
Defined.

(** C6: an update writes [job_status], [job_end_time] and, when a key is
    passed, [s3_object_key], and nothing else: every other record of the
    table and every other attribute of the record stay as they were, and
    so does [s3_object_key] when no key is passed. *)
Theorem update_is_partial fault t rid status key db :
  (forall rid', rid' <> rid ->
     table (fst (update_dynamodb_status fault t rid status key db)) !! rid'
       = table db !! rid') /\
  (forall item, table db !! rid = Some item ->
     exists item',
       table (fst (update_dynamodb_status fault t rid status key db)) !! rid
         = Some item' /\
       forall a, a <> "job_status" -> a <> "job_end_time" ->
                 a <> "s3_object_key" \/ key = None ->
                 item' !! a = item !! a).
Proof.
  destruct fault as [e|].
  - rewrite update_table_fault. split; [reflexivity|]. eauto.
  - rewrite update_table_ok. split.
    + intros rid' Hne. now rewrite lookup_insert_ne.
    + intros item Hitem. rewrite lookup_insert_eq, Hitem. simpl.
      eexists. split; [reflexivity|]. intros a H1 H2 H3.
      apply set_attributes_frame; try assumption.
      destruct H3 as [H3| ->]; [now left | now right].
Qed.

Lemma update_is_partial_witness :
  exists item',
    table (fst (update_dynamodb_status None "2024-12-01T09:00:00" "REF123456"
                  "FAILED" None finished_db)) !! "REF123456" = Some item' /\
    item' !! "s3_object_key" =
      Some "processed-json-files/out/u@x.org/REF123456_output.csv".
Proof.
  destruct (update_is_partial None "2024-12-01T09:00:00" "REF123456"
              "FAILED" None finished_db) as (_ & H).
  destruct (H finished_item) as (item' & H1 & H2).
  { apply lookup_singleton_eq. }
  exists item'. split; [exact H1|].
  rewrite H2; [reflexivity | discriminate | discriminate | now right].
Defined.


Lemma update_expression_shape status key :
  exists tail,
    (forall t, update_expression status t key =
               ("job_status", status) :: ("job_end_time", t) :: tail) /\
    (tail = [] \/ exists k, tail = [("s3_object_key", k)]).
Proof.
  unfold update_expression. destruct key as [k|]; [|exists []; auto].
  destruct (truthy (Some k)); [|exists []; auto].
  exists [("s3_object_key", k)]. eauto.
Qed.

Lemma set_attributes_twice (item : gmap string string) status t1 t2 key :
  set_attributes (set_attributes item (update_expression status t1 key))
    (update_expression status t2 key) =
  set_attributes item (update_expression status t2 key).
Proof.
  destruct (update_expression_shape status key) as (tail & Hexp & Htail).
  rewrite !Hexp. destruct Htail as [->|(k & ->)]; simpl;
    apply map_eq; intros a;
    repeat (rewrite lookup_insert; case_decide); try reflexivity; congruence.
Qed.

Lemma set_attributes_end_time (item : gmap string string) status t1 t2 key :
  set_attributes item (update_expression status t2 key) =
  <["job_end_time" := t2]> (set_attributes item (update_expression status t1 key)).
Proof.
  destruct (update_expression_shape status key) as (tail & Hexp & Htail).
  rewrite !Hexp. destruct Htail as [->|(k & ->)]; simpl;
    apply map_eq; intros a;
    repeat (rewrite lookup_insert; case_decide); try reflexivity; congruence.
Qed.



(** ** The coordinator *)

Lemma flatten_defined df :
  exists n, flatten_loop (depth df) df 0 = Some (n, flatten df).
Proof.
  destruct (flatten_terminates df (depth df) (le_n _)) as (n & res & H & _).
  exists n. unfold flatten. now rewrite H.
Qed.


Lemma main_validated w args db :
  strip (input_path args) <> EmptyString ->
  strip (output_path args) <> EmptyString ->
  main w args db =
    match main_try w args db with
    | (db', Ok _) => (db', Ok tt)
    | (db', Raise e) =>
        match update_dynamodb_status (dynamo_fault w) (utcnow_isoformat w)
                (reference_ID args) "FAILED" None db' with
        | (db'', Ok _) => (db'', Raise e)
        | (db'', Raise e') => (db'', Raise e')
        end
    end.
Proof.
  intros Hi Ho. unfold main.
  destruct (strip (input_path args)); [contradiction|].
  destruct (strip (output_path args)); [contradiction|]. reflexivity.
Qed.



(** ** The creation of the record *)

(** C9 as stated fails: the trigger draws the reference id of a record that
    exists, and its [put_item] puts the new record in the place of the old
    one: the handler answers 200, and the status and the output key of the
    finished job are gone. *)
Lemma create_replaces_existing_record :
  table finished_db !! "REF123456" = Some finished_item /\
  let r := lambda_handler trigger_world trigger_event finished_db in
  statusCode (snd r) = 200 /\
  table (fst r) !! "REF123456" =
    Some (dynamo_params "REF123456" "jr_2" "2024-12-01T08:00:00" "new.json"
            "v@y.org") /\
  table (fst r) !! "REF123456" ≫= (.!! "job_status") = Some "RUNNING" /\
  table (fst r) !! "REF123456" ≫= (.!! "s3_object_key") = None.
Proof.
  split; [apply lookup_singleton_eq|]. simpl. split; [reflexivity|].
  unfold finished_db. simpl. rewrite lookup_insert_eq.
  split; [reflexivity|]. simpl. unfold dynamo_params.
  split; now simplify_map_eq.
Qed.

(** C9, amended: creating the record never fails with a duplicate error.
    For an event whose file name splits into an email and a name, when the
    Glue job starts and DynamoDB answers, the handler answers 200 and the
    table holds the new record under the drawn reference id, in the place of
    any record that was stored there. *)
Theorem create_is_unconditional_put w rec rest db email filename job_id :
  let object_key := unquote_plus (object_key rec) in
  let reference_id := generate_reference_id w in
  split1 "_" (List.last (split "/" object_key) EmptyString) = [email; filename] ->
  start_job_run w
    (glue_arguments ("s3://" ++ bucket_name rec ++ "/" ++ object_key)%string
       "s3://processed-json-files/another-sample.csv/" reference_id email)
    = Ok job_id ->
  put_fault w = None ->
  lambda_handler w {| Records := rec :: rest |} db =
    ({| table := <[reference_id :=
                     dynamo_params reference_id job_id (utcnow w) filename email]>
                   (table db);
        requests := S (requests db) |},
     {| statusCode := 200;
        body := Started "File processed successfully and job started!"
                  job_id reference_id |}) /\
  table (fst (lambda_handler w {| Records := rec :: rest |} db)) !! reference_id =
    Some (dynamo_params reference_id job_id (utcnow w) filename email).
Proof.
  intros object_key reference_id Hsplit Hglue Hput.
  assert (H : lambda_handler w {| Records := rec :: rest |} db =
    ({| table := <[reference_id :=
                     dynamo_params reference_id job_id (utcnow w) filename email]>
                   (table db);
        requests := S (requests db) |},
     {| statusCode := 200;
        body := Started "File processed successfully and job started!"
                  job_id reference_id |})).
  { unfold object_key, reference_id in *. unfold lambda_handler.
    cbn [Records]. cbv zeta. now rewrite Hsplit, Hglue, Hput. }
  split; [exact H|]. rewrite H. simpl. apply lookup_insert_eq.
Qed.

Lemma create_is_unconditional_put_witness :
  table (fst (lambda_handler trigger_world trigger_event finished_db))
    !! "REF123456" =
  Some (dynamo_params "REF123456" "jr_2" "2024-12-01T08:00:00" "new.json"
          "v@y.org").
Proof.
  apply (create_is_unconditional_put trigger_world
           {| bucket_name := "uploads";
              object_key := "incoming/v%40y.org_new.json" |} [] finished_db
           "v@y.org" "new.json" "jr_2"); reflexivity.
Defined.

(** * More about the flattener *)

(** ** The loop of [flatten] and its fuel *)

Lemma flatten_loop_more_fuel fuel : forall k df p r,
  flatten_loop fuel df p = Some r -> flatten_loop (fuel + k) df p = Some r.
Proof.
  induction fuel as [|fuel IH]; simpl; intros k df p r H; [discriminate|].
  destruct (read_nested_json df) as [df'|e]; [|exact H].
  destruct (inspect_schema (schema df') (names (schema df')) false)
    as [[|]|e]; auto.
Qed.



(** X2: what [flatten] guarantees about the batch it returns: under every
    column name the first field of that name is a scalar, so all columns are
    scalar when the names are pairwise distinct, and every row has one cell
    per column. *)
Theorem flatten_returns_scalar_first_fields df df' :
  flatten df = Ok df' ->
  (forall n, In n (names (schema df')) ->
     exists t, schema_lookup (schema df') n = Ok t /\ is_scalar t = true) /\
  (NoDup (names (schema df')) -> all_scalar (schema df') = true) /\
  Forall (fun r : Row => length r = length (schema df')) (rows df').
Proof.
  intros H. destruct (flatten_defined df) as (n & Hf). rewrite H in Hf.
  pose proof (flatten_loop_returned _ _ _ _ _ Hf) as Hi.
  split; [|split].
  - now apply inspect_schema_false in Hi as [_ Hi].
  - now apply inspect_schema_false_NoDup.
  - eapply flatten_loop_rect, Hf.
Qed.

Lemma flatten_returns_scalar_first_fields_witness :
  exists t, schema_lookup [("a_b_c", LongType); ("a_b_c", ArrayType LongType)]
              "a_b_c" = Ok t /\ is_scalar t = true.
Proof.
  destruct (flatten_returns_scalar_first_fields df_colliding
              {| schema := [("a_b_c", LongType); ("a_b_c", ArrayType LongType)];
                 rows := [[VLong 1; VArray [VLong 2; VLong 3]]] |} eq_refl)
    as (H & _).
  apply H. now left.
Defined.

(** ** The depth after one pass *)

Lemma schema_depth_app a b :
  schema_depth (a ++ b) = Nat.max (schema_depth a) (schema_depth b).
Proof.
  induction a as [|[n t] a IH]; simpl; [reflexivity|]. rewrite IH. lia.
Qed.

Lemma schema_depth_children (g : StructField -> string) fs :
  schema_depth (map (fun c => (g c, snd c)) fs) = schema_depth fs.
Proof.
  induction fs as [|[c t] fs IH]; simpl; [reflexivity|]. now rewrite IH.
Qed.

Lemma schema_depth_flat_field f :
  schema_depth (flat_field f) = Nat.pred (type_depth (snd f)).
Proof.
  destruct f as [n t]. destruct t; simpl; try reflexivity.
  - lia.
  - apply (schema_depth_children (fun c => (n ++ "_" ++ fst c)%string)).
Qed.

Lemma schema_depth_flat sch :
  schema_depth (flat_map flat_field sch) = Nat.pred (schema_depth sch).
Proof.
  induction sch as [|f sch IH]; [reflexivity|].
  cbn [flat_map]. rewrite schema_depth_app, schema_depth_flat_field, IH.
  destruct f as [n t]. simpl. lia.
Qed.

Lemma read_nested_json_wf_depth df :
  well_formed df = true ->
  exists df', read_nested_json df = Ok df' /\
    schema_depth (schema df') = Nat.pred (schema_depth (schema df)).
Proof.
  intros Hwf. eexists. split; [apply (read_nested_json_wf df Hwf)|].
  apply schema_depth_flat.
Qed.

(** X3: on a well-formed batch (column names and the field names of each
    struct column plain and pairwise distinct without regard to case, one
    cell per column) one pass never raises, and it takes exactly one level
    of nesting off the deepest column. *)
Theorem pass_removes_one_level df :
  well_formed df = true ->
  exists df', read_nested_json df = Ok df' /\
    schema_depth (schema df') = Nat.pred (schema_depth (schema df)).
Proof. exact (read_nested_json_wf_depth df). Qed.

Lemma pass_removes_one_level_witness :
  exists df', read_nested_json df_a_list_of_objects = Ok df' /\
    schema_depth (schema df') = 1.
Proof. apply (pass_removes_one_level df_a_list_of_objects eq_refl). Defined.

(** ** The number of rows after one pass *)

Lemma length_flat_map_const {A B} (f : A -> list B) k l :
  (forall x, length (f x) = k) -> length (flat_map f l) = length l * k.
Proof.
  intros Hf. induction l as [|x l IH]; simpl; [reflexivity|].
  now rewrite length_app, Hf, IH.
Qed.

Lemma explode_row_fanout sch : forall r : Row,
  length (explode_row sch r) = fanout sch r.
Proof.
  induction sch as [|[n t] sch IH]; intros [|v r]; simpl; try reflexivity.
  destruct (is_array t).
  - apply length_flat_map_const. intros e. now rewrite length_map.
  - rewrite length_map, IH. lia.
Qed.

Lemma length_flat_map_sum {A B} (f : A -> list B) l :
  length (flat_map f l) = list_sum (map (fun x => length (f x)) l).
Proof.
  induction l as [|x l IH]; simpl; [reflexivity|]. now rewrite length_app, IH.
Qed.

(** X4: on a well-formed batch (plain names, pairwise distinct without
    regard to case) the number of rows one pass returns is the
    sum, over the input rows, of the product of the lengths of the arrays in
    the row's array columns: the array columns of a row are crossed, and a
    row with an empty or null array gives nothing. *)
Theorem pass_row_count df :
  well_formed df = true ->
  exists df', read_nested_json df = Ok df' /\
    length (rows df') = list_sum (map (fanout (schema df)) (rows df)).
Proof.
  intros Hwf. eexists. split; [apply (read_nested_json_wf df Hwf)|].
  simpl. rewrite length_flat_map_sum. f_equal. apply map_ext. intros r.
  unfold flat_rows. now rewrite length_map, explode_row_fanout.
Qed.

Lemma pass_row_count_witness :
  exists df', read_nested_json df_two_lists = Ok df' /\ length (rows df') = 4.
Proof. apply (pass_row_count df_two_lists eq_refl). Defined.

(** X5: one pass works row by row: on a well-formed batch (plain names,
    pairwise distinct without regard to case) whose rows are split in two
    parts, the pass over the whole batch returns the rows of the pass over
    the first part followed by those of the pass over the second, under the
    same columns. *)
Theorem pass_is_row_wise sch rs1 rs2 :
  well_formed {| schema := sch; rows := rs1 ++ rs2 |} = true ->
  exists sch' out1 out2,
    read_nested_json {| schema := sch; rows := rs1 |} =
      Ok {| schema := sch'; rows := out1 |} /\
    read_nested_json {| schema := sch; rows := rs2 |} =
      Ok {| schema := sch'; rows := out2 |} /\
    read_nested_json {| schema := sch; rows := rs1 ++ rs2 |} =
      Ok {| schema := sch'; rows := out1 ++ out2 |}.
Proof.
  intros Hwf. pose proof Hwf as Hwf'. unfold well_formed in Hwf'.
  simpl in Hwf'. rewrite forallb_app, !andb_true_iff in Hwf'.
  destruct Hwf' as [[Hu Hok] [H1 H2]].
  assert (Hwf1 : well_formed {| schema := sch; rows := rs1 |} = true)
    by (unfold well_formed; simpl; now rewrite Hu, Hok, H1).
  assert (Hwf2 : well_formed {| schema := sch; rows := rs2 |} = true)
    by (unfold well_formed; simpl; now rewrite Hu, Hok, H2).
  exists (flat_map flat_field sch), (flat_map (flat_rows sch) rs1),
         (flat_map (flat_rows sch) rs2).
  split; [|split].
  - now rewrite read_nested_json_wf.
  - now rewrite read_nested_json_wf.
  - rewrite (read_nested_json_wf _ Hwf). simpl. now rewrite flat_map_app.
Qed.

Lemma pass_is_row_wise_witness :
  exists sch' out1 out2,
    read_nested_json {| schema := schema df_empty_lists;
                        rows := [[VArray []; VLong 1]; [VNull; VLong 2]] |} =
      Ok {| schema := sch'; rows := out1 |} /\
    read_nested_json {| schema := schema df_empty_lists;
                        rows := [[VArray [VLong 7]; VLong 3]] |} =
      Ok {| schema := sch'; rows := out2 |} /\
    read_nested_json df_empty_lists = Ok {| schema := sch'; rows := out1 ++ out2 |}.
Proof.
  apply (pass_is_row_wise (schema df_empty_lists)
           [[VArray []; VLong 1]; [VNull; VLong 2]] [[VArray [VLong 7]; VLong 3]]
           eq_refl).
Defined.

(** ** What the flattener can raise *)

Lemma schema_lookup_names sch n :
  In n (names sch) -> exists t, schema_lookup sch n = Ok t.
Proof.
  induction sch as [|[m t] sch IH]; simpl; [contradiction|].
  intros [->|Hin].
  - rewrite String.eqb_refl. eauto.
  - destruct (String.eqb m n); eauto.
Qed.

Lemma resolve_exn ns n e :
  resolve ns n = Raise e -> exists msg, e = AnalysisException msg.
Proof.
  unfold resolve. destruct (simple n);
    [destruct (matches n ns 0) as [|i [|j l]]|]; intros H;
    try discriminate; injection H as <-; eauto.
Qed.

Lemma withColumn_explode_exn df n e :
  withColumn_explode df n = Raise e -> exists msg, e = AnalysisException msg.
Proof.
  unfold withColumn_explode.
  destruct (resolve (names (schema df)) n) as [i|e0] eqn:Hr; simpl.
  - destruct (schema df !! i) as [[m []]|]; intros H; try discriminate;
      injection H as <-; eauto.
  - intros H. injection H as <-. eapply resolve_exn, Hr.
Qed.

Lemma withColumn_explode_names df n t df' :
  schema_lookup (schema df) n = Ok t ->
  withColumn_explode df n = Ok df' -> names (schema df') = names (schema df).
Proof.
  intros Hl H. apply (withColumn_explode_Ok _ _ _ _ Hl) in H as (i & e & _ & Hi & ->).
  simpl. eapply names_insert, Hi.
Qed.

Lemma read_nested_json_loop_exn ns : forall df cl e,
  incl ns (names (schema df)) ->
  read_nested_json_loop ns df cl = Raise e ->
  exists msg, e = AnalysisException msg.
Proof.
  induction ns as [|cn ns IH]; simpl; intros df cl e Hin H; [discriminate|].
  destruct (schema_lookup_names (schema df) cn) as (t & Ht);
    [apply Hin; now left|].
  assert (Hns : incl ns (names (schema df)))
    by (intros x Hx; apply Hin; now right).
  rewrite Ht in H. simpl in H.
  destruct t; try (eapply IH; eassumption).
  destruct (withColumn_explode df cn) as [df2|e2] eqn:Hw; simpl in H.
  - eapply IH; [|exact H]. now rewrite (withColumn_explode_names _ _ _ _ Ht Hw).
  - injection H as <-. eapply withColumn_explode_exn, Hw.
Qed.

Lemma resolve_column_exn sch c e :
  resolve_column sch c = Raise e -> exists msg, e = AnalysisException msg.
Proof.
  destruct c as [n|p f a]; simpl.
  - destruct (resolve (names sch) n) as [i|e0] eqn:Hr; simpl.
    + destruct (sch !! i) as [[m t]|]; intros H; try discriminate.
      injection H as <-. eauto.
    + intros H. injection H as <-. eapply resolve_exn, Hr.
  - destruct (resolve (names sch) p) as [i|e0] eqn:Hr; simpl.
    + destruct (sch !! i) as [[m []]|]; intros H; try discriminate;
        try (injection H as <-; eauto; fail).
      destruct (resolve (names fields) f) as [j|e1] eqn:Hf; simpl in H.
      * destruct (fields !! j) as [[m' t']|]; try discriminate.
        injection H as <-. eauto.
      * injection H as <-. eapply resolve_exn, Hf.
    + intros H. injection H as <-. eapply resolve_exn, Hr.
Qed.

Lemma resolve_columns_exn sch cs e :
  resolve_columns sch cs = Raise e -> exists msg, e = AnalysisException msg.
Proof.
  induction cs as [|c cs IH]; simpl; [discriminate|].
  destruct (resolve_column sch c) as [o|e0] eqn:Hc; simpl.
  - destruct (resolve_columns sch cs) as [os|e1]; simpl; [discriminate|].
    intros H. injection H as <-. now apply IH.
  - intros H. injection H as <-. eapply resolve_column_exn, Hc.
Qed.

Lemma read_nested_json_exn df e :
  read_nested_json df = Raise e -> exists msg, e = AnalysisException msg.
Proof.
  unfold read_nested_json.
  destruct (read_nested_json_loop (names (schema df)) df []) as [[df1 cl]|e0]
    eqn:Hl; simpl.
  - unfold select.
    destruct (resolve_columns (schema df1) cl) as [outs|e1] eqn:Hs; simpl;
      [discriminate|].
    intros H. injection H as <-. eapply resolve_columns_exn, Hs.
  - intros H. injection H as <-.
    eapply read_nested_json_loop_exn; [|exact Hl]. apply incl_refl.
Qed.

(** The inspection reads the names off the schema it looks them up in, so
    every lookup finds a field. *)
Lemma inspect_schema_spec sch ns : forall b,
  incl ns (names sch) ->
  inspect_schema sch ns b =
  Ok (b || existsb (fun n => match schema_lookup sch n with
                             | Ok t => negb (is_scalar t)
                             | Raise _ => false
                             end) ns).
Proof.
  induction ns as [|n ns IH]; simpl; intros b Hin.
  - now rewrite orb_false_r.
  - destruct (schema_lookup_names sch n) as (t & Ht); [apply Hin; now left|].
    assert (Hns : incl ns (names sch)) by (intros x Hx; apply Hin; now right).
    rewrite Ht. simpl. unfold is_scalar.
    destruct (is_array t) eqn:Ha; simpl.
    + rewrite IH by assumption. now rewrite orb_true_r.
    + destruct (is_struct t) eqn:Hs; simpl; rewrite IH by assumption;
        [now rewrite orb_true_r | reflexivity].
Qed.

Lemma flatten_loop_exn fuel : forall df p n e,
  flatten_loop fuel df p = Some (n, Raise e) ->
  exists msg, e = AnalysisException msg.
Proof.
  induction fuel as [|fuel IH]; simpl; intros df p n e H; [discriminate|].
  destruct (read_nested_json df) as [df1|e1] eqn:Hr.
  - rewrite inspect_schema_spec in H by apply incl_refl.
    destruct (false || _) in H; [eauto | discriminate].
  - injection H as _ <-. eapply read_nested_json_exn, Hr.
Qed.



(** ** A column name that occurs twice *)

Lemma schema_lookup_insert_ne (sch : Schema) i n t t' m :
  sch !! i = Some (n, t) -> m <> n ->
  schema_lookup (<[i := (n, t')]> sch) m = schema_lookup sch m.
Proof.
  revert i. induction sch as [|[m0 t0] sch IH]; intros [|i] Hi Hne;
    simpl in *; try discriminate.
  - injection Hi as -> ->.
    destruct (String.eqb_spec n m) as [->|_]; [contradiction | reflexivity].
  - destruct (String.eqb m0 m); [reflexivity | now apply IH].
Qed.

(** A name that resolves does not occur twice. *)
Lemma resolve_occurrences sch n i :
  resolve (names sch) n = Ok i -> 2 <= occurrences n sch -> False.
Proof.
  intros H Hocc. apply resolve_Ok in H as [_ H]. unfold occurrences in Hocc.
  pose proof (positions_matches n (names sch) 0) as Hle.
  rewrite H in Hle. simpl in Hle. lia.
Qed.

(** The column an entry of [column_list] refers to. *)
Lemma resolve_column_Ok sch c o :
  resolve_column sch c = Ok o ->
  exists i, resolve (names sch)
              (match c with ColName n => n | ColAlias p _ _ => p end) = Ok i.
Proof.
  destruct c as [n|p f a]; simpl; intros H; inv_bind H; eauto.
Qed.

Lemma resolve_columns_In sch cs : forall outs c,
  resolve_columns sch cs = Ok outs -> In c cs ->
  exists o, resolve_column sch c = Ok o.
Proof.
  induction cs as [|c0 cs IH]; simpl; intros outs c H Hin; [contradiction|].
  inv_bind H. inv_bind H. destruct Hin as [->|Hin]; eauto.
Qed.

Lemma read_nested_json_loop_refers ns : forall df cl df1 cl1,
  read_nested_json_loop ns df cl = Ok (df1, cl1) ->
  names (schema df1) = names (schema df) /\
  (forall c, In c cl -> In c cl1) /\
  (forall n t, In n ns -> 2 <= occurrences n (schema df) ->
     schema_lookup (schema df) n = Ok t -> t <> StructType [] ->
     exists c, In c cl1 /\
       match c with ColName m => m | ColAlias p _ _ => p end = n).
Proof.
  induction ns as [|cn ns IH]; simpl; intros df cl df1 cl1 H.
  - injection H as <- <-. repeat split; auto. intros n t [].
  - inv_bind H. rename a into t0.
    destruct t0 as [| | | |e0|fs].
    5: {
      inv_bind H. rename a into df2.
      pose proof (withColumn_explode_names _ _ _ _ Hm Hm0) as Hnames.
      apply (withColumn_explode_Ok _ _ _ _ Hm) in Hm0 as (i & e & Hres & Hi & ->).
      apply IH in H as (Hn & Hcl & Hdup). simpl in *.
      split; [congruence|]. split.
      { intros c Hc. apply Hcl, in_or_app. now left. }
      intros n t [<-|Hin] Hocc Hl Hne.
      { now apply (resolve_occurrences _ _ _ Hres) in Hocc. }
      destruct (String.eqb_spec n cn) as [->|Hncn].
      { now apply (resolve_occurrences _ _ _ Hres) in Hocc. }
      apply (Hdup n t Hin).
      - unfold occurrences in *. now rewrite Hnames.
      - now rewrite (schema_lookup_insert_ne _ _ _ _ _ _ Hi Hncn).
      - exact Hne. }
    5: {
      apply IH in H as (Hn & Hcl & Hdup).
      split; [exact Hn|]. split.
      { intros c Hc. apply Hcl, in_or_app. now left. }
      intros n t [<-|Hin] Hocc Hl Hne; [|eauto].
      rewrite Hm in Hl. injection Hl as <-.
      destruct fs as [|f fs]; [contradiction|].
      exists (ColAlias cn (fst f) (cn ++ "_" ++ fst f)%string).
      split; [|reflexivity].
      apply Hcl, in_or_app. right. now left. }
    all: apply IH in H as (Hn & Hcl & Hdup);
      (split; [exact Hn|]); (split;
       [intros c Hc; apply Hcl, in_or_app; now left|]);
      intros n t [<-|Hin] Hocc Hl Hne; [|eauto];
      exists (ColName cn); (split; [|reflexivity]);
      apply Hcl, in_or_app; right; now left.
Qed.



(** ** The number of passes *)

Lemma inspect_schema_nested sch :
  NoDup (names sch) -> schema_depth sch <> 0 ->
  inspect_schema sch (names sch) false = Ok true.
Proof.
  intros Hnd Hd. rewrite inspect_schema_spec by apply incl_refl.
  f_equal. simpl. apply existsb_exists.
  assert (Hex : exists n t, In (n, t) sch /\ is_scalar t = false).
  { clear Hnd. induction sch as [|[n t] sch IH]; simpl in Hd; [lia|].
    destruct (is_scalar t) eqn:Hs.
    - apply is_scalar_depth in Hs.
      destruct IH as (n' & t' & Hin & Hs'); [lia|].
      exists n', t'. split; [now right | exact Hs'].
    - exists n, t. split; [now left | exact Hs]. }
  destruct Hex as (n & t & Hin & Hs). exists n. split.
  - apply in_map_iff. exists (n, t). auto.
  - rewrite (schema_lookup_NoDup _ _ _ Hnd Hin). now rewrite Hs.
Qed.

Lemma inspect_schema_scalar sch :
  all_scalar sch = true -> inspect_schema sch (names sch) false = Ok false.
Proof.
  intros Hs. pose proof (inspect_schema_all_scalar sch (names sch) Hs) as Hne.
  rewrite inspect_schema_spec in * by apply incl_refl.
  destruct (false || _); [contradiction | reflexivity].
Qed.

Lemma flatten_loop_passes k : forall df p fuel,
  Nat.pred (schema_depth (schema df)) = k ->
  collision_free k df = true ->
  S k <= fuel ->
  exists df', flatten_loop fuel df p = Some (p + S k, Ok df') /\
              all_scalar (schema df') = true.
Proof.
  induction k as [|k IH]; intros df p [|fuel] Hk Hcf Hfuel; try lia;
    simpl in Hcf; apply andb_true_iff in Hcf as [Hwf Hcf]; simpl;
    destruct (read_nested_json_wf_depth df Hwf) as (df1 & Hr & Hd);
    rewrite Hr in *.
  - assert (Hs : all_scalar (schema df1) = true)
      by (apply all_scalar_depth; lia).
    rewrite (inspect_schema_scalar _ Hs). exists df1.
    split; [f_equal; f_equal; lia | exact Hs].
  - assert (Hwf1 : well_formed df1 = true).
    { destruct k; simpl in Hcf; now apply andb_true_iff in Hcf as [? _]. }
    apply well_formed_inv in Hwf1 as (Hnd & _ & _).
    apply names_ok_NoDup in Hnd.
    rewrite (inspect_schema_nested _ Hnd) by lia.
    destruct (IH df1 (S p) fuel) as (df' & Hf & Hs); [lia | exact Hcf | lia |].
    exists df'. split; [|exact Hs]. rewrite Hf. f_equal. f_equal. lia.
Qed.

(** X8: as long as the batch and what each pass on the way returns are
    well-formed (plain names, no two of them the same without regard to
    case), [flatten] makes exactly as many passes as the deepest column has
    levels of nesting (one pass when there is none), and returns a batch
    whose columns are all scalar. *)
Theorem flatten_makes_depth_passes df fuel :
  collision_free (Nat.pred (schema_depth (schema df))) df = true ->
  depth df <= fuel ->
  exists df',
    flatten_loop fuel df 0 = Some (Nat.max 1 (schema_depth (schema df)), Ok df') /\
    all_scalar (schema df') = true.
Proof.
  intros Hcf Hfuel. rewrite depth_unfold in Hfuel.
  destruct (flatten_loop_passes _ df 0 fuel eq_refl Hcf) as (df' & Hf & Hs);
    [lia|].
  exists df'. split; [|exact Hs]. rewrite Hf. f_equal. f_equal. lia.
Qed.

Lemma flatten_makes_depth_passes_witness :
  exists df',
    flatten_loop 3 df_a_list_of_objects 0 = Some (2, Ok df') /\
    all_scalar (schema df') = true.
Proof.
  apply (flatten_makes_depth_passes df_a_list_of_objects 3 eq_refl).
  vm_compute. lia.
Defined.

(** X9: [flatten] is idempotent on what it returns: when the batch it
    returned has plain column names, pairwise distinct without regard to
    case, flattening that batch again returns it unchanged. *)
Theorem flatten_idempotent df df' :
  flatten df = Ok df' ->
  unambiguous (names (schema df')) = true ->
  flatten df' = Ok df'.
Proof.
  intros H Hnd. destruct (flatten_defined df) as (n & Hf). rewrite H in Hf.
  pose proof (flatten_loop_returned _ _ _ _ _ Hf) as Hi.
  assert (Hs : all_scalar (schema df') = true)
    by now apply inspect_schema_false_NoDup, names_ok_NoDup,
         unambiguous_names_ok.
  assert (Hwf : well_formed df' = true).
  { apply well_formed_intro; [assumption | now apply all_scalar_field_ok |].
    eapply flatten_loop_rect, Hf. }
  unfold flatten. rewrite depth_unfold. simpl.
  now rewrite (read_nested_json_scalar df' Hwf Hs), Hi.
Qed.

Lemma flatten_idempotent_witness :
  flatten {| schema := [("a_x", LongType)]; rows := [[VLong 1]; [VLong 2]] |} =
  Ok {| schema := [("a_x", LongType)]; rows := [[VLong 1]; [VLong 2]] |}.
Proof.
  apply (flatten_idempotent df_a_list_of_objects); reflexivity.
Defined.

(** * More about the job records *)

(** ** Stripping and replacing *)

Lemma lstrip_by_head P s c r : lstrip_by P s = String c r -> P c = false.
Proof.
  induction s as [|a s IH]; simpl; [discriminate|].
  destruct (P a) eqn:Ha; [exact IH|]. intros H. injection H as <- _. exact Ha.
Qed.

Lemma lstrip_by_stop P c s : P c = false -> lstrip_by P (String c s) = String c s.
Proof. intros H. simpl. now rewrite H. Qed.

Lemma lstrip_by_all P s :
  forallb P (list_ascii_of_string s) = true -> lstrip_by P s = EmptyString.
Proof.
  induction s as [|a s IH]; simpl; [reflexivity|].
  intros H. apply andb_true_iff in H as [-> H]. auto.
Qed.

Lemma lstrip_by_forallb P s :
  forallb P (list_ascii_of_string (lstrip_by P s)) = true ->
  forallb P (list_ascii_of_string s) = true.
Proof.
  induction s as [|a s IH]; simpl; [reflexivity|].
  destruct (P a) eqn:Ha; simpl; [exact IH|]. now rewrite Ha.
Qed.

Lemma rstrip_by_cons P c s :
  P c = false -> exists r, rstrip_by P (String c s) = String c r.
Proof. intros Hc. simpl. destruct (rstrip_by P s); [rewrite Hc|]; eauto. Qed.

Lemma rstrip_by_empty P s :
  rstrip_by P s = EmptyString <-> forallb P (list_ascii_of_string s) = true.
Proof.
  induction s as [|a s IH]; simpl; [tauto|].
  destruct (rstrip_by P s) as [|b r].
  - destruct (P a); simpl; [tauto|]. split; discriminate.
  - split; [discriminate|]. intros H. apply andb_true_iff in H as [_ H].
    now apply IH in H.
Qed.

Lemma last_char_cons c s :
  s <> EmptyString -> last_char (String c s) = last_char s.
Proof. destruct s; [contradiction | reflexivity]. Qed.

Lemma last_char_snoc r c : last_char (r ++ String c EmptyString) = Some c.
Proof.
  induction r as [|a r IH]; [reflexivity|].
  change (String a r ++ String c "")%string with (String a (r ++ String c "")).
  rewrite last_char_cons; [exact IH|]. now destruct r.
Qed.

Lemma rstrip_by_last P s c :
  last_char (rstrip_by P s) = Some c -> P c = false.
Proof.
  induction s as [|a s IH]; simpl; [discriminate|].
  destruct (rstrip_by P s) as [|b r] eqn:Hr.
  - destruct (P a) eqn:Ha; simpl; [discriminate|]. intros H.
    now injection H as <-.
  - exact IH.
Qed.

Lemma rstrip_by_id P s :
  (forall c, last_char s = Some c -> P c = false) -> rstrip_by P s = s.
Proof.
  induction s as [|a s IH]; [reflexivity|]. intros H.
  destruct s as [|b s].
  - simpl. now rewrite (H a eq_refl).
  - change (rstrip_by P (String a (String b s)))
      with (match rstrip_by P (String b s) with
            | EmptyString => if P a then EmptyString else String a EmptyString
            | r => String a r
            end).
    now rewrite IH.
Qed.

(** When what [rstrip] leaves of [b] is not empty, stripping [a ++ b] strips
    [b] only. *)
Lemma rstrip_by_app P a b :
  rstrip_by P b <> EmptyString ->
  rstrip_by P (a ++ b) = (a ++ rstrip_by P b)%string.
Proof.
  intros Hb. induction a as [|c a IH]; [reflexivity|].
  change (String c a ++ b)%string with (String c (a ++ b)).
  change (String c a ++ rstrip_by P b)%string
    with (String c (a ++ rstrip_by P b)).
  simpl rstrip_by. rewrite IH.
  destruct (a ++ rstrip_by P b)%string eqn:Hab; [|reflexivity].
  exfalso. destruct a; simpl in Hab; [contradiction | discriminate].
Qed.

Lemma prefix_cons a s1 b s2 :
  String.prefix (String a s1) (String b s2) =
  if ascii_dec a b then String.prefix s1 s2 else false.
Proof. reflexivity. Qed.

Lemma prefix_double_slash c s :
  String.prefix "//" (String c s) = true ->
  c = "/"%char /\ exists s', s = String "/" s'.
Proof.
  rewrite prefix_cons. destruct (ascii_dec "/" c) as [<-|]; [|discriminate].
  destruct s as [|b s']; [discriminate|]. rewrite prefix_cons.
  destruct (ascii_dec "/" b) as [<-|]; [|discriminate]. eauto.
Qed.

Lemma replace_from_0 old new c s :
  replace_from old new 0 (String c s) =
  if String.prefix old (String c s)
  then (new ++ replace_from old new (String.length old - 1) s)%string
  else String c (replace_from old new 0 s).
Proof. reflexivity. Qed.

Lemma replace_from_skip s' :
  replace_from "//" "/" 1 (String "/" s') = replace_from "//" "/" 0 s'.
Proof. reflexivity. Qed.

Lemma replace_from_last s : forall k,
  last_char s <> Some "/"%char ->
  last_char (replace_from "//" "/" k s) <> Some "/"%char /\
  (k < String.length s -> replace_from "//" "/" k s <> EmptyString).
Proof.
  induction s as [|c s IH]; intros k Hl.
  - simpl. split; [discriminate | lia].
  - destruct k as [|k].
    + destruct (String.prefix "//" (String c s)) eqn:Hp.
      * destruct (prefix_double_slash _ _ Hp) as (-> & s' & ->).
        assert (Hs' : s' <> EmptyString) by (intros ->; now apply Hl).
        rewrite last_char_cons in Hl by discriminate.
        destruct (IH 1 Hl) as [H1 H2].
        assert (Hne : replace_from "//" "/" 1 (String "/" s') <> EmptyString).
        { apply H2. destruct s'; [contradiction | simpl; lia]. }
        rewrite replace_from_0, Hp.
        change ("/" ++ replace_from "//" "/" (String.length "//" - 1)
                         (String "/" s'))%string
          with (String "/" (replace_from "//" "/" 1 (String "/" s'))).
        split; [|discriminate]. now rewrite last_char_cons.
      * assert (Hr : replace_from "//" "/" 0 (String c s) =
                     String c (replace_from "//" "/" 0 s)).
        { now rewrite replace_from_0, Hp. }
        rewrite Hr. split; [|discriminate].
        destruct s as [|b s]; [exact Hl|].
        rewrite last_char_cons in Hl by discriminate.
        destruct (IH 0 Hl) as [H1 H2].
        rewrite last_char_cons; [exact H1|]. apply H2. simpl. lia.
    + change (replace_from "//" "/" (S k) (String c s))
        with (replace_from "//" "/" k s).
      destruct s as [|b s].
      * simpl. split; [discriminate | lia].
      * rewrite last_char_cons in Hl by discriminate.
        destruct (IH k Hl) as [H1 H2]. split; [exact H1|].
        intros Hk. apply H2. simpl in *. lia.
Qed.

Lemma replace_from_other c s :
  c <> "/"%char ->
  replace_from "//" "/" 0 (String c s) = String c (replace_from "//" "/" 0 s).
Proof.
  intros Hc.
  rewrite replace_from_0, prefix_cons. destruct (ascii_dec "/" c) as [<-|]; [contradiction|].
  reflexivity.
Qed.

Lemma replace_from_id s :
  no_double_slash s = true -> replace_from "//" "/" 0 s = s.
Proof.
  induction s as [|c s IH]; [reflexivity|]. intros H.
  change (no_double_slash (String c s))
    with (negb (String.prefix "//" (String c s)) && no_double_slash s) in H.
  apply andb_true_iff in H as [Hp Hs]. apply negb_true_iff in Hp.
  rewrite replace_from_0, Hp. now rewrite IH.
Qed.

Lemma in_chars_slash c : in_chars "s3:/" c = false -> c <> "/"%char.
Proof. intros H ->. discriminate H. Qed.

Lemma clean_key_head s c r :
  clean_key s = String c r -> in_chars "s3:/" c = false.
Proof.
  unfold clean_key, lstrip, rstrip.
  destruct (lstrip_by (in_chars "s3:/") s) as [|a u] eqn:Hu; [discriminate|].
  pose proof (lstrip_by_head _ _ _ _ Hu) as Ha.
  destruct (rstrip_by_cons (in_chars "/") a u) as (r' & ->).
  { destruct (in_chars "/" a) eqn:Hs; [|reflexivity].
    unfold in_chars in Hs. simpl in Hs. rewrite orb_false_r in Hs.
    apply Ascii.eqb_eq in Hs as ->. discriminate Ha. }
  unfold replace. rewrite replace_from_other by now apply in_chars_slash.
  intros H. now injection H as <- _.
Qed.

Lemma clean_key_last s : last_char (clean_key s) <> Some "/"%char.
Proof.
  unfold clean_key, replace. apply replace_from_last.
  intros H. apply rstrip_by_last in H. discriminate H.
Qed.

(** X10: the cleaning of the output key strips characters, not the prefix
    [s3://]: whatever the key, the cleaned key does not start with any of the
    characters [s], [3], [:] and [/] (so a bucket name that starts with one
    of them loses its first characters) and it does not end with [/]. *)
Theorem clean_key_strips_characters s :
  (forall c r, clean_key s = String c r -> in_chars "s3:/" c = false) /\
  (forall r, clean_key s <> (r ++ "/")%string) /\
  clean_key ("s3://" ++ s) = clean_key s.
Proof.
  split; [apply clean_key_head|]. split; [|reflexivity].
  intros r H. apply (clean_key_last s). rewrite H. apply last_char_snoc.
Qed.

(** X11: on a path [s3://] followed by a plain bucket-and-key path (one that
    does not start with [s], [3], [:] or [/], holds no [//] and does not
    end with [/]) the cleaning removes the scheme and nothing else. *)
Theorem clean_key_of_plain_path rest :
  plain_key rest = true -> clean_key ("s3://" ++ rest) = rest.
Proof.
  unfold plain_key. rewrite !andb_true_iff. intros [[Hh Hd] Hl].
  unfold clean_key, lstrip, rstrip, replace.
  assert (H1 : lstrip_by (in_chars "s3:/") ("s3://" ++ rest) = rest).
  { change (lstrip_by (in_chars "s3:/") ("s3://" ++ rest))
      with (lstrip_by (in_chars "s3:/") rest).
    destruct rest as [|c r]; [reflexivity|].
    apply lstrip_by_stop. now apply negb_true_iff. }
  rewrite H1. rewrite rstrip_by_id; [now apply replace_from_id|].
  intros c Hc. rewrite Hc in Hl. apply negb_true_iff in Hl.
  unfold in_chars. simpl. now rewrite Hl.
Qed.

Lemma clean_key_of_plain_path_witness :
  clean_key "s3://processed-json-files/out/u@x.org/REF123456_output.csv" =
  "processed-json-files/out/u@x.org/REF123456_output.csv".
Proof.
  apply (clean_key_of_plain_path
           "processed-json-files/out/u@x.org/REF123456_output.csv").
  reflexivity.
Defined.

Lemma clean_key_all_scheme key :
  forallb (in_chars "s3:/") (list_ascii_of_string key) = true ->
  clean_key key = EmptyString.
Proof.
  intros H. unfold clean_key, lstrip. now rewrite lstrip_by_all.
Qed.

(** X12: an output key made of the characters [s], [3], [:] and [/] only
    (such as [s3://]) is cleaned to the empty string and then not stored:
    the update is the one made with no key at all. *)
Theorem key_of_scheme_characters_is_not_stored fault t rid status key db :
  forallb (in_chars "s3:/") (list_ascii_of_string key) = true ->
  update_dynamodb_status fault t rid status (Some key) db =
  update_dynamodb_status fault t rid status None db.
Proof.
  intros H. unfold update_dynamodb_status.
  replace (update_expression status t (cleaned (Some key)))
    with (update_expression status t (cleaned None)); [reflexivity|].
  unfold cleaned. destruct key as [|c key]; [reflexivity|].
  simpl truthy. cbn [option_map]. now rewrite (clean_key_all_scheme _ H).
Qed.

Lemma key_of_scheme_characters_is_not_stored_witness :
  update_dynamodb_status None "2024-12-01T09:00:00" "REF123456" "SUCCEEDED"
    (Some "s3://") running_db =
  update_dynamodb_status None "2024-12-01T09:00:00" "REF123456" "SUCCEEDED"
    None running_db.
Proof.
  apply (key_of_scheme_characters_is_not_stored None "2024-12-01T09:00:00"
           "REF123456" "SUCCEEDED" "s3://" running_db).
  reflexivity.
Defined.

(** ** The check of the arguments of [main] *)

Lemma blank_lstrip_space n : forall s,
  String.length s <= n ->
  blank (lstrip_space s) = blank s /\
  (blank s = true -> lstrip_space s = EmptyString).
Proof.
  induction n as [|n IH]; intros s Hn.
  - destruct s; [now split | simpl in Hn; lia].
  - destruct s as [|a s1]; [now split|]. simpl in Hn.
    destruct (is_space a) eqn:H1.
    { cbn [lstrip_space blank]. rewrite H1. apply IH. lia. }
    destruct s1 as [|b s2].
    { cbn [lstrip_space blank]. rewrite H1. cbn [blank]. rewrite H1.
      now split. }
    simpl in Hn. destruct (is_space2 a b) eqn:H2.
    { cbn [lstrip_space blank]. rewrite H1, H2. apply IH. lia. }
    destruct s2 as [|c s3].
    { cbn [lstrip_space blank]. rewrite H1, H2. cbn [blank].
      rewrite H1, H2. now split. }
    simpl in Hn. destruct (is_space3 a b c) eqn:H3.
    { cbn [lstrip_space blank]. rewrite H1, H2, H3. apply IH. lia. }
    cbn [lstrip_space]. rewrite H1, H2, H3.
    cbn [blank]. rewrite H1, H2, H3. now split.
Qed.

Lemma rstrip_space_empty s : rstrip_space s = EmptyString <-> blank s = true.
Proof.
  destruct s as [|c s]; [now split|].
  change (rstrip_space (String c s))
    with (if blank (String c s) then EmptyString
          else String c (rstrip_space s)).
  destruct (blank (String c s)); split; congruence.
Qed.

Lemma strip_blank s : strip s = EmptyString <-> blank s = true.
Proof.
  unfold strip. rewrite rstrip_space_empty.
  now rewrite (proj1 (blank_lstrip_space _ s (le_n _))).
Qed.

Lemma strip_not_blank s : strip s <> EmptyString <-> blank s = false.
Proof.
  rewrite strip_blank. destruct (blank s); split; congruence.
Qed.

(** A path that starts with an ASCII character that is no white space is
    not blank. *)
Lemma strip_head c s :
  is_space c = false -> Nat.ltb (nat_of_ascii c) 128 = true ->
  strip (String c s) <> EmptyString.
Proof.
  intros Hc Ha. apply strip_not_blank. apply Nat.ltb_lt in Ha.
  assert (H2 : forall b, is_space2 c b = false).
  { intros b. unfold is_space2.
    destruct (Nat.eqb_spec (nat_of_ascii c) 194); [lia | reflexivity]. }
  assert (H3 : forall b d, is_space3 c b d = false).
  { intros b d. unfold is_space3. cbv zeta.
    destruct (Nat.eqb_spec (nat_of_ascii c) 225); [lia|].
    destruct (Nat.eqb_spec (nat_of_ascii c) 226); [lia|].
    destruct (Nat.eqb_spec (nat_of_ascii c) 227); [lia|]. reflexivity. }
  destruct s as [|b [|d s]]; simpl; rewrite Hc; try reflexivity;
    rewrite H2; try reflexivity. now rewrite H3.
Qed.

(** What a run that passes the check of its arguments leaves and returns. *)
Lemma main_outcome w args db :
  strip (input_path args) <> EmptyString ->
  strip (output_path args) <> EmptyString ->
  main w args db =
    match process w args with
    | Ok path =>
        (fst (update_dynamodb_status (dynamo_fault w) (utcnow_isoformat w)
                (reference_ID args) "SUCCEEDED" (Some path) db), Ok tt)
    | Raise e =>
        (fst (update_dynamodb_status (dynamo_fault w) (utcnow_isoformat w)
                (reference_ID args) "FAILED" None db), Raise e)
    end.
Proof.
  intros Hi Ho. rewrite (main_validated w args db Hi Ho). unfold main_try.
  destruct (process w args) as [path|e].
  - pose proof (update_never_raises (dynamo_fault w) (utcnow_isoformat w)
                  (reference_ID args) "SUCCEEDED" (Some path) db) as Hr.
    destruct (update_dynamodb_status _ _ _ "SUCCEEDED" _ db) as [db' r].
    simpl in *. now subst r.
  - pose proof (update_never_raises (dynamo_fault w) (utcnow_isoformat w)
                  (reference_ID args) "FAILED" None db) as Hr.
    destruct (update_dynamodb_status _ _ _ "FAILED" _ db) as [db' r].
    simpl in *. now subst r.
Qed.

Lemma main_requests w args db :
  strip (input_path args) <> EmptyString ->
  strip (output_path args) <> EmptyString ->
  requests (fst (main w args db)) = S (requests db).
Proof.
  intros Hi Ho. rewrite (main_outcome w args db Hi Ho).
  destruct (process w args); simpl; apply update_requests.
Qed.

(** A no-break space (U+00A0, the bytes [C2 A0]) is white space for
    [strip], alone and around a path. *)
Example no_break_space_is_stripped :
  let nbsp := String (ascii_of_nat 194) (String (ascii_of_nat 160) EmptyString) in
  blank nbsp = true /\
  strip (nbsp ++ " s3://b/k" ++ nbsp)%string = "s3://b/k" /\
  main world_ok {| input_path := nbsp; output_path := "s3://b/out";
                   reference_ID := "REF123456"; email := "u@x.org" |}
       running_db =
    (running_db,
     Raise (ValueError "The 'input_path' argument is missing or empty.")).
Proof. repeat split; reflexivity. Qed.

(** X13: [main] sends no status update exactly when its input path or its
    output path is empty or white space only (white space as [str.strip]
    knows it, the Unicode spaces included): such a run raises [ValueError]
    and leaves the table and the count of requests as they were (the record
    of the job stays as the trigger wrote it); every other run sends exactly
    one update. *)
Theorem main_sends_no_update_on_blank_paths w args db :
  (blank (input_path args) || blank (output_path args) = true ->
   exists msg, main w args db = (db, Raise (ValueError msg))) /\
  (blank (input_path args) || blank (output_path args) = false ->
   requests (fst (main w args db)) = S (requests db)).
Proof.
  split.
  - intros H. apply orb_true_iff in H. unfold main.
    destruct (strip (input_path args)) eqn:Hi; [eauto|].
    destruct H as [H|H].
    + apply strip_blank in H. congruence.
    + apply strip_blank in H. rewrite H. eauto.
  - intros H. apply orb_false_iff in H as [Hi Ho].
    apply main_requests; now apply strip_not_blank.
Qed.

(** ** From the trigger to the job *)

Lemma lambda_handler_started w rec rest db email filename job_id :
  split1 "_" (List.last (split "/" (unquote_plus (object_key rec))) EmptyString)
    = [email; filename] ->
  start_job_run w
    (glue_arguments ("s3://" ++ bucket_name rec ++ "/"
                       ++ unquote_plus (object_key rec))%string
       "s3://processed-json-files/another-sample.csv/"
       (generate_reference_id w) email) = Ok job_id ->
  lambda_handler w {| Records := rec :: rest |} db =
    (fst (put_item (put_fault w) (generate_reference_id w)
            (dynamo_params (generate_reference_id w) job_id (utcnow w)
               filename email) db),
     {| statusCode := 200;
        body := Started "File processed successfully and job started!"
                  job_id (generate_reference_id w) |}).
Proof.
  intros Hsplit Hglue. unfold lambda_handler. cbn [Records]. cbv zeta.
  now rewrite Hsplit, Hglue.
Qed.

Lemma getResolvedOptions_glue_arguments i o r e :
  getResolvedOptions (glue_arguments i o r e) =
  Some {| input_path := i; output_path := o; reference_ID := r; email := e |}.
Proof. reflexivity. Qed.

Lemma dynamo_params_lookup rid job_id t filename email :
  let item := dynamo_params rid job_id t filename email in
  item !! "reference_id" = Some rid /\ item !! "jobId" = Some job_id /\
  item !! "job_start_time" = Some t /\ item !! "job_status" = Some "RUNNING" /\
  item !! "file_name" = Some filename /\ item !! "email" = Some email.
Proof. unfold dynamo_params. simpl. repeat split; now simplify_map_eq. Qed.



(** ** The output key of a job that succeeded *)

Lemma lacks_cons sep c s :
  lacks sep (String c s) = negb (Ascii.eqb c sep) && lacks sep s.
Proof. reflexivity. Qed.

Lemma lacks_app sep a b : lacks sep (a ++ b) = lacks sep a && lacks sep b.
Proof.
  induction a as [|c a IH]; [reflexivity|].
  change (String c a ++ b)%string with (String c (a ++ b)).
  now rewrite !lacks_cons, IH, andb_assoc.
Qed.

Lemma prefix_nil s : String.prefix "" s = true.
Proof. now destruct s. Qed.

Lemma lacks_prefix_slash s : lacks "/" s = true -> String.prefix "/" s = false.
Proof.
  destruct s as [|c s]; [reflexivity|]. rewrite lacks_cons, prefix_cons.
  intros H. apply andb_true_iff in H as [H _]. apply negb_true_iff in H.
  destruct (ascii_dec "/" c) as [<-|]; [discriminate | reflexivity].
Qed.

Lemma replace_from_slash s :
  String.prefix "/" s = false ->
  replace_from "//" "/" 0 (String "/" s) = String "/" (replace_from "//" "/" 0 s).
Proof.
  intros H. rewrite replace_from_0, prefix_cons.
  destruct (ascii_dec "/" "/"); [|contradiction]. now rewrite H.
Qed.

Lemma replace_from_double_slash s :
  replace_from "//" "/" 0 (String "/" (String "/" s)) =
  String "/" (replace_from "//" "/" 0 s).
Proof.
  rewrite replace_from_0, !prefix_cons.
  destruct (ascii_dec "/" "/"); [|contradiction]. now rewrite prefix_nil.
Qed.

Lemma replace_from_app_lacks a s :
  lacks "/" a = true ->
  replace_from "//" "/" 0 (a ++ s) = (a ++ replace_from "//" "/" 0 s)%string.
Proof.
  induction a as [|c a IH]; [reflexivity|]. rewrite lacks_cons.
  intros H. apply andb_true_iff in H as [Hc Ha].
  change (String c a ++ s)%string with (String c (a ++ s)).
  rewrite replace_from_other.
  - rewrite IH by assumption. reflexivity.
  - intros ->. discriminate Hc.
Qed.

Lemma replace_from_lacks a :
  lacks "/" a = true -> replace_from "//" "/" 0 a = a.
Proof.
  intros H. pose proof (replace_from_app_lacks a "" H) as Hr.
  simpl in Hr. assert (Ha : (a ++ "")%string = a).
  { clear. induction a as [|c a IH]; [reflexivity|].
    change (String c (a ++ "") = String c a). now f_equal. }
  now rewrite Ha in Hr.
Qed.

Lemma append_not_empty a b : b <> EmptyString -> (a ++ b)%string <> EmptyString.
Proof. destruct a; [auto | discriminate]. Qed.

Lemma last_char_app a b :
  b <> EmptyString -> last_char (a ++ b) = last_char b.
Proof.
  intros Hb. induction a as [|c a IH]; [reflexivity|].
  change (String c a ++ b)%string with (String c (a ++ b)).
  rewrite last_char_cons; [exact IH | now apply append_not_empty].
Qed.

(** The path [main] writes to under the output path of the trigger, and
    what the cleaning makes of it. *)
Lemma clean_key_output_path email rid ts :
  lacks "/" email = true -> lacks "/" rid = true -> lacks "/" ts = true ->
  clean_key ("s3://processed-json-files/another-sample.csv/" ++ "/" ++ email
               ++ "/" ++ rid ++ "_output_" ++ ts ++ ".csv") =
  ("processed-json-files/another-sample.csv/" ++ email ++ "/" ++ rid
     ++ "_output_" ++ ts ++ ".csv")%string.
Proof.
  intros He Hr Ht.
  set (T := (rid ++ "_output_" ++ ts ++ ".csv")%string).
  assert (HT : lacks "/" T = true).
  { unfold T. rewrite !lacks_app, Hr, Ht. reflexivity. }
  unfold clean_key, lstrip, rstrip, replace.
  change (lstrip_by (in_chars "s3:/")
            ("s3://processed-json-files/another-sample.csv/" ++ "/" ++ email
               ++ "/" ++ T))
    with ("processed-json-files" ++ String "/" ("another-sample.csv"
            ++ String "/" (String "/" (email ++ String "/" T))))%string.
  rewrite rstrip_by_id.
  - rewrite replace_from_app_lacks by reflexivity.
    rewrite replace_from_slash by reflexivity.
    rewrite replace_from_app_lacks by reflexivity.
    rewrite replace_from_double_slash.
    rewrite replace_from_app_lacks by assumption.
    rewrite replace_from_slash by now apply lacks_prefix_slash.
    rewrite replace_from_lacks by assumption. reflexivity.
  - intros c Hc.
    change ("processed-json-files" ++ String "/" ("another-sample.csv"
              ++ String "/" (String "/" (email ++ String "/" T))))%string
      with ("processed-json-files/another-sample.csv//" ++ email ++ "/" ++ rid
              ++ "_output_" ++ ts ++ ".csv")%string in Hc.
    rewrite !last_char_app in Hc
      by (repeat apply append_not_empty; discriminate).
    now injection Hc as <-.
Qed.

Lemma process_path w args path :
  process w args = Ok path -> path = unique_output_path w args.
Proof.
  unfold process. intros H. inv_bind H. inv_bind H. inv_bind H.
  now injection H as <-.
Qed.

(** X15: a job that succeeded under the output path the trigger passes
    ([s3://processed-json-files/another-sample.csv/], with its slash at the
    end) stores as output key the bucket and the key of the file it wrote:
    [processed-json-files/another-sample.csv/<email>/<reference id>_output_<time>.csv],
    the scheme taken off and the doubled slash made one. *)
Theorem succeeded_job_stores_its_output_key w args db path :
  output_path args = "s3://processed-json-files/another-sample.csv/" ->
  blank (input_path args) = false ->
  lacks "/" (email args) = true ->
  lacks "/" (reference_ID args) = true ->
  lacks "/" (now_strftime w) = true ->
  process w args = Ok path ->
  dynamo_fault w = None ->
  exists item,
    table (fst (main w args db)) !! reference_ID args = Some item /\
    item !! "job_status" = Some "SUCCEEDED" /\
    item !! "s3_object_key" =
      Some ("processed-json-files/another-sample.csv/" ++ email args ++ "/"
              ++ reference_ID args ++ "_output_" ++ now_strftime w
              ++ ".csv")%string.
Proof.
  intros Ho Hi He Hr Ht Hp Hfault.
  assert (Hi' : strip (input_path args) <> EmptyString)
    by now apply strip_not_blank.
  assert (Ho' : strip (output_path args) <> EmptyString)
    by (rewrite Ho; discriminate).
  rewrite (main_outcome w args db Hi' Ho'), Hp, Hfault. cbn [fst].
  rewrite update_table_ok, lookup_insert_eq. eexists. split; [reflexivity|].
  split; [apply set_attributes_status|].
  apply process_path in Hp. subst path. unfold unique_output_path.
  rewrite Ho.
  change (strip "s3://processed-json-files/another-sample.csv/")
    with "s3://processed-json-files/another-sample.csv/".
  unfold cleaned.
  change (truthy (Some ("s3://processed-json-files/another-sample.csv/" ++ "/"
            ++ email args ++ "/" ++ reference_ID args ++ "_output_"
            ++ now_strftime w ++ ".csv")%string)) with true.
  cbn [option_map]. rewrite (clean_key_output_path _ _ _ He Hr Ht).
  unfold update_expression.
  change (truthy (Some ("processed-json-files/another-sample.csv/"
            ++ email args ++ "/" ++ reference_ID args ++ "_output_"
            ++ now_strftime w ++ ".csv")%string)) with true.
  cbn [set_attributes foldl app fst snd]. now simplify_map_eq.
Qed.

Lemma succeeded_job_stores_its_output_key_witness :
  exists item,
    table (fst (main world_ok job_args running_db)) !! "REF123456" = Some item /\
    item !! "job_status" = Some "SUCCEEDED" /\
    item !! "s3_object_key" =
      Some "processed-json-files/another-sample.csv/u@x.org/REF123456_output_20241201_090000.csv".
Proof.
  apply (succeeded_job_stores_its_output_key world_ok job_args running_db
           "s3://processed-json-files/another-sample.csv//u@x.org/REF123456_output_20241201_090000.csv");
    reflexivity.
Defined.



(** ** The file name the trigger reads *)

Lemma split1_lacks sep s : lacks sep s = true -> split1 sep s = [s].
Proof.
  induction s as [|c s IH]; [reflexivity|]. rewrite lacks_cons.
  intros H. apply andb_true_iff in H as [Hc Hs]. apply negb_true_iff in Hc.
  simpl. now rewrite Hc, IH.
Qed.

Lemma split1_has sep s :
  lacks sep s = false ->
  exists a b, split1 sep s = [a; b] /\ s = (a ++ String sep b)%string /\
              lacks sep a = true.
Proof.
  induction s as [|c s IH]; [discriminate|]. rewrite lacks_cons. simpl.
  destruct (Ascii.eqb c sep) eqn:Hc; simpl.
  - intros _. apply Ascii.eqb_eq in Hc as ->. exists EmptyString, s. auto.
  - intros H. destruct (IH H) as (a & b & -> & -> & Ha).
    exists (String c a), b. split; [reflexivity|]. split; [reflexivity|].
    now rewrite lacks_cons, Hc.
Qed.

Lemma split1_two sep s a b :
  split1 sep s = [a; b] ->
  s = (a ++ String sep b)%string /\ lacks sep a = true.
Proof.
  intros H. destruct (lacks sep s) eqn:Hl.
  - rewrite (split1_lacks _ _ Hl) in H. discriminate.
  - destruct (split1_has _ _ Hl) as (a' & b' & H' & Hs & Ha).
    rewrite H' in H. now injection H as <- <-.
Qed.

Lemma append_cons c a b : (String c a ++ b)%string = String c (a ++ b).
Proof. reflexivity. Qed.

Lemma last_cons_default {A} (x : A) l : List.last (x :: l) x = List.last l x.
Proof. now destruct l. Qed.

(** The last part of a path: the path ends with it, it holds no separator,
    and what comes before it is empty or ends with the separator. *)
Lemma split_last sep s :
  exists dir,
    s = (dir ++ List.last (split sep s) EmptyString)%string /\
    lacks sep (List.last (split sep s) EmptyString) = true /\
    ((dir = EmptyString /\ exists h, split sep s = [h]) \/
     ((exists d, dir = (d ++ String sep EmptyString)%string) /\
      exists h x t, split sep s = h :: x :: t)).
Proof.
  induction s as [|c s IH].
  - exists EmptyString. simpl. repeat split. left. eauto.
  - destruct IH as (dir & Hs & Hl & Hd). simpl split.
    destruct (Ascii.eqb c sep) eqn:Hc.
    + apply Ascii.eqb_eq in Hc as ->. rewrite last_cons_default.
      exists (String sep dir). split; [rewrite append_cons; now f_equal|].
      split; [exact Hl|]. right. split.
      * destruct Hd as [[-> _]|[(d & ->) _]];
          [now exists EmptyString | now exists (String sep d)].
      * destruct Hd as [[_ (h & ->)]|[_ (h & x & t & ->)]]; eauto.
    + destruct Hd as [[-> (h & Hh)]|[(d & ->) (h & x & t & Hh)]];
        rewrite Hh in *; simpl in Hs, Hl |- *.
      * exists EmptyString. subst s. split; [reflexivity|].
        split; [now rewrite lacks_cons, Hc|]. left. eauto.
      * exists (String c (d ++ String sep EmptyString)).
        split; [rewrite append_cons; now f_equal|]. split; [exact Hl|].
        right. split; [now exists (String c d) | eauto].
Qed.

(** X17: the trigger answers 400 exactly when the last part of the decoded
    object key (what follows its last slash) holds no underscore; it then
    starts no job, and leaves the table and the count of requests as they
    were.  An object key that ends with a slash is such a key. *)
Theorem trigger_rejects_names_without_underscore w rec rest db :
  let file_path :=
    List.last (split "/" (unquote_plus (object_key rec))) EmptyString in
  (lacks "_" file_path = true ->
   lambda_handler w {| Records := rec :: rest |} db =
     (db, {| statusCode := 400; body := Message "Invalid file name format" |})) /\
  (lacks "_" file_path = false ->
   statusCode (snd (lambda_handler w {| Records := rec :: rest |} db)) <> 400).
Proof.
  intros file_path. unfold lambda_handler. cbn [Records]. cbv zeta.
  fold file_path. split; intros H.
  - now rewrite (split1_lacks _ _ H).
  - destruct (split1_has _ _ H) as (a & b & -> & _).
    destruct (start_job_run w _); simpl; discriminate.
Qed.

(** X18: the trigger writes one record at most, and only when it answers
    200: its answer is 200, 400 or 500; with 400 or 500 the table and the
    count of requests are as they were; in every case no record other than
    the one under the reference id it drew is touched. *)
Theorem trigger_touches_only_its_record w event db :
  let r := lambda_handler w event db in
  (statusCode (snd r) = 200 \/ statusCode (snd r) = 400 \/
   statusCode (snd r) = 500) /\
  (statusCode (snd r) <> 200 -> fst r = db) /\
  (forall k, k <> generate_reference_id w ->
     table (fst r) !! k = table db !! k) /\
  requests (fst r) <= S (requests db).
Proof.
  unfold lambda_handler. destruct (Records event) as [|rec rest]; cbv zeta.
  - simpl. repeat split; auto.
  - destruct (split1 "_" _) as [|a [|b [|c l]]]; simpl;
      try (repeat split; auto; fail).
    destruct (start_job_run w _) as [job_id|e]; simpl;
      try (repeat split; auto; fail).
    unfold put_item. destruct (put_fault w); simpl.
    + repeat split; auto. congruence.
    + repeat split; auto; [congruence|].
      intros k Hk. now rewrite lookup_insert_ne.
Qed.

(** X19: how the trigger reads the email and the file name: when it answers
    200 and its [put_item] is answered, the record holds as [email] what
    stands before the first underscore of the last part of the decoded key,
    and as [file_name] all that follows it; so [email] holds no underscore
    (an address with an underscore is cut at it), neither holds a slash, and
    the decoded key is a directory part, then [email], an underscore and
    [file_name]. *)
Theorem trigger_splits_at_first_underscore w rec rest db :
  statusCode (snd (lambda_handler w {| Records := rec :: rest |} db)) = 200 ->
  put_fault w = None ->
  exists dir email filename item,
    unquote_plus (object_key rec) = (dir ++ email ++ "_" ++ filename)%string /\
    (dir = EmptyString \/ exists d, dir = (d ++ "/")%string) /\
    lacks "/" (email ++ "_" ++ filename) = true /\
    lacks "_" email = true /\
    table (fst (lambda_handler w {| Records := rec :: rest |} db))
      !! generate_reference_id w = Some item /\
    item !! "email" = Some email /\ item !! "file_name" = Some filename.
Proof.
  intros H200 Hput.
  destruct (split_last "/" (unquote_plus (object_key rec)))
    as (dir & Hkey & Hl & Hd).
  unfold lambda_handler in *. cbn [Records] in *. cbv zeta in *.
  destruct (split1 "_" _) as [|a [|b [|c l]]] eqn:Hs; try discriminate H200.
  destruct (start_job_run w _) as [job_id|e]; [|discriminate H200].
  apply split1_two in Hs as [Hfile Ha]. rewrite Hfile in Hkey, Hl.
  exists dir, a, b. eexists. split; [exact Hkey|]. split.
  { destruct Hd as [[-> _]|[Hd _]]; auto. }
  split; [exact Hl|]. split; [exact Ha|].
  rewrite Hput. simpl. rewrite lookup_insert_eq. split; [reflexivity|].
  unfold dynamo_params. split; now simplify_map_eq.
Qed.

Lemma trigger_splits_at_first_underscore_witness :
  exists dir email filename item,
    unquote_plus "incoming/john_doe%40y.org_new.json" =
      (dir ++ email ++ "_" ++ filename)%string /\
    (dir = EmptyString \/ exists d, dir = (d ++ "/")%string) /\
    lacks "/" (email ++ "_" ++ filename) = true /\
    lacks "_" email = true /\
    table (fst (lambda_handler trigger_world
                  {| Records := [{| bucket_name := "uploads";
                                    object_key := "incoming/john_doe%40y.org_new.json" |}] |}
                  empty_db))
      !! "REF123456" = Some item /\
    item !! "email" = Some email /\ item !! "file_name" = Some filename.
Proof.
  apply (trigger_splits_at_first_underscore trigger_world
           {| bucket_name := "uploads";
              object_key := "incoming/john_doe%40y.org_new.json" |} [] empty_db);
    reflexivity.
Defined.

(** * The mail with the download link *)

Lemma split_lacks sep s : lacks sep s = true -> split sep s = [s].
Proof.
  induction s as [|c s IH]; [reflexivity|]. rewrite lacks_cons.
  intros H. apply andb_true_iff in H as [Hc Hs]. apply negb_true_iff in Hc.
  simpl. now rewrite Hc, IH.
Qed.

Lemma split_app_lacks sep a t :
  lacks sep a = true -> split sep (a ++ String sep t) = a :: split sep t.
Proof.
  induction a as [|c a IH].
  - intros _. simpl. now rewrite Ascii.eqb_refl.
  - rewrite lacks_cons. intros H. apply andb_true_iff in H as [Hc Ha].
    apply negb_true_iff in Hc. rewrite append_cons. simpl.
    now rewrite Hc, IH.
Qed.

Lemma append_nil_r a : (a ++ "")%string = a.
Proof.
  induction a as [|c a IH]; [reflexivity|]. rewrite append_cons. now f_equal.
Qed.

(** The second part of a path that starts [a/b] and goes on, if it does,
    with a slash. *)
Lemma split_second a b t :
  lacks "/" a = true -> lacks "/" b = true ->
  t = EmptyString \/ (exists t', t = String "/" t') ->
  split "/" (a ++ String "/" (b ++ t)) !! 1 = Some b.
Proof.
  intros Ha Hb Ht. rewrite split_app_lacks by assumption.
  destruct Ht as [->|(t' & ->)].
  - now rewrite append_nil_r, split_lacks.
  - now rewrite split_app_lacks.
Qed.

(** X20: the mail handler sends one message at most, and the answer 200
    means that exactly one was handed to the server: it is addressed to the
    second slash-separated part of the decoded object key, and its text ends
    with the URL S3 signed for the bucket and that key.  Messages sent
    before are never touched. *)
Theorem mail_handler_sends_one_message w event outbox :
  let r := EmailSender.lambda_handler w event outbox in
  (fst r = outbox \/ exists m, fst r = outbox ++ [m]) /\
  (statusCode (snd r) = 200 ->
   exists rec rest url recipient,
     Records event = rec :: rest /\
     presigned_url w (bucket_name rec) (unquote_plus (object_key rec)) = Ok url /\
     split "/" (unquote_plus (object_key rec)) !! 1 = Some recipient /\
     fst r = outbox ++
       [{| To := recipient;
           Subject := "Your Processed File is Ready";
           text := ("Your processed file is available for download at the following link:"
                      ++ newline ++ newline ++ url)%string |}]).
Proof.
  unfold EmailSender.lambda_handler, EmailSender.generate_presigned_url,
    EmailSender.send_email.
  destruct (Records event) as [|rec rest]; cbv zeta.
  { simpl. split; [now left | discriminate]. }
  destruct (presigned_url w _ _) as [url|e] eqn:Hurl.
  2: { simpl. split; [now left | discriminate]. }
  destruct (split "/" _ !! 1) as [recipient|] eqn:Hsplit.
  2: { simpl. split; [now left | discriminate]. }
  destruct (smtp w); simpl.
  - split; [now left | discriminate].
  - split; [right; eauto|]. intros _. exists rec, rest, url, recipient. auto.
  - split; [right; eauto | discriminate].
Qed.

(** X21: an object key without a slash gets no mail: whatever S3 and the
    SMTP server answer, the handler answers 500 and sends nothing; when the
    URL was signed, the error it reports is the [IndexError] of
    [object_key.split('/')[1]]. *)
Theorem mail_handler_needs_a_slash w rec rest outbox :
  lacks "/" (unquote_plus (object_key rec)) = true ->
  let r := EmailSender.lambda_handler w {| Records := rec :: rest |} outbox in
  fst r = outbox /\ statusCode (snd r) = 500 /\
  (forall url,
     presigned_url w (bucket_name rec) (unquote_plus (object_key rec)) = Ok url ->
     body (snd r) = Text "Error: list index out of range").
Proof.
  intros H. unfold EmailSender.lambda_handler,
    EmailSender.generate_presigned_url. cbn [Records]. cbv zeta.
  rewrite (split_lacks _ _ H).
  destruct (presigned_url w _ _) as [url|e]; simpl.
  - repeat split.
  - repeat split. intros url Hu. discriminate.
Qed.

Lemma mail_handler_needs_a_slash_witness :
  let r := EmailSender.lambda_handler
             {| presigned_url := fun _ _ => Ok "https://signed";
                smtp := Delivered |}
             {| Records := [{| bucket_name := "processed-json-files";
                               object_key := "output.csv" |}] |} [] in
  fst r = [] /\ statusCode (snd r) = 500 /\
  (forall url, Ok "https://signed" = Ok url ->
               body (snd r) = Text "Error: list index out of range").
Proof.
  apply (mail_handler_needs_a_slash
           {| presigned_url := fun _ _ => Ok "https://signed";
              smtp := Delivered |}
           {| bucket_name := "processed-json-files";
              object_key := "output.csv" |} [] []).
  reflexivity.
Defined.

(** X22: the recipient is the second part of the key, not the first: for a
    decoded key [a/b] or [a/b/...], when the URL is signed and the message
    delivered, the handler answers 200 and the message goes to [b].  Under
    the keys the job writes ([another-sample.csv/<email>/...]) that is the
    email; under a key [<email>/output.csv] it is [output.csv]. *)
Theorem mail_goes_to_second_part w rec rest outbox a b t url :
  unquote_plus (object_key rec) = (a ++ "/" ++ b ++ t)%string ->
  lacks "/" a = true -> lacks "/" b = true ->
  t = EmptyString \/ (exists t', t = String "/" t') ->
  presigned_url w (bucket_name rec) (unquote_plus (object_key rec)) = Ok url ->
  smtp w = Delivered ->
  EmailSender.lambda_handler w {| Records := rec :: rest |} outbox =
    (outbox ++
       [{| To := b;
           Subject := "Your Processed File is Ready";
           text := ("Your processed file is available for download at the following link:"
                      ++ newline ++ newline ++ url)%string |}],
     {| statusCode := 200; body := Text "Email sent successfully." |}).
Proof.
  intros Hkey Ha Hb Ht Hurl Hsmtp.
  unfold EmailSender.lambda_handler, EmailSender.generate_presigned_url,
    EmailSender.send_email. cbn [Records]. cbv zeta.
  rewrite Hurl, Hsmtp. rewrite Hkey.
  change (a ++ "/" ++ b ++ t)%string with (a ++ String "/" (b ++ t))%string.
  now rewrite (split_second a b t Ha Hb Ht).
Qed.

Lemma mail_goes_to_second_part_witness :
  EmailSender.lambda_handler
    {| presigned_url := fun _ _ => Ok "https://signed"; smtp := Delivered |}
    {| Records := [{| bucket_name := "processed-json-files";
                      object_key := "u%40x.org/output.csv" |}] |} [] =
  ([{| To := "output.csv";
       Subject := "Your Processed File is Ready";
       text := ("Your processed file is available for download at the following link:"
                  ++ newline ++ newline ++ "https://signed")%string |}],
   {| statusCode := 200; body := Text "Email sent successfully." |}).
Proof.
  apply (mail_goes_to_second_part
           {| presigned_url := fun _ _ => Ok "https://signed"; smtp := Delivered |}
           {| bucket_name := "processed-json-files";
              object_key := "u%40x.org/output.csv" |} [] []
           "u@x.org" "output.csv" "" "https://signed");
    auto; reflexivity.
Defined.

(** * The entity recognition handler *)

(** X23: the entity recognition handler cannot serve a request that has a
    body: [event['body']], a string, is handed as [fp] to
    [cgi.FieldStorage] (encoded to bytes when the event says base64), and
    the constructor raises for an [fp] that is no file object.  So for
    every event whose body is a string the handler answers 500 with status
    ERROR and writes nothing; when the content type is
    [multipart/form-data], the message is [fp must be file pointer]. *)
Theorem ner_handler_fails_on_every_body w event db s :
  NamedEntityRecognition.body event = Given s ->
  exists message,
    NamedEntityRecognition.lambda_handler w event db =
      (db, NamedEntityRecognition.mkResponse 500
             (NamedEntityRecognition.Error message)) /\
    (forall h ct,
       NamedEntityRecognition.headers event = Given h ->
       NamedEntityRecognition.content_type h = Some ct ->
       String.prefix "multipart/form-data" ct = true ->
       message = "fp must be file pointer").
Proof.
  intros Hbody.
  unfold NamedEntityRecognition.lambda_handler, NamedEntityRecognition.process,
    NamedEntityRecognition.fp_of. rewrite Hbody.
  destruct (NamedEntityRecognition.headers event) as [| |h] eqn:Hh.
  - eexists. split; [reflexivity|]. intros h ct H. discriminate.
  - eexists. split; [reflexivity|]. intros h ct H. discriminate.
  - destruct (NamedEntityRecognition.content_type h) as [ct|] eqn:Hct.
    + destruct (String.prefix "multipart/form-data" ct) eqn:Hp; simpl.
      * destruct (NamedEntityRecognition.isBase64Encoded event); simpl;
          (eexists; split; [reflexivity|]); reflexivity.
      * eexists. split; [reflexivity|]. intros h' ct' Hh' Hct' Hp'.
        injection Hh' as <-. rewrite Hct in Hct'. injection Hct' as <-.
        congruence.
    + eexists. split; [reflexivity|]. intros h' ct' Hh' Hct'.
      injection Hh' as <-. congruence.
Qed.

Lemma ner_handler_fails_on_every_body_witness :
  exists message,
    NamedEntityRecognition.lambda_handler
      (NamedEntityRecognition.mkWorld "123456" "2024-12-01 09:00:00"
         "2024-12-01 09:00:01"
         (fun _ => Done (NamedEntityRecognition.mkForm (Some "u@x.org")
                           (Some "a.txt") (Some "SGVsbG8=")))
         (fun _ => Done "Hello") (fun _ => Done []) None)
      (NamedEntityRecognition.mkEvent
         (Given {[ "Content-Type" := "multipart/form-data; boundary=x" ]})
         (Given "--x--") false)
      empty_db =
      (empty_db, NamedEntityRecognition.mkResponse 500
                   (NamedEntityRecognition.Error message)) /\
    (forall h ct,
       Given ({[ "Content-Type" := "multipart/form-data; boundary=x" ]}
                : gmap string string) = Given h ->
       NamedEntityRecognition.content_type h = Some ct ->
       String.prefix "multipart/form-data" ct = true ->
       message = "fp must be file pointer").
Proof.
  apply (ner_handler_fails_on_every_body
           (NamedEntityRecognition.mkWorld "123456" "2024-12-01 09:00:00"
              "2024-12-01 09:00:01"
              (fun _ => Done (NamedEntityRecognition.mkForm (Some "u@x.org")
                                (Some "a.txt") (Some "SGVsbG8=")))
              (fun _ => Done "Hello") (fun _ => Done []) None)
           (NamedEntityRecognition.mkEvent
              (Given {[ "Content-Type" := "multipart/form-data; boundary=x" ]})
              (Given "--x--") false)
           empty_db "--x--").
  reflexivity.
Defined.

Lemma ner_process_cases w event db :
  (exists message,
     NamedEntityRecognition.process w event db = (db, Raised message)) \/
  (exists message,
     NamedEntityRecognition.process w event db =
       ({| table := table db; requests := S (requests db) |}, Raised message)) \/
  (exists entities email file_name,
     NamedEntityRecognition.body event = Null /\
     NamedEntityRecognition.isBase64Encoded event = false /\
     NamedEntityRecognition.process w event db =
       ({| table :=
             <[NamedEntityRecognition.generate_reference_id w :=
                 NamedEntityRecognition.dynamo_item
                   (NamedEntityRecognition.generate_reference_id w)
                   email file_name
                   (NamedEntityRecognition.job_start_time w)
                   (NamedEntityRecognition.job_end_time w)]> (table db);
           requests := S (requests db) |}, Done entities)).
Proof.
  unfold NamedEntityRecognition.process.
  destruct (NamedEntityRecognition.headers event) as [| |h]; [eauto | eauto |].
  destruct (NamedEntityRecognition.content_type h) as [ct|]; [|eauto].
  destruct (negb (String.prefix "multipart/form-data" ct)); [eauto|].
  unfold NamedEntityRecognition.fp_of.
  destruct (NamedEntityRecognition.isBase64Encoded event) eqn:Hb64;
    destruct (NamedEntityRecognition.body event) as [| |s] eqn:Hbody;
    simpl; eauto.
  destruct (NamedEntityRecognition.stdin_form w ct) as [form|m]; [|eauto].
  destruct (NamedEntityRecognition.form_email form) as [email|]; [|eauto].
  destruct (NamedEntityRecognition.form_file_name form) as [file_name|];
    [|eauto].
  destruct (NamedEntityRecognition.form_file_content form) as [content|];
    [|eauto].
  destruct (_ && _); [|eauto].
  destruct (NamedEntityRecognition.b64decode_utf8 w content) as [text|m];
    [|eauto].
  destruct (NamedEntityRecognition.nlp w text) as [entities|m]; [|eauto].
  unfold put_item.
  destruct (NamedEntityRecognition.put_fault w) as [e|].
  - right. left. eauto.
  - right. right. exists entities, email, file_name. auto.
Qed.

(** X24: the entity recognition handler leaves a record only for a request
    it answers with 200: its answer is 200 or 500; with 500 the table is as
    it was (no record with status ERROR is ever written); with 200 the
    event had no body and no base64 flag (the form was read off the
    standard input), and exactly one record was put, under the reference id
    drawn, with [job_status] SUCCESS and [job_type] NER. *)
Theorem ner_handler_records_successes_only w event db :
  let r := NamedEntityRecognition.lambda_handler w event db in
  (NamedEntityRecognition.statusCode (snd r) = 200 \/
   NamedEntityRecognition.statusCode (snd r) = 500) /\
  (NamedEntityRecognition.statusCode (snd r) = 500 ->
   table (fst r) = table db) /\
  (NamedEntityRecognition.statusCode (snd r) = 200 ->
   NamedEntityRecognition.body event = Null /\
   NamedEntityRecognition.isBase64Encoded event = false /\
   requests (fst r) = S (requests db) /\
   exists item,
     table (fst r) =
       <[NamedEntityRecognition.generate_reference_id w := item]> (table db) /\
     item !! "job_status" = Some "SUCCESS" /\
     item !! "job_type" = Some "NER").
Proof.
  unfold NamedEntityRecognition.lambda_handler.
  destruct (ner_process_cases w event db)
    as [(m & ->)|[(m & ->)|(ents & email & file_name & Hb & H64 & ->)]];
    simpl.
  - split; [now right|]. split; [reflexivity | discriminate].
  - split; [now right|]. split; [reflexivity | discriminate].
  - split; [now left|]. split; [discriminate|]. intros _.
    repeat split; try assumption. eexists. split; [reflexivity|].
    unfold NamedEntityRecognition.dynamo_item. split; now simplify_map_eq.
Qed.

(** * The word frequencies *)

(** ** Counting words *)

Lemma count_sum word cs :
  list_sum (map snd (GCPWordFrequency.count word cs)) = S (list_sum (map snd cs)).
Proof.
  induction cs as [|[w n] cs IH]; simpl; [reflexivity|].
  destruct (String.eqb w word); simpl; [reflexivity|]. rewrite IH. lia.
Qed.

Lemma count_In word cs x :
  In x (map fst (GCPWordFrequency.count word cs)) <-> x = word \/ In x (map fst cs).
Proof.
  induction cs as [|[w n] cs IH]; simpl; [intuition|].
  destruct (String.eqb_spec w word) as [->|Hne]; simpl; [intuition|].
  rewrite IH. intuition.
Qed.

Lemma count_NoDup word cs :
  NoDup (map fst cs) -> NoDup (map fst (GCPWordFrequency.count word cs)).
Proof.
  induction cs as [|[w n] cs IH]; simpl; intros Hnd.
  - apply NoDup_cons. split; [apply not_elem_of_nil | constructor].
  - apply NoDup_cons in Hnd as [Hw Hnd].
    destruct (String.eqb_spec w word) as [->|Hne]; simpl.
    + apply NoDup_cons. auto.
    + apply NoDup_cons. split; [|auto].
      rewrite list_elem_of_In, count_In, <- list_elem_of_In.
      intros [->|Hin]; [now apply Hne | contradiction].
Qed.

(** The entry of [x] after one more [word]. *)
Lemma count_entry word cs x n :
  NoDup (map fst cs) ->
  In (x, n) (GCPWordFrequency.count word cs) ->
  (x = word /\ (n = 1 /\ ~ In x (map fst cs) \/ exists n', n = S n' /\ In (x, n') cs)) \/
  (x <> word /\ In (x, n) cs).
Proof.
  induction cs as [|[w k] cs IH]; simpl; intros Hnd Hin.
  - destruct Hin as [Hin|[]]. injection Hin as <- <-. left. split; auto.
  - apply NoDup_cons in Hnd as [Hw Hnd].
    destruct (String.eqb_spec w word) as [->|Hne]; simpl in Hin.
    + destruct Hin as [Hin|Hin].
      * injection Hin as <- <-. left. split; [reflexivity|]. right. eauto.
      * right. split; [|auto]. intros ->. apply Hw, list_elem_of_In.
        apply in_map_iff. exists (word, n). auto.
    + destruct Hin as [Hin|Hin].
      * injection Hin as <- <-. right. split; [exact Hne | auto].
      * destruct (IH Hnd Hin) as [(-> & [(-> & Hnot)|(n' & -> & Hin')])|(Hx & Hin')].
        -- left. split; [reflexivity|]. left. split; [reflexivity|].
           intros [Heq|Hc]; [now apply Hne | contradiction].
        -- left. split; [reflexivity|]. right. eauto.
        -- right. auto.
Qed.

Lemma Counter_spec ws : forall acc,
  NoDup (map fst acc) ->
  (forall x n, In (x, n) acc -> 1 <= n) ->
  let cs := fold_left (fun counts word => GCPWordFrequency.count word counts) ws acc in
  NoDup (map fst cs) /\
  list_sum (map snd cs) = list_sum (map snd acc) + length ws /\
  (forall x, In x (map fst cs) <-> In x ws \/ In x (map fst acc)) /\
  (forall x n, In (x, n) cs ->
     1 <= n /\
     exists n0, n = n0 + count_occ string_dec ws x /\
                (n0 = 0 /\ ~ In x (map fst acc) \/ 1 <= n0 /\ In (x, n0) acc)).
Proof.
  induction ws as [|w ws IH]; intros acc Hnd Hpos; simpl.
  - split; [exact Hnd|]. split; [lia|]. split; [intuition|].
    intros x n Hin. split; [eauto|]. exists n. split; [lia|]. right. eauto.
  - assert (Hnd' : NoDup (map fst (GCPWordFrequency.count w acc)))
      by now apply count_NoDup.
    assert (Hpos' : forall x n, In (x, n) (GCPWordFrequency.count w acc) -> 1 <= n).
    { intros x n Hin.
      destruct (count_entry _ _ _ _ Hnd Hin)
        as [(_ & [(-> & _)|(n' & -> & _)])|(_ & Hin')]; eauto; lia. }
    destruct (IH _ Hnd' Hpos') as (H1 & H2 & H3 & H4).
    split; [exact H1|]. split; [rewrite H2, count_sum; lia|]. split.
    + intros x. rewrite H3, count_In. intuition.
    + intros x n Hin. destruct (H4 x n Hin) as (Hn & n0 & -> & Hn0).
      split; [exact Hn|].
      destruct (string_dec w x) as [->|Hwx].
      * destruct Hn0 as [(-> & Hnot)|(Hn0 & Hin0)].
        { exfalso. apply Hnot, count_In. now left. }
        destruct (count_entry _ _ _ _ Hnd Hin0)
          as [(_ & [(-> & Hnot)|(n' & -> & Hin')])|(Hx & _)];
          [| |contradiction].
        -- exists 0. split; [lia|]. now left.
        -- exists n'. split; [lia|]. right. split; [eauto | exact Hin'].
      * destruct Hn0 as [(-> & Hnot)|(Hn0 & Hin0)].
        -- exists 0. split; [lia|]. left. split; [reflexivity|].
           intros Hc. apply Hnot, count_In. now right.
        -- destruct (count_entry _ _ _ _ Hnd Hin0)
             as [(-> & _)|(_ & Hin')]; [contradiction|].
           exists n0. split; [lia|]. right. auto.
Qed.

(** ** Finding words *)

Lemma findall_words_starts s :
  GCPWordFrequency.starts_word s = true -> GCPWordFrequency.findall_words s <> [].
Proof.
  destruct s as [|c s]; simpl; [discriminate|]. intros ->.
  destruct (GCPWordFrequency.starts_word s); [|discriminate].
  destruct (GCPWordFrequency.findall_words s); discriminate.
Qed.

(** Every word found is a non-empty run of word characters of the text. *)
Lemma findall_words_chars (P : ascii -> bool) s :
  forallb P (list_ascii_of_string s) = true ->
  Forall (fun w => w <> EmptyString /\
                   forallb (fun c => GCPWordFrequency.is_word c && P c)
                     (list_ascii_of_string w) = true)
         (GCPWordFrequency.findall_words s).
Proof.
  induction s as [|c s IH]; simpl; intros H; [constructor|].
  apply andb_true_iff in H as [Hc Hs]. specialize (IH Hs).
  destruct (GCPWordFrequency.is_word c) eqn:Hw; [|exact IH].
  destruct (GCPWordFrequency.starts_word s).
  - destruct (GCPWordFrequency.findall_words s) as [|w ws].
    + repeat constructor; [discriminate|]. simpl. now rewrite Hw, Hc.
    + apply Forall_cons in IH as [[_ Hword] IH].
      apply Forall_cons. split; [|exact IH]. split; [discriminate|].
      simpl. now rewrite Hw, Hc, Hword.
  - apply Forall_cons. split; [|exact IH]. split; [discriminate|].
    simpl. now rewrite Hw, Hc.
Qed.

Lemma lower_char_not_upper c :
  GCPWordFrequency.is_upper (GCPWordFrequency.lower_char c) = false.
Proof.
  destruct c as [[] [] [] [] [] [] [] []]; reflexivity.
Qed.

Lemma lower_not_upper s :
  forallb (fun c => negb (GCPWordFrequency.is_upper c))
    (list_ascii_of_string (GCPWordFrequency.lower s)) = true.
Proof.
  induction s as [|c s IH]; [reflexivity|]. simpl.
  now rewrite lower_char_not_upper, IH.
Qed.

(** X25: the rows [store_file] inserts for an ASCII text, one per statement: there
    is exactly one row for each distinct word found in the lowered text; the
    frequency of a row is the number of times its word occurs among the
    words found, at least 1, so the frequencies add up to the number of
    words found; and every word is a non-empty run of letters, digits and
    underscores with no upper-case letter. *)
Theorem word_rows_count_the_words w unique_id file_name email file_content :
  GCPWordFrequency.ascii_text file_content = true ->
  let words := GCPWordFrequency.findall_words (GCPWordFrequency.lower file_content) in
  let rows := GCPWordFrequency.rows_to_insert w unique_id file_name email file_content in
  NoDup (map GCPWordFrequency.word rows) /\
  (forall x, In x (map GCPWordFrequency.word rows) <-> In x words) /\
  list_sum (map GCPWordFrequency.frequency rows) = length words /\
  Forall (fun row =>
            GCPWordFrequency.frequency row =
              count_occ string_dec words (GCPWordFrequency.word row) /\
            1 <= GCPWordFrequency.frequency row /\
            GCPWordFrequency.word row <> EmptyString /\
            forallb (fun c => GCPWordFrequency.is_word c &&
                              negb (GCPWordFrequency.is_upper c))
              (list_ascii_of_string (GCPWordFrequency.word row)) = true)
         rows.
Proof.
  intros _ words rows. unfold rows, GCPWordFrequency.rows_to_insert.
  fold words. unfold GCPWordFrequency.Counter.
  destruct (Counter_spec words []) as (H1 & H2 & H3 & H4);
    [constructor | intros x n [] |].
  rewrite !map_map. cbn [GCPWordFrequency.word GCPWordFrequency.frequency].
  change (map (fun x : string * nat => fst x)) with (map (@fst string nat)).
  change (map (fun x : string * nat => snd x)) with (map (@snd string nat)).
  split; [exact H1|]. split.
  { intros x. rewrite H3. simpl. intuition. }
  split; [exact H2|].
  apply Forall_forall. intros row Hrow.
  apply list_elem_of_In, in_map_iff in Hrow as ([x n] & <- & Hin). simpl.
  destruct (H4 x n Hin) as (Hn & n0 & -> & Hn0).
  assert (Hx : In x words).
  { destruct (proj1 (H3 x)) as [Hw|[]]; [|exact Hw].
    apply in_map_iff. exists (x, n0 + count_occ string_dec words x). auto. }
  destruct Hn0 as [(-> & _)|(_ & [])]. split; [reflexivity|].
  split; [exact Hn|].
  pose proof (findall_words_chars _ _ (lower_not_upper file_content)) as Hall.
  fold words in Hall. rewrite Forall_forall in Hall.
  apply Hall. now apply list_elem_of_In.
Qed.

Lemma word_rows_count_the_words_witness :
  let rows := GCPWordFrequency.rows_to_insert
                (GCPWordFrequency.mkWorld "ab12" "proj" None None (fun _ => None)
                   None None "404")
                "ab12" "a.txt" "u@x.org" "The cat; the CAT, a dog_1." in
  map GCPWordFrequency.word rows = ["the"; "cat"; "a"; "dog_1"] /\
  map GCPWordFrequency.frequency rows = [2; 2; 1; 1] /\
  list_sum (map GCPWordFrequency.frequency rows) = 6.
Proof.
  pose proof (word_rows_count_the_words
                (GCPWordFrequency.mkWorld "ab12" "proj" None None (fun _ => None)
                   None None "404")
                "ab12" "a.txt" "u@x.org" "The cat; the CAT, a dog_1." eq_refl)
    as (_ & _ & H & _).
  split; [reflexivity|]. split; [reflexivity|]. exact H.
Defined.

(** ** The handler *)

Lemma insert_rows_ok w rows : forall k c,
  (forall j, GCPWordFrequency.query_fault w j = None) ->
  GCPWordFrequency.insert_rows w k rows c =
    (GCPWordFrequency.mkCloud (GCPWordFrequency.documents c)
       (GCPWordFrequency.blobs c) (GCPWordFrequency.statements c ++ rows),
     Done tt).
Proof.
  induction rows as [|row rows IH]; intros k c Hq; simpl.
  - rewrite app_nil_r. now destruct c.
  - rewrite Hq, IH by assumption. simpl. now rewrite <- app_assoc.
Qed.

Lemma insert_rows_fault w rows : forall k n m c,
  (forall j, j < n -> GCPWordFrequency.query_fault w (k + j) = None) ->
  GCPWordFrequency.query_fault w (k + n) = Some m ->
  n < length rows ->
  GCPWordFrequency.insert_rows w k rows c =
    (GCPWordFrequency.mkCloud (GCPWordFrequency.documents c)
       (GCPWordFrequency.blobs c)
       (GCPWordFrequency.statements c ++ firstn n rows),
     Raised m).
Proof.
  induction rows as [|row rows IH]; intros k n m c Hq Hm Hn; simpl in *;
    [lia|].
  destruct n as [|n].
  - rewrite Nat.add_0_r in Hm. rewrite Hm. simpl. rewrite app_nil_r.
    now destruct c.
  - rewrite <- (Nat.add_0_r k) at 1. rewrite (Hq 0) by lia.
    rewrite (IH (S k) n m).
    + simpl. now rewrite <- app_assoc.
    + intros j Hj. replace (S k + j) with (k + S j) by lia. apply Hq. lia.
    + now replace (S k + n) with (k + S n) by lia.
    + lia.
Qed.

(** X26: a request that holds the four fields, when every service answers:
    [store_file] answers 200 with the id drawn and the location of the
    file; the document of that id is written with the file name, the email
    and the reference id and ends with the status [Ready for Looker Studio];
    the text is stored under [uploads/<id><file name>]; and the statements
    run are those before followed by one per row of the word count. *)
Theorem store_file_processes w request c data file_name email file_content
    reference_id :
  String.eqb (GCPWordFrequency.method request) "OPTIONS" = false ->
  GCPWordFrequency.get_json request = Done (Some data) ->
  data !! "fileName" = Some file_name ->
  data !! "email" = Some email ->
  data !! "fileContent" = Some file_content ->
  data !! "referenceId" = Some reference_id ->
  GCPWordFrequency.set_fault w = None ->
  GCPWordFrequency.upload_fault w = None ->
  (forall k, GCPWordFrequency.query_fault w k = None) ->
  GCPWordFrequency.update_fault w = None ->
  let unique_id := GCPWordFrequency.uuid4_hex w in
  exists c' doc,
    GCPWordFrequency.store_file w request c =
      (c', Done (GCPWordFrequency.mkResponse 200
                   [("Access-Control-Allow-Origin", "*")]
                   (GCPWordFrequency.Processed
                      "File successfully processed and data inserted into BigQuery."
                      unique_id
                      ("gs://dp3--txt-file-storage/uploads/" ++ unique_id
                         ++ file_name)%string))) /\
    GCPWordFrequency.documents c' =
      <[unique_id := doc]> (GCPWordFrequency.documents c) /\
    doc !! "status" = Some "Ready for Looker Studio" /\
    doc !! "fileName" = Some file_name /\ doc !! "email" = Some email /\
    doc !! "referenceId" = Some reference_id /\
    doc !! "location" =
      Some ("gs://dp3--txt-file-storage/uploads/" ++ unique_id ++ file_name)%string /\
    GCPWordFrequency.blobs c' =
      <[("uploads/" ++ unique_id ++ file_name)%string := file_content]>
        (GCPWordFrequency.blobs c) /\
    GCPWordFrequency.statements c' =
      GCPWordFrequency.statements c ++
      GCPWordFrequency.rows_to_insert w unique_id file_name email file_content.
Proof.
  intros Hm Hj H1 H2 H3 H4 Hset Hup Hq Hupd unique_id.
  unfold GCPWordFrequency.store_file, GCPWordFrequency.process.
  rewrite Hm, Hj, H1, H2, H3, H4, Hset, Hup. cbv zeta.
  unfold GCPWordFrequency.doc_set, GCPWordFrequency.upload.
  rewrite insert_rows_ok by assumption.
  unfold GCPWordFrequency.doc_update. rewrite Hupd.
  cbn [GCPWordFrequency.documents GCPWordFrequency.blobs
       GCPWordFrequency.statements].
  rewrite lookup_insert_eq. cbn [fold_left fst snd]. fold unique_id.
  eexists. eexists. split; [reflexivity|].
  cbn [GCPWordFrequency.documents GCPWordFrequency.blobs
       GCPWordFrequency.statements].
  split; [apply insert_insert_eq|].
  repeat split; now simplify_map_eq.
Qed.

Lemma store_file_processes_witness :
  exists c',
    GCPWordFrequency.store_file cloud_ok upload_request empty_cloud =
      (c', Done (GCPWordFrequency.mkResponse 200
                   [("Access-Control-Allow-Origin", "*")]
                   (GCPWordFrequency.Processed
                      "File successfully processed and data inserted into BigQuery."
                      "ab12" "gs://dp3--txt-file-storage/uploads/ab12a.txt"))) /\
    map GCPWordFrequency.word (GCPWordFrequency.statements c') =
      ["the"; "cat"; "a"; "dog_1"].
Proof.
  destruct (store_file_processes cloud_ok upload_request empty_cloud
              (<["fileName" := "a.txt"]>
               (<["email" := "u@x.org"]>
               (<["fileContent" := "The cat; the CAT, a dog_1."]>
               (<["referenceId" := "REF123456"]> ∅))))
              "a.txt" "u@x.org" "The cat; the CAT, a dog_1." "REF123456")
    as (c' & doc & H & _ & _ & _ & _ & _ & _ & _ & Hs);
    try reflexivity; try (now simplify_map_eq).
  exists c'. split; [exact H|]. now rewrite Hs.
Defined.

(** X27: [store_file] stores nothing for a request that lacks a field: when
    [fileName], [email] or [fileContent] is missing it answers 400 (Missing
    required fields); when these three are there and [referenceId], which
    the check of the fields leaves out, is missing, it answers 500 with the
    text of the [KeyError]; in both cases Firestore, the bucket and
    BigQuery are as they were. *)
Theorem store_file_checks_the_fields w request c data :
  String.eqb (GCPWordFrequency.method request) "OPTIONS" = false ->
  GCPWordFrequency.get_json request = Done (Some data) ->
  (data !! "fileName" = None \/ data !! "email" = None \/
   data !! "fileContent" = None ->
   GCPWordFrequency.store_file w request c =
     (c, Done (GCPWordFrequency.mkResponse 400 []
                 (GCPWordFrequency.ErrorData "Missing required fields")))) /\
  (is_Some (data !! "fileName") -> is_Some (data !! "email") ->
   is_Some (data !! "fileContent") -> data !! "referenceId" = None ->
   GCPWordFrequency.store_file w request c =
     (c, Done (GCPWordFrequency.mkResponse 500 []
                 (GCPWordFrequency.ErrorData "'referenceId'")))).
Proof.
  intros Hm Hj. unfold GCPWordFrequency.store_file. rewrite Hm, Hj. split.
  - intros [H|[H|H]]; rewrite H;
      repeat (match goal with |- context [match ?x with _ => _ end] =>
                destruct x end); reflexivity.
  - intros [a ->] [b ->] [d ->] ->. reflexivity.
Qed.

Lemma store_file_checks_the_fields_witness :
  GCPWordFrequency.store_file
    (GCPWordFrequency.mkWorld "ab12" "proj" None None (fun _ => None) None None
       "404")
    (GCPWordFrequency.mkRequest "POST"
       (Done (Some (<["fileName" := "a.txt"]>
                    (<["email" := "u@x.org"]>
                    (<["fileContent" := "The cat"]> ∅))))))
    (GCPWordFrequency.mkCloud ∅ ∅ []) =
  (GCPWordFrequency.mkCloud ∅ ∅ [],
   Done (GCPWordFrequency.mkResponse 500 []
           (GCPWordFrequency.ErrorData "'referenceId'"))).
Proof.
  destruct (store_file_checks_the_fields
              (GCPWordFrequency.mkWorld "ab12" "proj" None None (fun _ => None)
                 None None "404")
              (GCPWordFrequency.mkRequest "POST"
                 (Done (Some (<["fileName" := "a.txt"]>
                              (<["email" := "u@x.org"]>
                              (<["fileContent" := "The cat"]> ∅))))))
              (GCPWordFrequency.mkCloud ∅ ∅ [])
              (<["fileName" := "a.txt"]>
               (<["email" := "u@x.org"]>
               (<["fileContent" := "The cat"]> ∅)))
              eq_refl eq_refl) as [_ H].
  apply H; first [eexists; now simplify_map_eq | now simplify_map_eq].
Defined.

(** X28: a statement that fails is not rolled back: when the document is
    written, the text stored and the statement number [n] raises, the rows
    before it stay in BigQuery and the text stays in the bucket; the
    document is marked [Failed] with the text of the error, and the answer
    is 500 with that text. *)
Theorem failed_statement_is_not_rolled_back w request c data file_name email
    file_content reference_id n m :
  String.eqb (GCPWordFrequency.method request) "OPTIONS" = false ->
  GCPWordFrequency.get_json request = Done (Some data) ->
  data !! "fileName" = Some file_name ->
  data !! "email" = Some email ->
  data !! "fileContent" = Some file_content ->
  data !! "referenceId" = Some reference_id ->
  GCPWordFrequency.set_fault w = None ->
  GCPWordFrequency.upload_fault w = None ->
  (forall j, j < n -> GCPWordFrequency.query_fault w j = None) ->
  GCPWordFrequency.query_fault w n = Some m ->
  n < length (GCPWordFrequency.rows_to_insert w (GCPWordFrequency.uuid4_hex w)
                file_name email file_content) ->
  GCPWordFrequency.failed_update_fault w = None ->
  let unique_id := GCPWordFrequency.uuid4_hex w in
  exists c' doc,
    GCPWordFrequency.store_file w request c =
      (c', Done (GCPWordFrequency.mkResponse 500 []
                   (GCPWordFrequency.ErrorData m))) /\
    GCPWordFrequency.statements c' =
      GCPWordFrequency.statements c ++
      firstn n (GCPWordFrequency.rows_to_insert w unique_id file_name email
                  file_content) /\
    GCPWordFrequency.blobs c' =
      <[("uploads/" ++ unique_id ++ file_name)%string := file_content]>
        (GCPWordFrequency.blobs c) /\
    GCPWordFrequency.documents c' !! unique_id = Some doc /\
    doc !! "status" = Some "Failed" /\
    doc !! "errorMessage" = Some m /\
    doc !! "fileName" = Some file_name.
Proof.
  intros Hm Hj H1 H2 H3 H4 Hset Hup Hq Hfault Hn Hfail unique_id.
  unfold GCPWordFrequency.store_file, GCPWordFrequency.process.
  rewrite Hm, Hj, H1, H2, H3, H4, Hset, Hup. cbv zeta.
  unfold GCPWordFrequency.doc_set, GCPWordFrequency.upload.
  rewrite (insert_rows_fault w _ 0 n m) by assumption.
  unfold GCPWordFrequency.doc_update. rewrite Hfail.
  cbn [GCPWordFrequency.documents GCPWordFrequency.blobs
       GCPWordFrequency.statements].
  rewrite lookup_insert_eq. cbn [fold_left fst snd]. fold unique_id.
  eexists. eexists. split; [reflexivity|].
  cbn [GCPWordFrequency.documents GCPWordFrequency.blobs
       GCPWordFrequency.statements].
  split; [reflexivity|]. split; [reflexivity|].
  split; [apply lookup_insert_eq|].
  repeat split; now simplify_map_eq.
Qed.

Lemma failed_statement_is_not_rolled_back_witness :
  exists c' doc,
    GCPWordFrequency.store_file cloud_third_statement_fails upload_request
      empty_cloud =
      (c', Done (GCPWordFrequency.mkResponse 500 []
                   (GCPWordFrequency.ErrorData "403 Quota exceeded"))) /\
    map GCPWordFrequency.word (GCPWordFrequency.statements c') = ["the"; "cat"] /\
    GCPWordFrequency.documents c' !! "ab12" = Some doc /\
    doc !! "status" = Some "Failed" /\
    doc !! "errorMessage" = Some "403 Quota exceeded".
Proof.
  destruct (failed_statement_is_not_rolled_back cloud_third_statement_fails
              upload_request empty_cloud
              (<["fileName" := "a.txt"]>
               (<["email" := "u@x.org"]>
               (<["fileContent" := "The cat; the CAT, a dog_1."]>
               (<["referenceId" := "REF123456"]> ∅))))
              "a.txt" "u@x.org" "The cat; the CAT, a dog_1." "REF123456"
              2 "403 Quota exceeded")
    as (c' & doc & H & Hs & _ & Hd & H1 & H2 & _);
    try reflexivity; try (now simplify_map_eq).
  - intros [|[|j]] Hj; [reflexivity | reflexivity | lia].
  - vm_compute. lia.
  - exists c', doc. split; [exact H|]. split; [now rewrite Hs|]. auto.
Defined.

(** X29: when writing the document itself fails, the [except] block still
    updates it: on a document that was not there Firestore answers
    [NotFound], raised inside the [except] block, so the exception leaves
    [store_file] instead of an answer 500; nothing was stored. *)
Theorem failed_set_leaves_store_file w request c data file_name email
    file_content reference_id m :
  String.eqb (GCPWordFrequency.method request) "OPTIONS" = false ->
  GCPWordFrequency.get_json request = Done (Some data) ->
  data !! "fileName" = Some file_name ->
  data !! "email" = Some email ->
  data !! "fileContent" = Some file_content ->
  data !! "referenceId" = Some reference_id ->
  GCPWordFrequency.set_fault w = Some m ->
  GCPWordFrequency.failed_update_fault w = None ->
  GCPWordFrequency.documents c !! GCPWordFrequency.uuid4_hex w = None ->
  GCPWordFrequency.store_file w request c =
    (c, Raised (GCPWordFrequency.not_found w)).
Proof.
  intros Hm Hj H1 H2 H3 H4 Hset Hfail Hnone.
  unfold GCPWordFrequency.store_file, GCPWordFrequency.process.
  rewrite Hm, Hj, H1, H2, H3, H4, Hset. cbv zeta.
  unfold GCPWordFrequency.doc_set, GCPWordFrequency.doc_update.
  now rewrite Hfail, Hnone.
Qed.

Lemma failed_set_leaves_store_file_witness :
  GCPWordFrequency.store_file cloud_set_fails upload_request empty_cloud =
    (empty_cloud, Raised "404 No document to update").
Proof.
  apply (failed_set_leaves_store_file cloud_set_fails upload_request empty_cloud
           (<["fileName" := "a.txt"]>
            (<["email" := "u@x.org"]>
            (<["fileContent" := "The cat; the CAT, a dog_1."]>
            (<["referenceId" := "REF123456"]> ∅))))
           "a.txt" "u@x.org" "The cat; the CAT, a dog_1." "REF123456"
           "503 Service unavailable");
    try reflexivity; now simplify_map_eq.
Defined.

(** ** Texts put together *)

Lemma lower_app a b :
  GCPWordFrequency.lower (a ++ b) =
  (GCPWordFrequency.lower a ++ GCPWordFrequency.lower b)%string.
Proof.
  induction a as [|c a IH]; [reflexivity|].
  rewrite append_cons. simpl. now rewrite IH.
Qed.

Lemma starts_word_app a c b :
  GCPWordFrequency.is_word c = false ->
  GCPWordFrequency.starts_word (a ++ String c b) = GCPWordFrequency.starts_word a.
Proof. intros Hc. destruct a; [exact Hc | reflexivity]. Qed.

Lemma findall_words_app a c b :
  GCPWordFrequency.is_word c = false ->
  GCPWordFrequency.findall_words (a ++ String c b) =
  GCPWordFrequency.findall_words a ++ GCPWordFrequency.findall_words b.
Proof.
  intros Hc. induction a as [|x a IH].
  - simpl. now rewrite Hc.
  - rewrite append_cons. simpl. rewrite starts_word_app by assumption.
    destruct (GCPWordFrequency.is_word x); [|exact IH].
    destruct (GCPWordFrequency.starts_word a) eqn:Hs; rewrite IH.
    + pose proof (findall_words_starts _ Hs) as Hne.
      destruct (GCPWordFrequency.findall_words a); [contradiction | reflexivity].
    + reflexivity.
Qed.

Lemma lower_char_not_word c :
  GCPWordFrequency.is_word c = false ->
  GCPWordFrequency.is_word (GCPWordFrequency.lower_char c) = false.
Proof.
  destruct c as [[] [] [] [] [] [] [] []]; simpl; intros H;
    first [discriminate H | reflexivity].
Qed.

(** X30: the words of two ASCII texts put together with a character between
    them that is no letter, digit or underscore are the words of the first text
    followed by those of the second, so every word occurs in the whole as
    often as in the two parts together: counting the words of a text can be
    done part by part. *)
Theorem words_of_joined_texts a sep b :
  GCPWordFrequency.ascii_text (a ++ String sep b) = true ->
  GCPWordFrequency.is_word sep = false ->
  let words s := GCPWordFrequency.findall_words (GCPWordFrequency.lower s) in
  words (a ++ String sep b)%string = words a ++ words b /\
  forall x,
    count_occ string_dec (words (a ++ String sep b)%string) x =
    count_occ string_dec (words a) x + count_occ string_dec (words b) x.
Proof.
  intros _ Hsep words.
  assert (H : words (a ++ String sep b)%string = words a ++ words b).
  { unfold words. rewrite lower_app. simpl GCPWordFrequency.lower.
    apply findall_words_app. now apply lower_char_not_word. }
  split; [exact H|]. intros x. rewrite H. apply count_occ_app.
Qed.

Lemma words_of_joined_texts_witness :
  GCPWordFrequency.findall_words (GCPWordFrequency.lower "The cat; the CAT") =
  ["the"; "cat"; "the"; "cat"].
Proof.
  destruct (words_of_joined_texts "The cat" ";" " the CAT" eq_refl eq_refl)
    as [H _].
  exact H.
Defined.
